(** * EnglishSWJ: the PCM playback engine, the active line and the
     dictation diff

  A shallow embedding of

  - [rawPcmToAudioBuffer] and the class [PCMPlayer]
    (services/geminiService.ts), and
  - the [activeLineIndex] memo and [getDictationDiff] of
    components/DialogueCard.tsx,

  together with the properties the specification states about them and
  further properties of the code.

  Conventions.

  - The times and positions of the player are exact rationals ([Q]);
    equalities between computed numbers are stated with [==].  Every PCM
    sample [k / 32768] with [k] a 16-bit integer is exactly representable
    in the [Float32Array] that holds it, so for the decoder the rationals
    lose nothing.
  - Where a rounded result is compared with a boundary, in
    [activeLineIndex] and in the score of [getDictationDiff], the
    arithmetic is that of doubles: module [Double] rounds every operation
    to the nearest binary64 value.
  - A [Uint8Array] is a [list Byte.byte].
  - The browser is not part of the repository.  What the code asks of it
    (the Web Audio API, [DataView], [requestAnimationFrame]) is modelled in
    the modules [Dom] and [WebAudio]; each definition there states the
    rule of the platform it follows.
  - A thrown exception is a value: an operation returns [Throw e] together
    with the state reached when the exception was raised. *)

From Stdlib Require Import ZArith QArith Qround Qabs Qpower Lia Lqa Ascii String.
From stdpp Require Import base list.

Local Open Scope Q_scope.

(** ** Exceptions and results *)

Inductive DOMException : Type :=
| NotSupportedError
| InvalidStateError
| RangeError.

Inductive Res (A : Type) : Type :=
| Ok (a : A)
| Throw (e : DOMException).

Arguments Ok {A} a.
Arguments Throw {A} e.

Definition isOk {A : Type} (r : Res A) : bool :=
  match r with Ok _ => true | Throw _ => false end.

(** ** Typed arrays and [DataView] *)

Module Dom.

Abbreviation Uint8Array := (list Byte.byte).

Definition byteValue (b : Byte.byte) : Z := Z.of_N (Byte.to_N b).

(** [ToInt16]: the 16-bit pattern [u] read as a two's complement
    integer. *)
Definition toInt16 (u : Z) : Z :=
  if (u <? 32768)%Z then u else (u - 65536)%Z.

(** [new DataView(buffer, byteOffset, byteLength)] over the bytes of a
    [Uint8Array]: the window holds the first [byteLength] bytes of the
    array. *)
Definition DataView (pcmData : Uint8Array) (byteLength : nat) : Uint8Array :=
  take byteLength pcmData.

(** [DataView.prototype.getInt16(byteOffset, littleEndian)]: a
    [RangeError] when [byteOffset + 2] exceeds the view's length,
    otherwise the two bytes combined in the requested order. *)
Definition getInt16 (view : Uint8Array) (byteOffset : nat)
           (littleEndian : bool) : Res Z :=
  match view !! byteOffset, view !! (S byteOffset) with
  | Some b0, Some b1 =>
      let lo := if littleEndian then b0 else b1 in
      let hi := if littleEndian then b1 else b0 in
      Ok (toInt16 (Z.lor (Z.shiftl (byteValue hi) 8) (byteValue lo)))
  | _, _ => Throw RangeError
  end.

(** The [%] operator on numbers: the remainder has the sign of the dividend,
    [n - d * trunc (n / d)].  For [d = 0] JavaScript yields NaN, which the
    rationals lack (the formula below then gives [n]); the one use of [%]
    in the repository divides by the duration of a buffer, which has at
    least one frame. *)
Definition truncate (q : Q) : Z := Z.quot (Qnum q) (Zpos (Qden q)).

Definition remainder (n d : Q) : Q := n - d * inject_Z (truncate (n / d)).

End Dom.

(** ** Audio buffers *)

Module WebAudio.

(** A one-channel [AudioBuffer]: [length] is the number of frames of
    channel 0 and [duration = length / sampleRate]. *)
Record AudioBuffer : Type := mkAudioBuffer {
  sampleRate : Q;
  channelData : list Q
}.

Definition duration (b : AudioBuffer) : Q :=
  inject_Z (Z.of_nat (length (channelData b))) / sampleRate b.

(** [BaseAudioContext.createBuffer(numberOfChannels, length, sampleRate)].
    The Web Audio API requires a NotSupportedError when an argument is
    zero, negative or outside its nominal range: a buffer has at least one
    channel and at least one frame.  The new buffer is silent.  The only
    sample rate the repository passes is 24000, inside the range every
    implementation supports, so the rate is not checked here. *)
Definition createBuffer (numberOfChannels len : nat) (rate : Q)
  : Res AudioBuffer :=
  match numberOfChannels, len with
  | O, _ | _, O => Throw NotSupportedError
  | _, _ => Ok {| sampleRate := rate; channelData := replicate len 0 |}
  end.

(** The state of an [AudioContext]; the repository never closes one. *)
Inductive ContextState : Type :=
| Suspended
| Running.

(** The life of an [AudioBufferSourceNode]:
    - [Unstarted]: created, [start] not yet called;
    - [Playing]: started and rendering its buffer;
    - [Finished]: rendering is over, because [stop] was called or a
      non-looping buffer ran out; the [ended] event is queued;
    - [Ended]: the [ended] event has been dispatched. *)
Inductive NodeStatus : Type :=
| Unstarted
| Playing
| Finished
| Ended.

(** A function handed to the player by its caller.  The model does not
    look inside it: it has an identity, and each invocation is recorded. *)
Definition Callback : Type := nat.

(** An [AudioBufferSourceNode].  [node_onended] is the handler installed
    by [PCMPlayer.play]: [Some cb] is the arrow function that closes over
    the [onEnded] argument [cb] of that call. *)
Record SourceNode : Type := mkSourceNode {
  node_buffer : option AudioBuffer;
  node_playbackRate : Q;
  node_loop : bool;
  node_onended : option (option Callback);
  node_offset : option Q;
  node_status : NodeStatus
}.

(** [createBufferSource()] returns a node with these attributes. *)
Definition freshNode : SourceNode :=
  {| node_buffer := None; node_playbackRate := 1; node_loop := false;
     node_onended := None; node_offset := None; node_status := Unstarted |}.

Definition withBuffer (b : option AudioBuffer) (n : SourceNode) : SourceNode :=
  {| node_buffer := b; node_playbackRate := node_playbackRate n;
     node_loop := node_loop n; node_onended := node_onended n;
     node_offset := node_offset n; node_status := node_status n |}.

Definition withPlaybackRate (r : Q) (n : SourceNode) : SourceNode :=
  {| node_buffer := node_buffer n; node_playbackRate := r;
     node_loop := node_loop n; node_onended := node_onended n;
     node_offset := node_offset n; node_status := node_status n |}.

Definition withLoop (l : bool) (n : SourceNode) : SourceNode :=
  {| node_buffer := node_buffer n; node_playbackRate := node_playbackRate n;
     node_loop := l; node_onended := node_onended n;
     node_offset := node_offset n; node_status := node_status n |}.

Definition withOnended (h : option (option Callback)) (n : SourceNode)
  : SourceNode :=
  {| node_buffer := node_buffer n; node_playbackRate := node_playbackRate n;
     node_loop := node_loop n; node_onended := h;
     node_offset := node_offset n; node_status := node_status n |}.

Definition withStatus (s : NodeStatus) (n : SourceNode) : SourceNode :=
  {| node_buffer := node_buffer n; node_playbackRate := node_playbackRate n;
     node_loop := node_loop n; node_onended := node_onended n;
     node_offset := node_offset n; node_status := s |}.

(** [AudioBufferSourceNode.start(when, offset)].  The Web Audio API
    requires an InvalidStateError when the node was started before, and a
    RangeError when [offset] is negative.  [when] is always 0 in the
    repository. *)
Definition startNode (offset : Q) (n : SourceNode) : Res SourceNode :=
  match node_status n with
  | Unstarted =>
      if Qle_bool 0 offset
      then Ok {| node_buffer := node_buffer n;
                 node_playbackRate := node_playbackRate n;
                 node_loop := node_loop n; node_onended := node_onended n;
                 node_offset := Some offset; node_status := Playing |}
      else Throw RangeError
  | _ => Throw InvalidStateError
  end.


(** [AudioScheduledSourceNode.stop()].  The Web Audio API requires an
    InvalidStateError when the node was never started.  Stopping a playing
    node ends its rendering and queues its [ended] event: the event tells
    that the node has stopped playing, whether its buffer ran out or [stop]
    was called.  On a node that is already over the call has no effect. *)
Definition stopNode (n : SourceNode) : Res SourceNode :=
  match node_status n with
  | Unstarted => Throw InvalidStateError
  | Playing => Ok (withStatus Finished n)
  | Finished | Ended => Ok n
  end.

(** Observable calls out of the player: the invocations of the two
    callbacks, with their arguments. *)
Inductive Observation : Type :=
| ProgressCalled (cb : Callback) (current total : Q)
| EndedCalled (cb : Callback).

End WebAudio.

(** ** The PCM decoder *)

Module Pcm.
Import Dom WebAudio.

(** The body of the [for] loop of [rawPcmToAudioBuffer], run [fuel]
    times from index [i]; [fuel] is [numSamples - i], the number of
    iterations the loop has left. *)
Fixpoint fillChannel (view : Uint8Array) (fuel i : nat)
         (channel : list Q) : Res (list Q) :=
  match fuel with
  | O => Ok channel
  | S fuel' =>
      match getInt16 view (i * 2) true with
      | Ok v => fillChannel view fuel' (S i)
                  (<[i := inject_Z v / 32768]> channel)
      | Throw e => Throw e
      end
  end.

Definition rawPcmToAudioBuffer (pcmData : Uint8Array) (rate : Q)
  : Res AudioBuffer :=
  let usableLength := (length pcmData - length pcmData mod 2)%nat in
  let view := DataView pcmData usableLength in
  let numSamples := (usableLength / 2)%nat in
  match createBuffer 1 numSamples rate with
  | Throw e => Throw e
  | Ok audioBuffer =>
      match fillChannel view numSamples 0 (channelData audioBuffer) with
      | Throw e => Throw e
      | Ok channel =>
          Ok {| sampleRate := sampleRate audioBuffer;
                channelData := channel |}
      end
  end.

(** The default of the [sampleRate] parameter; no caller passes another
    value. *)
Definition defaultSampleRate : Q := 24000.

(** What the specification calls [int16LE(bytes[2i..2i+2])]. *)
Definition int16LE (b0 b1 : Byte.byte) : Z :=
  toInt16 (byteValue b0 + 256 * byteValue b1)%Z.

(** The sample that belongs at index [i]: the signed 16-bit little-endian
    integer of bytes [2i] and [2i+1], over 32768; [None] where the bytes do
    not both exist. *)
Definition sampleAt (bytes : Uint8Array) (i : nat) : option Q :=
  match bytes !! (i * 2)%nat, bytes !! S (i * 2) with
  | Some b0, Some b1 => Some (inject_Z (int16LE b0 b1) / 32768)
  | _, _ => None
  end.

End Pcm.

(** ** The player and the browser it runs in *)

Module Player.
Import Dom WebAudio Pcm.

(** The private fields of [class PCMPlayer], under their own names.
    [source] and [animationFrameId] hold handles: the index of a node in
    the browser's list of source nodes, and a [requestAnimationFrame]
    handle. *)
Record PCMPlayer : Type := mkPCMPlayer {
  buffer : option AudioBuffer;
  source : option nat;
  isPlaying : bool;
  playbackRate : Q;
  pauseOffset : Q;
  startTime : Q;
  onProgressCb : option Callback;
  onEndedCb : option Callback;
  loop : bool;
  animationFrameId : option nat
}.

(** The arguments of a [play] call. *)
Record PlayArgs : Type := mkPlayArgs {
  arg_onProgress : option Callback;
  arg_onEnded : option Callback;
  arg_loop : bool
}.

(** The part of the browser the player talks to: the shared
    [AudioContext] with its clock, the source nodes created so far, the
    animation frame requests, the [play] calls waiting at
    [await audioContext.resume()], and the record of callback
    invocations (oldest first). *)
Record Browser : Type := mkBrowser {
  ctxState : ContextState;
  currentTime : Q;
  nodes : list SourceNode;
  lastFrameHandle : nat;
  frameRequests : list nat;
  awaitingResume : list PlayArgs;
  observed : list Observation
}.

Record World : Type := mkWorld {
  player : PCMPlayer;
  browser : Browser
}.

(** *** Field updates *)

Definition setBuffer (v : option AudioBuffer) (p : PCMPlayer) : PCMPlayer :=
  {| buffer := v; source := source p; isPlaying := isPlaying p;
     playbackRate := playbackRate p; pauseOffset := pauseOffset p;
     startTime := startTime p; onProgressCb := onProgressCb p;
     onEndedCb := onEndedCb p; loop := loop p;
     animationFrameId := animationFrameId p |}.

Definition setSource (v : option nat) (p : PCMPlayer) : PCMPlayer :=
  {| buffer := buffer p; source := v; isPlaying := isPlaying p;
     playbackRate := playbackRate p; pauseOffset := pauseOffset p;
     startTime := startTime p; onProgressCb := onProgressCb p;
     onEndedCb := onEndedCb p; loop := loop p;
     animationFrameId := animationFrameId p |}.

Definition setIsPlaying (v : bool) (p : PCMPlayer) : PCMPlayer :=
  {| buffer := buffer p; source := source p; isPlaying := v;
     playbackRate := playbackRate p; pauseOffset := pauseOffset p;
     startTime := startTime p; onProgressCb := onProgressCb p;
     onEndedCb := onEndedCb p; loop := loop p;
     animationFrameId := animationFrameId p |}.

Definition setPlaybackRate (v : Q) (p : PCMPlayer) : PCMPlayer :=
  {| buffer := buffer p; source := source p; isPlaying := isPlaying p;
     playbackRate := v; pauseOffset := pauseOffset p;
     startTime := startTime p; onProgressCb := onProgressCb p;
     onEndedCb := onEndedCb p; loop := loop p;
     animationFrameId := animationFrameId p |}.

Definition setPauseOffset (v : Q) (p : PCMPlayer) : PCMPlayer :=
  {| buffer := buffer p; source := source p; isPlaying := isPlaying p;
     playbackRate := playbackRate p; pauseOffset := v;
     startTime := startTime p; onProgressCb := onProgressCb p;
     onEndedCb := onEndedCb p; loop := loop p;
     animationFrameId := animationFrameId p |}.

Definition setStartTime (v : Q) (p : PCMPlayer) : PCMPlayer :=
  {| buffer := buffer p; source := source p; isPlaying := isPlaying p;
     playbackRate := playbackRate p; pauseOffset := pauseOffset p;
     startTime := v; onProgressCb := onProgressCb p;
     onEndedCb := onEndedCb p; loop := loop p;
     animationFrameId := animationFrameId p |}.

Definition setOnProgressCb (v : option Callback) (p : PCMPlayer) : PCMPlayer :=
  {| buffer := buffer p; source := source p; isPlaying := isPlaying p;
     playbackRate := playbackRate p; pauseOffset := pauseOffset p;
     startTime := startTime p; onProgressCb := v;
     onEndedCb := onEndedCb p; loop := loop p;
     animationFrameId := animationFrameId p |}.

Definition setOnEndedCb (v : option Callback) (p : PCMPlayer) : PCMPlayer :=
  {| buffer := buffer p; source := source p; isPlaying := isPlaying p;
     playbackRate := playbackRate p; pauseOffset := pauseOffset p;
     startTime := startTime p; onProgressCb := onProgressCb p;
     onEndedCb := v; loop := loop p;
     animationFrameId := animationFrameId p |}.

Definition setLoop (v : bool) (p : PCMPlayer) : PCMPlayer :=
  {| buffer := buffer p; source := source p; isPlaying := isPlaying p;
     playbackRate := playbackRate p; pauseOffset := pauseOffset p;
     startTime := startTime p; onProgressCb := onProgressCb p;
     onEndedCb := onEndedCb p; loop := v;
     animationFrameId := animationFrameId p |}.

Definition setAnimationFrameId (v : option nat) (p : PCMPlayer) : PCMPlayer :=
  {| buffer := buffer p; source := source p; isPlaying := isPlaying p;
     playbackRate := playbackRate p; pauseOffset := pauseOffset p;
     startTime := startTime p; onProgressCb := onProgressCb p;
     onEndedCb := onEndedCb p; loop := loop p;
     animationFrameId := v |}.

Definition setCtxState (v : ContextState) (b : Browser) : Browser :=
  {| ctxState := v; currentTime := currentTime b; nodes := nodes b;
     lastFrameHandle := lastFrameHandle b; frameRequests := frameRequests b;
     awaitingResume := awaitingResume b; observed := observed b |}.

Definition setCurrentTime (v : Q) (b : Browser) : Browser :=
  {| ctxState := ctxState b; currentTime := v; nodes := nodes b;
     lastFrameHandle := lastFrameHandle b; frameRequests := frameRequests b;
     awaitingResume := awaitingResume b; observed := observed b |}.

Definition setNodes (v : list SourceNode) (b : Browser) : Browser :=
  {| ctxState := ctxState b; currentTime := currentTime b; nodes := v;
     lastFrameHandle := lastFrameHandle b; frameRequests := frameRequests b;
     awaitingResume := awaitingResume b; observed := observed b |}.

Definition setFrames (h : nat) (v : list nat) (b : Browser) : Browser :=
  {| ctxState := ctxState b; currentTime := currentTime b; nodes := nodes b;
     lastFrameHandle := h; frameRequests := v;
     awaitingResume := awaitingResume b; observed := observed b |}.

Definition setAwaitingResume (v : list PlayArgs) (b : Browser) : Browser :=
  {| ctxState := ctxState b; currentTime := currentTime b; nodes := nodes b;
     lastFrameHandle := lastFrameHandle b; frameRequests := frameRequests b;
     awaitingResume := v; observed := observed b |}.

Definition setObserved (v : list Observation) (b : Browser) : Browser :=
  {| ctxState := ctxState b; currentTime := currentTime b; nodes := nodes b;
     lastFrameHandle := lastFrameHandle b; frameRequests := frameRequests b;
     awaitingResume := awaitingResume b; observed := v |}.

(** *** Effects: state with exceptions

    A computation takes the world and returns the world it leaves behind
    together with a value or a thrown exception.  [bind] stops at the first
    exception and keeps the state reached so far, as a [throw] does. *)

Definition Eff (A : Type) : Type := World -> World * Res A.

Definition ret {A : Type} (a : A) : Eff A := fun w => (w, Ok a).

Definition bind {A B : Type} (m : Eff A) (k : A -> Eff B) : Eff B :=
  fun w =>
    match m w with
    | (w', Ok a) => k a w'
    | (w', Throw e) => (w', Throw e)
    end.

Notation "x <- m ;; k" := (bind m (fun x => k))
  (at level 100, m at next level, right associativity).
Notation "m ;; k" := (bind m (fun _ => k))
  (at level 100, right associativity).

Definition throw {A : Type} (e : DOMException) : Eff A :=
  fun w => (w, Throw e).

Definition this {A : Type} (field : PCMPlayer -> A) : Eff A :=
  fun w => (w, Ok (field (player w))).

Definition assign (update : PCMPlayer -> PCMPlayer) : Eff unit :=
  fun w => ({| player := update (player w); browser := browser w |}, Ok tt).

Definition ask {A : Type} (field : Browser -> A) : Eff A :=
  fun w => (w, Ok (field (browser w))).

Definition tell (update : Browser -> Browser) : Eff unit :=
  fun w => ({| player := player w; browser := update (browser w) |}, Ok tt).

Definition liftRes {A : Type} (r : Res A) : Eff A := fun w => (w, r).

(** A call whose promise nobody awaits: a rejection is not propagated to
    the caller. *)
Definition detached (m : Eff unit) : Eff unit :=
  fun w => (fst (m w), Ok tt).

Definition exec {A : Type} (m : Eff A) (w : World) : World := fst (m w).
Definition result {A : Type} (m : Eff A) (w : World) : Res A := snd (m w).

(** *** What the player asks of the browser *)

(** [audioContext.createBufferSource()]: a new node, named by its index. *)
Definition createBufferSource : Eff nat :=
  ns <- ask nodes ;;
  tell (setNodes (ns ++ [freshNode])) ;;
  ret (length ns).

(** Writing an attribute of the node [id]. *)
Definition updateNode (id : nat) (f : SourceNode -> SourceNode) : Eff unit :=
  ns <- ask nodes ;;
  tell (setNodes (alter f id ns)).

(** Calling a method of the node [id] that may throw. *)
Definition callNode (id : nat) (method : SourceNode -> Res SourceNode)
  : Eff unit :=
  ns <- ask nodes ;;
  match ns !! id with
  | Some n => n' <- liftRes (method n) ;; tell (setNodes (<[id := n']> ns))
  | None => ret tt
  end.

(** [requestAnimationFrame(update)]: handles are positive and increase. *)
Definition requestAnimationFrame : Eff nat :=
  h <- ask lastFrameHandle ;;
  fs <- ask frameRequests ;;
  tell (setFrames (S h) (fs ++ [S h])) ;;
  ret (S h).

Definition cancelAnimationFrame (handle : nat) : Eff unit :=
  h <- ask lastFrameHandle ;;
  fs <- ask frameRequests ;;
  tell (setFrames h (filter (fun x => x <> handle) fs)).

(** Invoking a callback of the caller. *)
Definition invoke (o : Observation) : Eff unit :=
  obs <- ask observed ;;
  tell (setObserved (obs ++ [o])).

(** *** The methods of [PCMPlayer] *)

Definition load (rawPcm : Uint8Array) : Eff unit :=
  b <- liftRes (rawPcmToAudioBuffer rawPcm defaultSampleRate) ;;
  assign (setBuffer (Some b)) ;;
  assign (setPauseOffset 0).

Definition setRate (rate : Q) : Eff unit :=
  assign (setPlaybackRate rate) ;;
  s <- this source ;;
  match s with
  | Some id => updateNode id (withPlaybackRate rate)
  | None => ret tt
  end.

Definition getDuration (w : World) : Q :=
  match buffer (player w) with
  | Some b => if Qeq_bool (duration b) 0 then 0 else duration b
  | None => 0
  end.

Definition getCurrentTime (w : World) : Q :=
  if negb (isPlaying (player w)) then pauseOffset (player w)
  else
    let time := pauseOffset (player w)
                + (currentTime (browser w) - startTime (player w))
                  * playbackRate (player w) in
    match loop (player w), buffer (player w) with
    | true, Some b => remainder time (duration b)
    | _, _ => time
    end.

(** The closure [update] of [startProgressTimer]. *)
Definition update : Eff unit :=
  playing <- this isPlaying ;;
  cb <- this onProgressCb ;;
  b <- this buffer ;;
  match playing, cb, b with
  | true, Some onProgress, Some buf =>
      now <- (fun w => (w, Ok (getCurrentTime w))) ;;
      invoke (ProgressCalled onProgress now (duration buf)) ;;
      h <- requestAnimationFrame ;;
      assign (setAnimationFrameId (Some h))
  | _, _, _ => ret tt
  end.

Definition startProgressTimer : Eff unit :=
  h <- requestAnimationFrame ;;
  assign (setAnimationFrameId (Some h)).

(** [if (this.animationFrameId) cancelAnimationFrame(this.animationFrameId)]:
    [null] and [0] are falsy. *)
Definition cancelFrameIfAny : Eff unit :=
  fid <- this animationFrameId ;;
  match fid with
  | Some (S h) => cancelAnimationFrame (S h)
  | _ => ret tt
  end.

(** [this.source?.stop()] *)
Definition stopSourceIfAny : Eff unit :=
  s <- this source ;;
  match s with
  | Some id => callNode id stopNode
  | None => ret tt
  end.

(** The arrow function assigned to [source.onended] in [play]; [onEnded]
    is the argument it closes over, [this.loop] is read when it runs. *)
Definition onendedHandler (onEnded : option Callback) : Eff unit :=
  l <- this loop ;;
  if l then ret tt
  else
    assign (setIsPlaying false) ;;
    cancelFrameIfAny ;;
    match onEnded with
    | Some cb => invoke (EndedCalled cb)
    | None => ret tt
    end.

(** The node [play] leaves behind once [start] has succeeded. *)
Definition startedNode (b : AudioBuffer) (rate : Q) (lp : bool)
           (onEnded : option Callback) (offset : Q) : SourceNode :=
  {| node_buffer := Some b; node_playbackRate := rate; node_loop := lp;
     node_onended := Some onEnded; node_offset := Some offset;
     node_status := Playing |}.

(** [play] from its second statement on: what runs once the context is
    known not to be suspended. *)
Definition playBody (onProgress onEnded : option Callback) (lp : bool)
  : Eff unit :=
  b <- this buffer ;;
  playing <- this isPlaying ;;
  match b, playing with
  | Some buf, false =>
      assign (setOnProgressCb onProgress) ;;
      assign (setOnEndedCb onEnded) ;;
      assign (setLoop lp) ;;
      id <- createBufferSource ;;
      assign (setSource (Some id)) ;;
      updateNode id (withBuffer (Some buf)) ;;
      rate <- this playbackRate ;;
      updateNode id (withPlaybackRate rate) ;;
      l <- this loop ;;
      updateNode id (withLoop l) ;;
      updateNode id (withOnended (Some onEnded)) ;;
      offset <- this pauseOffset ;;
      callNode id (startNode offset) ;;
      now <- ask currentTime ;;
      assign (setStartTime now) ;;
      assign (setIsPlaying true) ;;
      startProgressTimer
  | _, _ => ret tt
  end.

(** [async play(onProgress, onEnded, loop)].  With a running context the
    whole body runs within the call.  With a suspended one the call stops
    at [await this.audioContext.resume()]: the rest is parked and runs when
    the context resumes (see [ContextResumes]).  [Throw] stands for the
    rejection of the returned promise. *)
Definition play (onProgress onEnded : option Callback) (lp : bool)
  : Eff unit :=
  st <- ask ctxState ;;
  match st with
  | Running => playBody onProgress onEnded lp
  | Suspended =>
      parked <- ask awaitingResume ;;
      tell (setAwaitingResume
              (parked ++ [{| arg_onProgress := onProgress;
                             arg_onEnded := onEnded; arg_loop := lp |}]))
  end.

Definition pause : Eff unit :=
  playing <- this isPlaying ;;
  if negb playing then ret tt
  else
    offset <- this pauseOffset ;;
    now <- ask currentTime ;;
    started <- this startTime ;;
    rate <- this playbackRate ;;
    assign (setPauseOffset (offset + (now - started) * rate)) ;;
    stopSourceIfAny ;;
    assign (setSource None) ;;
    assign (setIsPlaying false) ;;
    cancelFrameIfAny.

Definition stop : Eff unit :=
  stopSourceIfAny ;;
  assign (setSource None) ;;
  assign (setIsPlaying false) ;;
  assign (setPauseOffset 0) ;;
  cancelFrameIfAny.

Definition seek (seconds : Q) : Eff unit :=
  wasPlaying <- this isPlaying ;;
  stop ;;
  assign (setPauseOffset seconds) ;;
  if wasPlaying
  then
    onProgress <- this onProgressCb ;;
    onEnded <- this onEndedCb ;;
    l <- this loop ;;
    detached (play onProgress onEnded l)
  else ret tt.

(** *** The event loop

    The player is driven by calls of its owner and by the browser: the
    audio clock advances, a suspended context resumes, a non-looping source
    runs out of samples, a queued [ended] event is dispatched, an animation
    frame fires.  When the browser does what is left open (its timing is
    not modelled), so every behaviour of the real player is a run of this
    system. *)

Inductive Event : Type :=
| CallLoad (rawPcm : Uint8Array)
| CallSetRate (rate : Q)
| CallPlay (onProgress onEnded : option Callback) (lp : bool)
| CallPause
| CallStop
| CallSeek (seconds : Q)
| ClockAdvances (dt : Q)
| ContextResumes
| SourceRunsOut (id : nat)
| EndedDispatched (id : nat)
| FrameFires (handle : nat).

Definition nodeStatusIs (s : NodeStatus) (n : SourceNode) : bool :=
  match s, node_status n with
  | Unstarted, Unstarted | Playing, Playing
  | Finished, Finished | Ended, Ended => true
  | _, _ => false
  end.

(** When the browser may take a step.  Calls are always possible. *)
Definition enabled (e : Event) (w : World) : bool :=
  match e with
  | ClockAdvances dt => Qle_bool 0 dt
  | ContextResumes =>
      match ctxState (browser w) with Suspended => true | Running => false end
  | SourceRunsOut id =>
      match nodes (browser w) !! id with
      | Some n => nodeStatusIs Playing n && negb (node_loop n)
      | None => false
      end
  | EndedDispatched id =>
      match nodes (browser w) !! id with
      | Some n => nodeStatusIs Finished n
      | None => false
      end
  | FrameFires handle =>
      bool_decide (handle ∈ frameRequests (browser w))
  | _ => true
  end.

(** The continuations of the parked [play] calls, in the order of the
    calls; a rejection concerns only the promise of that call. *)
Fixpoint resumeAll (parked : list PlayArgs) : Eff unit :=
  match parked with
  | [] => ret tt
  | a :: rest =>
      detached (playBody (arg_onProgress a) (arg_onEnded a) (arg_loop a)) ;;
      resumeAll rest
  end.

Definition react (e : Event) : Eff unit :=
  match e with
  | CallLoad rawPcm => load rawPcm
  | CallSetRate rate => setRate rate
  | CallPlay onProgress onEnded lp => play onProgress onEnded lp
  | CallPause => pause
  | CallStop => stop
  | CallSeek seconds => seek seconds
  | ClockAdvances dt =>
      now <- ask currentTime ;;
      tell (setCurrentTime (now + dt))
  | ContextResumes =>
      parked <- ask awaitingResume ;;
      tell (setCtxState Running) ;;
      tell (setAwaitingResume []) ;;
      resumeAll parked
  | SourceRunsOut id => updateNode id (withStatus Finished)
  | EndedDispatched id =>
      ns <- ask nodes ;;
      updateNode id (withStatus Ended) ;;
      match ns !! id with
      | Some n =>
          match node_onended n with
          | Some onEnded => onendedHandler onEnded
          | None => ret tt
          end
      | None => ret tt
      end
  | FrameFires handle =>
      h <- ask lastFrameHandle ;;
      fs <- ask frameRequests ;;
      tell (setFrames h (filter (fun x => x <> handle) fs)) ;;
      update
  end.

(** One step: the state an event leaves behind, whether or not the call
    threw. *)
Definition step (e : Event) (w : World) : World := exec (react e) w.

Fixpoint run (es : list Event) (w : World) : option World :=
  match es with
  | [] => Some w
  | e :: rest => if enabled e w then run rest (step e w) else None
  end.

(** A player as its constructor leaves it, in a context that is in state
    [st] and whose clock reads [t0]. *)
Definition newPlayer : PCMPlayer :=
  {| buffer := None; source := None; isPlaying := false;
     playbackRate := 1; pauseOffset := 0; startTime := 0;
     onProgressCb := None; onEndedCb := None; loop := false;
     animationFrameId := None |}.

Definition initial (st : ContextState) (t0 : Q) : World :=
  {| player := newPlayer;
     browser := {| ctxState := st; currentTime := t0; nodes := [];
                   lastFrameHandle := 0; frameRequests := [];
                   awaitingResume := []; observed := [] |} |}.

Inductive reachable : World -> Prop :=
| reach_initial (st : ContextState) (t0 : Q) :
    0 <= t0 -> reachable (initial st t0)
| reach_step (e : Event) (w : World) :
    reachable w -> enabled e w = true -> reachable (step e w).

Definition isCall (e : Event) : bool :=
  match e with
  | CallLoad _ | CallSetRate _ | CallPlay _ _ _
  | CallPause | CallStop | CallSeek _ => true
  | _ => false
  end.

(** What every reachable state satisfies (see [reachable_consistent]). *)
Record consistent (w : World) : Prop := mkConsistent {
  playing_running :
    isPlaying (player w) = true -> ctxState (browser w) = Running;
  playing_source :
    isPlaying (player w) = true ->
    exists id n, source (player w) = Some id
                 /\ nodes (browser w) !! id = Some n
                 /\ node_status n <> Unstarted;
  playing_loaded :
    isPlaying (player w) = true -> buffer (player w) <> None;
  playing_offset :
    isPlaying (player w) = true -> 0 <= pauseOffset (player w);
  playing_clock :
    isPlaying (player w) = true ->
    startTime (player w) <= currentTime (browser w);
  buffer_sound :
    forall b, buffer (player w) = Some b ->
              sampleRate b = defaultSampleRate /\ channelData b <> [];
  source_known :
    forall id, source (player w) = Some id ->
               (id < length (nodes (browser w)))%nat;
  running_none_parked :
    ctxState (browser w) = Running -> awaitingResume (browser w) = []
}.

(** Before any [load]: no buffer, hence nothing was ever started. *)
Record unloaded (w : World) : Prop := mkUnloaded {
  unloaded_buffer : buffer (player w) = None;
  unloaded_playing : isPlaying (player w) = false;
  unloaded_source : source (player w) = None;
  unloaded_frame : animationFrameId (player w) = None
}.

(** The node the player holds, if any, has been started: [stop] can be
    called on it. *)
Definition sourceStarted (w : World) : Prop :=
  forall id n, source (player w) = Some id ->
               nodes (browser w) !! id = Some n ->
               node_status n <> Unstarted.

(** The source nodes that are sounding. *)
Definition sounding (w : World) (id : nat) : bool :=
  match nodes (browser w) !! id with
  | Some n => nodeStatusIs Playing n
  | None => false
  end.

Definition playingNodes (w : World) : list nat :=
  List.filter (sounding w) (seq 0 (length (nodes (browser w)))).

End Player.

(** ** Double-precision arithmetic

    Where the result of a computation decides a comparison, the rounding
    of the platform's numbers matters.  A finite double is modelled by
    the rational it denotes, and an operation by the exact operation
    followed by [nearest]: rounding to the nearest binary64 value, a tie
    going to the even significand.  Overflow to an infinity is not
    modelled; the computations below stay far from it. *)

Module Double.

Definition pow2 (k : Z) : Q := Qpower 2 k.

(** The floor of the binary logarithm of a positive number. *)
Definition ilog2 (x : Q) : Z :=
  let k := (Z.log2 (Qnum x) - Z.log2 (Zpos (Qden x)))%Z in
  if Qle_bool (pow2 k) x then k else (k - 1)%Z.

(** The nearest integer, a tie going to the even one. *)
Definition nearestEven (x : Q) : Z :=
  let f := Qfloor x in
  match Qcompare (x - inject_Z f) (1 # 2) with
  | Lt => f
  | Gt => (f + 1)%Z
  | Eq => if Z.even f then f else (f + 1)%Z
  end.

(** The exponent of the binade of [x]; subnormal numbers share the
    exponent -1022. *)
Definition exponent (x : Q) : Z := Z.max (ilog2 (Qabs x)) (-1022).

(** The double nearest to [x]: a multiple of [2^(e - 52)], the spacing of
    the doubles in the binade of [x]. *)
Definition nearest (x : Q) : Q :=
  if Qeq_bool x 0 then 0
  else
    let e := exponent x in
    inject_Z (nearestEven (x * pow2 (52 - e))) * pow2 (e - 52).

Definition add (x y : Q) : Q := nearest (x + y).
Definition mul (x y : Q) : Q := nearest (x * y).
Definition div (x y : Q) : Q := nearest (x / y).

(** The smallest positive double. *)
Definition minPositive : Q := pow2 (-1074).

(** The values of the finite doubles: a significand of at most 53 bits
    times a power of two that is at least [2^-1074]. *)
Definition representable (d : Q) : Prop :=
  exists m k : Z,
    (Z.abs m <= 2 ^ 53)%Z /\ (-1074 <= k)%Z /\ d == inject_Z m * pow2 k.

End Double.

(** ** The active line (components/DialogueCard.tsx) *)

Module DialogueCard.

(** [enum AppState] of types.ts. *)
Inductive AppState : Type :=
| IDLE
| RECORDING
| ANALYZING
| PLAYING_AUDIO.

Definition isPlayingAudio (s : AppState) : bool :=
  match s with PLAYING_AUDIO => true | _ => false end.

(** [interface DialogueLine]; the characters of a [string] stand for the
    UTF-16 code units that [text.length] counts. *)
Record DialogueLine : Type := mkDialogueLine {
  speaker : string;
  text : string
}.

(** [l.text.length]: the length of a string is an integer below [2^53],
    which a number holds exactly. *)
Definition textLength (l : DialogueLine) : Q :=
  inject_Z (Z.of_nat (String.length (text l))).

(** [acc + l.text.length + 5]: two additions of doubles, from the left.
    The reducer [(sum, l) => sum + l.text.length + 5] is the same
    expression. *)
Definition advance (acc : Q) (l : DialogueLine) : Q :=
  Double.add (Double.add acc (textLength l)) 5.

(** [dialogue.lines.reduce((sum, l) => sum + l.text.length + 5, 0)] *)
Definition totalChars (lines : list DialogueLine) : Q :=
  fold_left advance lines 0.

(** [dialogue.lines.findIndex(l => ...)] with the accumulator [acc] the
    predicate updates at every line it visits; [i] is the index of the head
    of [lines].  [-1] when no line matches. *)
Fixpoint findIndexFrom (currentPos acc : Q) (i : Z)
         (lines : list DialogueLine) : Z :=
  match lines with
  | [] => (-1)%Z
  | l :: rest =>
      let start := acc in
      let end_ := advance acc l in
      if Qle_bool start currentPos && Qle_bool currentPos end_
      then i
      else findIndexFrom currentPos end_ (i + 1)%Z rest
  end.

(** The literal [99.9] denotes the double nearest to 999/10. *)
Definition ninetyNinePointNine : Q := Double.nearest (999 # 10).

(** [(audioProgress / 100) * totalChars]: a division and a
    multiplication of doubles. *)
Definition currentPos (audioProgress : Q) (lines : list DialogueLine) : Q :=
  Double.mul (Double.div audioProgress 100) (totalChars lines).

(** The memo [activeLineIndex].  [audioProgress] is the value of a finite
    double: the state is only ever set to 0 or to [(c / d) * 100] for a
    position [c] and a duration [d > 0]. *)
Definition activeLineIndex (appState : AppState) (isPlaying : bool)
           (audioProgress : Q) (lines : list DialogueLine) : Z :=
  if (negb (isPlayingAudio appState) && negb isPlaying
      && Qeq_bool audioProgress 0)
     || Qle_bool ninetyNinePointNine audioProgress
  then (-1)%Z
  else findIndexFrom (currentPos audioProgress lines) 0 0 lines.

(** The value of [acc] when [findIndex] reaches line [i]: where the span
    of that line starts. *)
Definition startOf (lines : list DialogueLine) (i : nat) : Q :=
  totalChars (take i lines).

(** What the specification calls the total length: the sum of each
    line's text length plus 5, as an integer. *)
Definition span (l : DialogueLine) : Z :=
  (Z.of_nat (String.length (text l)) + 5)%Z.

Definition totalLength (lines : list DialogueLine) : Z :=
  fold_left (fun sum l => (sum + span l)%Z) lines 0%Z.

End DialogueCard.

(** ** The dictation diff (components/DialogueCard.tsx) *)

Module Dictation.

(** [DiffToken.status] *)
Inductive Status : Type :=
| correct
| incorrect
| missing
| extra.

(** [interface DiffToken]; [expected] is optional. *)
Record DiffToken : Type := mkDiffToken {
  token_text : string;
  status : Status;
  expected : option string
}.

(** The local variables of the [while] loop of [getDictationDiff]. *)
Record LoopState : Type := mkLoopState {
  tokens : list DiffToken;
  masterIdx : nat;
  userIdx : nat;
  correctCount : nat
}.

(** [words[i]] as the conditions of the loop see it: [undefined] and the
    empty string are both falsy. *)
Definition wordAt (ws : list string) (i : nat) : option string :=
  match ws !! i with
  | Some w => if String.eqb w "" then None else Some w
  | None => None
  end.

Section Diff.

(** The string functions of the host are parameters: [normalize] stands
    for the arrow function of that name (lower case, then the characters
    . , ! ? ; : ( ) and the double quote removed, then [trim]) and
    [splitWhitespace] for [s => s.split(/\s+/)]. *)
Variable normalize : string -> string.
Variable splitWhitespace : string -> list string.

(** [normalize(a) === normalize(b)] *)
Definition sameWord (a b : string) : bool :=
  String.eqb (normalize a) (normalize b).

(** [.filter(Boolean)] on an array of strings. *)
Definition nonEmptyWords (ws : list string) : list string :=
  List.filter (fun w => negb (String.eqb w "")) ws.

Definition push (t : DiffToken) (s : LoopState) : list DiffToken :=
  tokens s ++ [t].

(** One run of the loop body. *)
Definition body (masterWords userWords : list string) (s : LoopState)
  : LoopState :=
  let masterWord := wordAt masterWords (masterIdx s) in
  let userWord := wordAt userWords (userIdx s) in
  match masterWord, userWord with
  | Some m, Some u =>
      if sameWord m u
      then {| tokens := push {| token_text := u; status := correct;
                                expected := None |} s;
              masterIdx := S (masterIdx s); userIdx := S (userIdx s);
              correctCount := S (correctCount s) |}
      else
        let nextUserWord := wordAt userWords (userIdx s + 1) in
        let nextMasterWord := wordAt masterWords (masterIdx s + 1) in
        match nextUserWord with
        | Some nu =>
            if sameWord m nu
            then {| tokens := push {| token_text := u; status := extra;
                                      expected := None |} s;
                    masterIdx := masterIdx s; userIdx := S (userIdx s);
                    correctCount := correctCount s |}
            else
              match nextMasterWord with
              | Some nm =>
                  if sameWord nm u
                  then {| tokens := push {| token_text := "";
                                            status := missing;
                                            expected := Some m |} s;
                          masterIdx := S (masterIdx s);
                          userIdx := userIdx s;
                          correctCount := correctCount s |}
                  else {| tokens := push {| token_text := u;
                                            status := incorrect;
                                            expected := Some m |} s;
                          masterIdx := S (masterIdx s);
                          userIdx := S (userIdx s);
                          correctCount := correctCount s |}
              | None =>
                  {| tokens := push {| token_text := u; status := incorrect;
                                       expected := Some m |} s;
                     masterIdx := S (masterIdx s);
                     userIdx := S (userIdx s);
                     correctCount := correctCount s |}
              end
        | None =>
            match nextMasterWord with
            | Some nm =>
                if sameWord nm u
                then {| tokens := push {| token_text := "";
                                          status := missing;
                                          expected := Some m |} s;
                        masterIdx := S (masterIdx s);
                        userIdx := userIdx s;
                        correctCount := correctCount s |}
                else {| tokens := push {| token_text := u;
                                          status := incorrect;
                                          expected := Some m |} s;
                        masterIdx := S (masterIdx s);
                        userIdx := S (userIdx s);
                        correctCount := correctCount s |}
            | None =>
                {| tokens := push {| token_text := u; status := incorrect;
                                     expected := Some m |} s;
                   masterIdx := S (masterIdx s);
                   userIdx := S (userIdx s);
                   correctCount := correctCount s |}
            end
        end
  | Some m, None =>
      {| tokens := push {| token_text := ""; status := missing;
                           expected := Some m |} s;
         masterIdx := S (masterIdx s); userIdx := userIdx s;
         correctCount := correctCount s |}
  | None, Some u =>
      {| tokens := push {| token_text := u; status := extra;
                           expected := None |} s;
         masterIdx := masterIdx s; userIdx := S (userIdx s);
         correctCount := correctCount s |}
  | None, None => s
  end.

(** [masterIdx < masterWords.length || userIdx < userWords.length] *)
Definition running (masterWords userWords : list string) (s : LoopState)
  : bool :=
  (masterIdx s <? length masterWords)%nat
  || (userIdx s <? length userWords)%nat.

(** The [while] loop, for at most [fuel] iterations. *)
Fixpoint loop (fuel : nat) (masterWords userWords : list string)
         (s : LoopState) : LoopState :=
  match fuel with
  | O => s
  | S fuel' =>
      if running masterWords userWords s
      then loop fuel' masterWords userWords (body masterWords userWords s)
      else s
  end.

Definition start : LoopState :=
  {| tokens := []; masterIdx := 0; userIdx := 0; correctCount := 0 |}.

(** The loop on two arrays of words.  Every iteration moves at least one
    index forward (see [DictationFacts.loop_finishes]), so the sum of the lengths is
    fuel enough. *)
Definition diffWords (masterWords userWords : list string) : LoopState :=
  loop (length masterWords + length userWords) masterWords userWords start.

(** [Math.round]: the integer nearest to the value of the double, a tie
    going up. *)
Definition round (x : Q) : Z := Qfloor (x + (1 # 2)).

(** [Math.round((correctCount / Math.max(1, masterWords.length)) * 100)]:
    the counts are integers a number holds exactly, the division and the
    multiplication are those of doubles. *)
Definition scoreOf (correctCount masterLength : nat) : Z :=
  round (Double.mul
           (Double.div (inject_Z (Z.of_nat correctCount))
                       (inject_Z (Z.of_nat (Nat.max 1 masterLength))))
           100).

Definition getDictationDiff (userText masterText : string)
  : list DiffToken * Z :=
  let masterWords := nonEmptyWords (splitWhitespace masterText) in
  let userWords := nonEmptyWords (splitWhitespace userText) in
  let final := diffWords masterWords userWords in
  (tokens final, scoreOf (correctCount final) (length masterWords)).

End Diff.

(** Which tokens account for a word of the master text, and which for a
    word of the user. *)
Definition usesMaster (t : DiffToken) : bool :=
  match status t with correct | incorrect | missing => true | extra => false end.

Definition usesUser (t : DiffToken) : bool :=
  match status t with correct | incorrect | extra => true | missing => false end.

Definition isCorrect (t : DiffToken) : bool :=
  match status t with correct => true | _ => false end.

Definition count (p : DiffToken -> bool) (ts : list DiffToken) : nat :=
  length (List.filter p ts).

(** The word of the user that a token shows, if it shows one. *)
Definition userPart (t : DiffToken) : option string :=
  if usesUser t then Some (token_text t) else None.

(** What a token says about the word [m] of the master text: a correct
    token shows a word that normalises like [m], an incorrect or missing
    token carries [m] as [expected]. *)
Definition explains (normalize : string -> string) (t : DiffToken)
           (m : string) : Prop :=
  match status t with
  | correct => sameWord normalize m (token_text t) = true
  | incorrect | missing => expected t = Some m
  | extra => False
  end.

Definition incorrectToken (u m : string) : DiffToken :=
  {| token_text := u; status := incorrect; expected := Some m |}.

Definition correctToken (u : string) : DiffToken :=
  {| token_text := u; status := correct; expected := None |}.

Definition missingToken (m : string) : DiffToken :=
  {| token_text := ""; status := missing; expected := Some m |}.

Definition extraToken (u : string) : DiffToken :=
  {| token_text := u; status := extra; expected := None |}.

(** A split on single spaces, to run the diff on sample sentences. *)
Fixpoint splitSpaces (current : string) (s : string) : list string :=
  match s with
  | EmptyString => [current]
  | String c rest =>
      if Ascii.eqb c (Ascii.ascii_of_nat 32)
      then current :: splitSpaces "" rest
      else splitSpaces (String.append current (String c "")) rest
  end.

End Dictation.

(** ** Sample inputs *)

Module Samples.
Import Byte Dom WebAudio Player DialogueCard.

(** Two frames: the lowest sample, [-32768], and the highest, [32767]. *)
Definition fourBytes : Uint8Array := [x00; x80; xff; x7f].

(** Two caller-side functions, by identity. *)
Definition onProgress0 : option Callback := Some 0%nat.
Definition onEnded1 : option Callback := Some 1%nat.

Definition hello : DialogueLine := {| speaker := "A"; text := "Hello" |}.
Definition goodbye : DialogueLine := {| speaker := "B"; text := "Goodbye" |}.

(** A player that has been playing [fourBytes] for three seconds on the
    context clock, without loop and with loop. *)
Definition playingWorld : World :=
  step (ClockAdvances 3)
       (step (CallPlay onProgress0 onEnded1 false)
             (step (CallLoad fourBytes) (initial Running 0))).

Definition loopingWorld : World :=
  step (ClockAdvances 3)
       (step (CallPlay onProgress0 onEnded1 true)
             (step (CallLoad fourBytes) (initial Running 0))).

End Samples.

(** ** Further notions about the player *)

Module Transport.
Import Dom WebAudio Pcm Player.

(** The progress poll is tidy: no animation frame is requested while the
    player is not playing, at most one is requested while it is, and that
    one is the request whose handle the player holds. *)
Record pollTidy (w : World) : Prop := mkPollTidy {
  idle_no_request :
    isPlaying (player w) = false -> frameRequests (browser w) = [];
  request_is_current :
    forall h, h ∈ frameRequests (browser w) ->
              frameRequests (browser w) = [h]
              /\ animationFrameId (player w) = Some h;
  handle_positive : animationFrameId (player w) <> Some 0%nat
}.

(** The current node carries the handler and the loop flag of the [play]
    call that created it. *)
Definition currentNodeIs (w : World) (id : nat) (n : SourceNode) : Prop :=
  source (player w) = Some id
  /\ nodes (browser w) !! id = Some n
  /\ node_onended n = Some (onEndedCb (player w))
  /\ node_loop n = loop (player w).

(** While the player is playing, its current node is the one the last
    [play] set up. *)
Definition installed (w : World) : Prop :=
  isPlaying (player w) = true -> exists id n, currentNodeIs w id n.

(** The callbacks invoked by a step: what it appends to the record. *)
Definition calledBy (e : Event) (w : World) : list Observation :=
  drop (length (observed (browser w))) (observed (browser (step e w))).

(** What the handlers of the two browser events invoke. *)
Definition progressReport (w : World) : list Observation :=
  match isPlaying (player w), onProgressCb (player w), buffer (player w) with
  | true, Some onProgress, Some b =>
      [ProgressCalled onProgress (getCurrentTime w) (duration b)]
  | _, _, _ => []
  end.

Definition endedReport (w : World) (id : nat) : list Observation :=
  match nodes (browser w) !! id with
  | Some n =>
      match node_onended n, loop (player w) with
      | Some (Some cb), false => [EndedCalled cb]
      | _, _ => []
      end
  | None => []
  end.

End Transport.
(** * Properties *)

(** ** The remainder of two numbers *)

Module NumberFacts.
Import Dom.

Lemma truncate_nonneg (q : Q) : 0 <= q -> truncate q = Qfloor q.
Proof.
  intros Hq. unfold truncate, Qfloor. destruct q as [n d].
  cbn [Qnum Qden]. apply Z.quot_div_nonneg; [| reflexivity].
  unfold Qle in Hq. cbn in Hq. lia.
Qed.

Lemma remainder_nonneg (n d : Q) :
  0 <= n -> 0 < d ->
  remainder n d = n - d * inject_Z (Qfloor (n / d)).
Proof.
  intros Hn Hd. unfold remainder. rewrite truncate_nonneg; [reflexivity |].
  apply Qmult_le_0_compat; [exact Hn |].
  apply Qlt_le_weak, Qinv_lt_0_compat, Hd.
Qed.

(** For a dividend that is not negative and a positive divisor, the
    remainder is what is left after taking the divisor out as often as it
    fits. *)
Lemma remainder_bounds (n d : Q) :
  0 <= n -> 0 < d ->
  0 <= remainder n d /\ remainder n d < d
  /\ exists k : Z, (0 <= k)%Z /\ n == inject_Z k * d + remainder n d.
Proof.
  intros Hn Hd. rewrite remainder_nonneg by assumption.
  pose proof (Qfloor_le (n / d)) as Hlo.
  pose proof (Qlt_floor (n / d)) as Hhi.
  rewrite inject_Z_plus in Hhi. change (inject_Z 1) with 1 in Hhi.
  assert (Hnd : d * (n / d) == n) by (apply Qmult_div_r; lra).
  set (k := inject_Z (Qfloor (n / d))) in *.
  assert (Hk1 : d * k <= n).
  { rewrite <- Hnd. apply Qmult_le_l; assumption. }
  assert (Hk2 : n < d * (k + 1)).
  { rewrite <- Hnd at 1. apply Qmult_lt_l; assumption. }
  split; [lra |]. split; [lra |].
  exists (Qfloor (n / d)). split.
  - change 0%Z with (Qfloor 0). apply Qfloor_resp_le.
    apply Qmult_le_0_compat; [exact Hn |].
    apply Qlt_le_weak, Qinv_lt_0_compat, Hd.
  - fold k. ring.
Qed.

Lemma remainder_comp (n n' d : Q) :
  0 <= n -> 0 < d -> n == n' -> remainder n d == remainder n' d.
Proof.
  intros Hn Hd Heq.
  rewrite !remainder_nonneg by (try rewrite <- Heq; assumption).
  rewrite (Qfloor_comp (n / d) (n' / d)) by (rewrite Heq; reflexivity).
  rewrite Heq. reflexivity.
Qed.

(** A dividend below the divisor is its own remainder. *)
Lemma remainder_small (n d : Q) :
  0 <= n -> n < d -> remainder n d == n.
Proof.
  intros Hn Hlt.
  assert (Hd : 0 < d) by lra.
  destruct (remainder_bounds n d Hn Hd) as (Hlo & Hhi & k & Hk & Heq).
  assert (Hk0 : k = 0%Z).
  { destruct (Z.eq_dec k 0%Z) as [-> | Hne]; [reflexivity | exfalso].
    assert (1 <= k)%Z as Hk1 by lia.
    assert (1 <= inject_Z k) as Hq.
    { change 1 with (inject_Z 1). rewrite <- Zle_Qle. exact Hk1. }
    assert (d <= inject_Z k * d) by nra.
    lra. }
  subst k. rewrite Heq at 2. change (inject_Z 0) with 0. ring.
Qed.

End NumberFacts.

(** ** The decoder *)

Module PcmFacts.
Import Dom WebAudio Pcm.

Lemma byteValue_range (b : Byte.byte) : (0 <= byteValue b < 256)%Z.
Proof.
  unfold byteValue. pose proof (Byte.to_N_bounded b). lia.
Qed.

(** The two bytes do not overlap, so or-ing them adds them. *)
Lemma lor_shiftl_bytes (lo hi : Z) :
  (0 <= lo < 256)%Z ->
  Z.lor (Z.shiftl hi 8) lo = (lo + 256 * hi)%Z.
Proof.
  intros Hlo.
  pose proof (Z.add_lor_land (Z.shiftl hi 8) lo) as Hsum.
  assert (Hland : Z.land (Z.shiftl hi 8) lo = 0%Z).
  { apply Z.bits_inj'. intros n Hn.
    rewrite Z.land_spec, Z.bits_0.
    destruct (Z.lt_ge_cases n 8) as [Hlt | Hge].
    - rewrite Z.shiftl_spec_low by lia. reflexivity.
    - replace (Z.testbit lo n) with false; [apply andb_false_r |].
      symmetry. destruct (Z.eq_dec lo 0%Z) as [-> | Hne];
        [apply Z.bits_0 |].
      apply Z.bits_above_log2; [lia |].
      apply Z.log2_lt_pow2; [lia |].
      apply Z.lt_le_trans with (2 ^ 8)%Z; [simpl; lia |].
      apply Z.pow_le_mono_r; lia. }
  rewrite Hland in Hsum.
  rewrite Z.shiftl_mul_pow2 in Hsum |- * by (apply Z.leb_le; reflexivity).
  change (2 ^ 8)%Z with 256%Z in *. lia.
Qed.

Lemma getInt16_le (view : Uint8Array) (off : nat) (b0 b1 : Byte.byte) :
  view !! off = Some b0 -> view !! S off = Some b1 ->
  getInt16 view off true = Ok (int16LE b0 b1).
Proof.
  intros H0 H1. unfold getInt16, int16LE. rewrite H0, H1.
  cbv zeta. rewrite lor_shiftl_bytes by apply byteValue_range.
  reflexivity.
Qed.

Lemma int16LE_range (b0 b1 : Byte.byte) :
  (-32768 <= int16LE b0 b1 <= 32767)%Z.
Proof.
  unfold int16LE, toInt16.
  pose proof (byteValue_range b0). pose proof (byteValue_range b1).
  destruct (Z.ltb_spec (byteValue b0 + 256 * byteValue b1) 32768); lia.
Qed.

Lemma sampleAt_is_Some (view : Uint8Array) (i : nat) :
  (S (i * 2) < length view)%nat -> is_Some (sampleAt view i).
Proof.
  intros Hlt. unfold sampleAt.
  destruct (lookup_lt_is_Some_2 view (i * 2)%nat) as [b0 ->]; [lia |].
  destruct (lookup_lt_is_Some_2 view (S (i * 2))) as [b1 ->]; [lia |].
  eauto.
Qed.

(** The loop never reads outside the view, leaves the entries below [i]
    alone and fills every entry from [i] on. *)
Lemma fillChannel_spec (view : Uint8Array) (fuel : nat) :
  forall (i : nat) (channel : list Q),
    ((i + fuel) * 2 <= length view)%nat ->
    length channel = (i + fuel)%nat ->
    exists out,
      fillChannel view fuel i channel = Ok out
      /\ length out = length channel
      /\ (forall j, (j < i)%nat -> out !! j = channel !! j)
      /\ (forall j, (i <= j < i + fuel)%nat -> out !! j = sampleAt view j).
Proof.
  induction fuel as [| fuel IH]; intros i channel Hview Hlen.
  - exists channel. split; [reflexivity |]. split; [reflexivity |].
    split; [reflexivity |]. intros j Hj. lia.
  - cbn [fillChannel].
    destruct (lookup_lt_is_Some_2 view (i * 2)%nat) as [b0 Hb0]; [lia |].
    destruct (lookup_lt_is_Some_2 view (S (i * 2))) as [b1 Hb1]; [lia |].
    rewrite (getInt16_le _ _ _ _ Hb0 Hb1).
    destruct (IH (S i) (<[i := inject_Z (int16LE b0 b1) / 32768]> channel))
      as (out & Hrun & Hl & Hlow & Hhigh).
    { lia. }
    { rewrite length_insert. lia. }
    exists out. rewrite length_insert in Hl.
    split; [exact Hrun |]. split; [exact Hl |]. split.
    + intros j Hj. rewrite Hlow by lia.
      apply list_lookup_insert_ne. lia.
    + intros j Hj. destruct (Nat.eq_dec j i) as [-> | Hne].
      * rewrite Hlow by lia.
        rewrite list_lookup_insert_eq by lia.
        unfold sampleAt. rewrite Hb0, Hb1. reflexivity.
      * apply Hhigh. lia.
Qed.

Lemma usable_even (n : nat) :
  ((n - n mod 2) / 2 * 2 = n - n mod 2)%nat.
Proof.
  pose proof (Nat.div_mod_eq n 2) as Hn.
  pose proof (Nat.mod_upper_bound n 2).
  replace (n - n mod 2)%nat with (n / 2 * 2)%nat at 1 by lia.
  rewrite Nat.div_mul by lia. lia.
Qed.

Lemma usable_half (n : nat) : ((n - n mod 2) / 2 = n / 2)%nat.
Proof.
  pose proof (Nat.div_mod_eq n 2) as Hn.
  replace (n - n mod 2)%nat with (n / 2 * 2)%nat by lia.
  apply Nat.div_mul. lia.
Qed.

(** What [rawPcmToAudioBuffer] returns on at least two bytes. *)
Lemma decode_ok (pcmData : Uint8Array) (rate : Q) :
  (2 <= length pcmData)%nat ->
  exists b,
    rawPcmToAudioBuffer pcmData rate = Ok b
    /\ sampleRate b = rate
    /\ length (channelData b) = (length pcmData / 2)%nat
    /\ forall i, (i < length pcmData / 2)%nat ->
                 channelData b !! i = sampleAt pcmData i.
Proof.
  intros Hlen. unfold rawPcmToAudioBuffer. cbv zeta.
  rewrite usable_half.
  assert (Hhalf : (1 <= length pcmData / 2)%nat).
  { change 1%nat with (2 / 2)%nat. apply Nat.Div0.div_le_mono. exact Hlen. }
  unfold createBuffer.
  destruct (length pcmData / 2)%nat as [| k] eqn:Hk; [lia |].
  cbn [channelData sampleRate].
  pose proof (usable_even (length pcmData)) as Hev.
  rewrite usable_half, Hk in Hev.
  destruct (fillChannel_spec
              (DataView pcmData (length pcmData - length pcmData mod 2))
              (S k) 0 (replicate (S k) 0))
    as (out & Hrun & Hl & _ & Hfill).
  { unfold DataView. rewrite length_take. lia. }
  { rewrite length_replicate. lia. }
  rewrite Hrun. eexists. split; [reflexivity |].
  cbn [channelData sampleRate]. rewrite length_replicate in Hl.
  split; [reflexivity |]. split; [exact Hl |].
  intros i Hi. rewrite Hfill by lia.
  unfold sampleAt, DataView.
  rewrite !lookup_take_lt by lia. reflexivity.
Qed.

Lemma decode_short (pcmData : Uint8Array) (rate : Q) :
  (length pcmData < 2)%nat ->
  rawPcmToAudioBuffer pcmData rate = Throw NotSupportedError.
Proof.
  intros Hlen. unfold rawPcmToAudioBuffer. cbv zeta.
  rewrite usable_half.
  rewrite Nat.div_small by lia. reflexivity.
Qed.

Lemma decode_even_prefix (pcmData : Uint8Array) (rate : Q) :
  rawPcmToAudioBuffer pcmData rate
  = rawPcmToAudioBuffer
      (take (length pcmData - length pcmData mod 2) pcmData) rate.
Proof.
  unfold rawPcmToAudioBuffer. cbv zeta.
  pose proof (Nat.mod_upper_bound (length pcmData) 2) as Hm.
  pose proof (Nat.div_mod_eq (length pcmData) 2) as Hd.
  rewrite length_take.
  rewrite Nat.min_l by lia.
  assert (Heven : ((length pcmData - length pcmData mod 2) mod 2 = 0)%nat).
  { replace (length pcmData - length pcmData mod 2)%nat
      with (length pcmData / 2 * 2)%nat by lia.
    apply Nat.Div0.mod_mul. }
  rewrite Heven, Nat.sub_0_r.
  unfold DataView. rewrite take_take, Nat.min_id. reflexivity.
Qed.

(** C8, as amended.  On at least two bytes the decoder returns a buffer of
    exactly [length / 2] samples, sample [i] being the signed 16-bit
    little-endian integer of bytes [2i] and [2i+1] over 32768.  A trailing
    odd byte is ignored: every input decodes like its even-length prefix.
    On fewer than two bytes the buffer would have no frame and
    [createBuffer] throws NotSupportedError. *)
Theorem decode_samples (pcmData : Uint8Array) (rate : Q) :
  ((2 <= length pcmData)%nat ->
   exists b,
     rawPcmToAudioBuffer pcmData rate = Ok b
     /\ sampleRate b = rate
     /\ length (channelData b) = (length pcmData / 2)%nat
     /\ forall i b0 b1,
         pcmData !! (2 * i)%nat = Some b0 ->
         pcmData !! (2 * i + 1)%nat = Some b1 ->
         channelData b !! i = Some (inject_Z (int16LE b0 b1) / 32768))
  /\ rawPcmToAudioBuffer pcmData rate
     = rawPcmToAudioBuffer
         (take (length pcmData - length pcmData mod 2) pcmData) rate
  /\ ((length pcmData < 2)%nat ->
      rawPcmToAudioBuffer pcmData rate = Throw NotSupportedError).
Proof.
  split; [| split].
  - intros Hlen.
    destruct (decode_ok pcmData rate Hlen) as (b & Hb & Hr & Hl & Hs).
    exists b. split; [exact Hb |]. split; [exact Hr |].
    split; [exact Hl |].
    intros i b0 b1 H0 H1.
    assert (Hi : (i < length pcmData / 2)%nat).
    { pose proof (lookup_lt_Some _ _ _ H1) as Hlt.
      pose proof (Nat.div_mod_eq (length pcmData) 2).
      pose proof (Nat.mod_upper_bound (length pcmData) 2). lia. }
    rewrite (Hs i Hi). unfold sampleAt.
    replace (i * 2)%nat with (2 * i)%nat by lia.
    replace (S (2 * i)) with (2 * i + 1)%nat by lia.
    rewrite H0, H1. reflexivity.
  - apply decode_even_prefix.
  - apply decode_short.
Qed.

(** C8 as stated fails on the empty input: no buffer with zero samples
    comes back. *)
Lemma decode_empty_throws :
  rawPcmToAudioBuffer [] defaultSampleRate = Throw NotSupportedError
  /\ ~ (exists b, rawPcmToAudioBuffer [] defaultSampleRate = Ok b
                  /\ length (channelData b) = 0%nat).
Proof.
  split; [reflexivity |]. intros (b & Hb & _). discriminate.
Qed.

Lemma decode_samples_witness :
  exists b,
    rawPcmToAudioBuffer Samples.fourBytes defaultSampleRate = Ok b
    /\ sampleRate b = defaultSampleRate
    /\ length (channelData b) = 2%nat
    /\ forall i b0 b1,
        Samples.fourBytes !! (2 * i)%nat = Some b0 ->
        Samples.fourBytes !! (2 * i + 1)%nat = Some b1 ->
        channelData b !! i = Some (inject_Z (int16LE b0 b1) / 32768).
Proof.
  apply (proj1 (decode_samples Samples.fourBytes defaultSampleRate)).
  cbn. lia.
Defined.

(** C10.  Every sample of a decoded buffer lies in [-1, 1): -1 is reached
    (by the bytes 00 80) and 1 never is. *)
Theorem samples_in_range :
  (forall (pcmData : Uint8Array) (rate : Q) (b : AudioBuffer) (s : Q),
      rawPcmToAudioBuffer pcmData rate = Ok b ->
      s ∈ channelData b -> -1 <= s /\ s < 1)
  /\ exists (pcmData : Uint8Array) (b : AudioBuffer) (s : Q),
      rawPcmToAudioBuffer pcmData defaultSampleRate = Ok b
      /\ channelData b !! 0%nat = Some s /\ s == -1.
Proof.
  split.
  - intros pcmData rate b s Hb Hs.
    destruct (le_lt_dec 2 (length pcmData)) as [Hlen | Hlen].
    2: { rewrite decode_short in Hb by exact Hlen. discriminate. }
    destruct (decode_ok pcmData rate Hlen) as (b' & Hb' & _ & Hl & Hsamp).
    rewrite Hb in Hb'. injection Hb' as <-.
    apply list_elem_of_lookup in Hs as [i Hi].
    assert (Hlt : (i < length pcmData / 2)%nat).
    { rewrite <- Hl. eapply lookup_lt_Some. exact Hi. }
    rewrite (Hsamp i Hlt) in Hi. unfold sampleAt in Hi.
    destruct (pcmData !! (i * 2)%nat) as [b0 |]; [| discriminate].
    destruct (pcmData !! S (i * 2)) as [b1 |]; [| discriminate].
    injection Hi as <-.
    pose proof (int16LE_range b0 b1) as Hrange.
    unfold Qle, Qlt, Qdiv, Qmult, Qinv, inject_Z. cbn. lia.
  - exists [Byte.x00; Byte.x80]. eexists. eexists.
    split; [reflexivity |]. split; reflexivity.
Qed.

Lemma samples_in_range_witness :
  -1 <= -32768 # 32768 /\ -32768 # 32768 < 1.
Proof.
  apply (proj1 samples_in_range [Byte.x00; Byte.x80] defaultSampleRate
               {| sampleRate := defaultSampleRate;
                  channelData := [-32768 # 32768] |}).
  - reflexivity.
  - apply list_elem_of_here.
Defined.

End PcmFacts.

(** ** The player *)

Module PlayerFacts.
Import Dom WebAudio Pcm Player.

(** *** Proof support *)

Ltac fields :=
  cbn [player browser
       buffer source isPlaying playbackRate pauseOffset startTime
       onProgressCb onEndedCb loop animationFrameId
       ctxState currentTime nodes lastFrameHandle frameRequests
       awaitingResume observed
       node_buffer node_playbackRate node_loop node_onended node_offset
       node_status sampleRate channelData
       arg_onProgress arg_onEnded arg_loop fst snd] in *.

Ltac open_world w :=
  let buf := fresh "buf" in let src := fresh "src" in
  let playing := fresh "playing" in let rate := fresh "rate" in
  let off := fresh "off" in let st := fresh "st" in
  let opc := fresh "opc" in let oec := fresh "oec" in
  let lp := fresh "lp" in let fid := fresh "fid" in
  let cs := fresh "cs" in let now := fresh "now" in
  let ns := fresh "ns" in let lfh := fresh "lfh" in
  let frs := fresh "frs" in let parked := fresh "parked" in
  let obs := fresh "obs" in
  destruct w as [[buf src playing rate off st opc oec lp fid]
                   [cs now ns lfh frs parked obs]];
  fields.

Ltac eff :=
  cbv beta iota zeta delta
      [bind ret throw this assign ask tell liftRes detached exec result
       load setRate update startProgressTimer cancelFrameIfAny
       stopSourceIfAny onendedHandler playBody play pause stop seek
       createBufferSource updateNode callNode requestAnimationFrame
       cancelAnimationFrame invoke react step
       player browser fst snd
       buffer source isPlaying playbackRate pauseOffset startTime
       onProgressCb onEndedCb loop animationFrameId
       ctxState currentTime nodes lastFrameHandle frameRequests
       awaitingResume observed
       setBuffer setSource setIsPlaying setPlaybackRate setPauseOffset
       setStartTime setOnProgressCb setOnEndedCb setLoop setAnimationFrameId
       setCtxState setCurrentTime setNodes setFrames setAwaitingResume
       setObserved negb].

Ltac eff_in H :=
  cbv beta iota zeta delta
      [bind ret throw this assign ask tell liftRes detached exec result
       load setRate update startProgressTimer cancelFrameIfAny
       stopSourceIfAny onendedHandler playBody play pause stop seek
       createBufferSource updateNode callNode requestAnimationFrame
       cancelAnimationFrame invoke react step
       player browser fst snd
       buffer source isPlaying playbackRate pauseOffset startTime
       onProgressCb onEndedCb loop animationFrameId
       ctxState currentTime nodes lastFrameHandle frameRequests
       awaitingResume observed
       setBuffer setSource setIsPlaying setPlaybackRate setPauseOffset
       setStartTime setOnProgressCb setOnEndedCb setLoop setAnimationFrameId
       setCtxState setCurrentTime setNodes setFrames setAwaitingResume
       setObserved negb] in H.

(** The list of nodes grows at its end, and a new node sits at the old
    length. *)
Lemma lookup_new_node (ns : list SourceNode) (n : SourceNode) :
  (ns ++ [n]) !! length ns = Some n.
Proof. rewrite lookup_app_r by lia. rewrite Nat.sub_diag. reflexivity. Qed.

Lemma alter_new_node (f : SourceNode -> SourceNode)
      (ns : list SourceNode) (n : SourceNode) :
  alter f (length ns) (ns ++ [n]) = ns ++ [f n].
Proof.
  induction ns as [| m ns IH]; cbn; [reflexivity |].
  f_equal. exact IH.
Qed.

Lemma insert_new_node (ns : list SourceNode) (n m : SourceNode) :
  <[length ns := m]> (ns ++ [n]) = ns ++ [m].
Proof.
  induction ns as [| k ns IH]; cbn; [reflexivity |].
  f_equal. exact IH.
Qed.

(** *** [play] *)

(** With a running context, a buffer, no playback in progress and a
    position that is not negative, [play] creates one node, starts it at
    [pauseOffset] and marks the player as playing. *)
Lemma play_starts (w : World) (b : AudioBuffer)
      (onProgress onEnded : option Callback) (lp : bool) :
  ctxState (browser w) = Running ->
  buffer (player w) = Some b ->
  isPlaying (player w) = false ->
  0 <= pauseOffset (player w) ->
  play onProgress onEnded lp w =
  ({| player :=
        {| buffer := Some b;
           source := Some (length (nodes (browser w)));
           isPlaying := true;
           playbackRate := playbackRate (player w);
           pauseOffset := pauseOffset (player w);
           startTime := currentTime (browser w);
           onProgressCb := onProgress;
           onEndedCb := onEnded;
           loop := lp;
           animationFrameId := Some (S (lastFrameHandle (browser w))) |};
      browser :=
        {| ctxState := Running;
           currentTime := currentTime (browser w);
           nodes := nodes (browser w)
                    ++ [startedNode b (playbackRate (player w)) lp onEnded
                                    (pauseOffset (player w))];
           lastFrameHandle := S (lastFrameHandle (browser w));
           frameRequests := frameRequests (browser w)
                            ++ [S (lastFrameHandle (browser w))];
           awaitingResume := awaitingResume (browser w);
           observed := observed (browser w) |} |},
   Ok tt).
Proof.
  intros Hcs Hb Hp Hoff. open_world w. subst. eff.
  rewrite !alter_new_node. rewrite lookup_new_node. eff.
  unfold startNode. cbn [node_status freshNode withOnended withLoop
                         withPlaybackRate withBuffer].
  apply Qle_bool_iff in Hoff. rewrite Hoff. eff.
  rewrite insert_new_node. reflexivity.
Qed.

(** The guard of [play]: nothing at all happens when playback is in
    progress or no buffer is loaded. *)
Lemma playBody_guard (w : World)
      (onProgress onEnded : option Callback) (lp : bool) :
  isPlaying (player w) = true \/ buffer (player w) = None ->
  playBody onProgress onEnded lp w = (w, Ok tt).
Proof.
  intros H. open_world w. destruct H as [-> | ->]; eff.
  - destruct buf; reflexivity.
  - reflexivity.
Qed.

(** *** The invariant *)

Lemma decode_sound (pcmData : Uint8Array) (rate : Q) (b : AudioBuffer) :
  rawPcmToAudioBuffer pcmData rate = Ok b ->
  sampleRate b = rate /\ channelData b <> [].
Proof.
  intros Hb.
  destruct (le_lt_dec 2 (length pcmData)) as [Hlen | Hlen].
  - destruct (PcmFacts.decode_ok pcmData rate Hlen) as (b' & Hb' & Hr & Hl & _).
    rewrite Hb in Hb'. injection Hb' as <-. split; [exact Hr |].
    intros Hnil. rewrite Hnil in Hl.
    assert (1 <= length pcmData / 2)%nat as Hhalf.
    { change 1%nat with (2 / 2)%nat. apply Nat.Div0.div_le_mono. exact Hlen. }
    rewrite <- Hl in Hhalf. cbn [length] in Hhalf. lia.
  - rewrite PcmFacts.decode_short in Hb by exact Hlen. discriminate.
Qed.

Ltac use_consistent H :=
  destruct H as [Hrun Hsrc Hload Hoff Hclk Hbuf Hknown Hpark]; fields.

Lemma initial_consistent (st : ContextState) (t0 : Q) :
  consistent (initial st t0).
Proof.
  constructor; unfold initial; fields; try discriminate; reflexivity.
Qed.

Lemma load_consistent (rawPcm : Uint8Array) (w : World) :
  consistent w -> consistent (exec (load rawPcm) w).
Proof.
  intros Hc. open_world w. use_consistent Hc. eff.
  destruct (rawPcmToAudioBuffer rawPcm defaultSampleRate) as [b | e] eqn:Hb;
    eff; constructor; fields; auto.
  - intros _. apply Qle_refl.
  - intros b' [= <-]. exact (decode_sound _ _ _ Hb).
Qed.

Lemma alter_status (f : SourceNode -> SourceNode) (ns : list SourceNode)
      (id i : nat) (n : SourceNode) :
  (forall m, node_status m <> Unstarted -> node_status (f m) <> Unstarted) ->
  ns !! i = Some n -> node_status n <> Unstarted ->
  exists n', alter f id ns !! i = Some n' /\ node_status n' <> Unstarted.
Proof.
  intros Hf Hn Hst. destruct (Nat.eq_dec id i) as [-> | Hne].
  - exists (f n). rewrite list_lookup_alter_eq, Hn. split; [reflexivity | auto].
  - exists n. rewrite list_lookup_alter_ne by exact Hne. auto.
Qed.

Lemma started_alter (f : SourceNode -> SourceNode) (k : nat)
      (ns : list SourceNode) (src : option nat) :
  (forall m, node_status m <> Unstarted -> node_status (f m) <> Unstarted) ->
  (exists id n, src = Some id /\ ns !! id = Some n
                /\ node_status n <> Unstarted) ->
  exists id n, src = Some id /\ alter f k ns !! id = Some n
               /\ node_status n <> Unstarted.
Proof.
  intros Hf (id & n & Hs & Hn & Hst).
  destruct (alter_status f ns k id n Hf Hn Hst) as (n' & Hn' & Hst').
  exists id, n'. auto.
Qed.

Lemma setRate_consistent (rate : Q) (w : World) :
  consistent w -> consistent (exec (setRate rate) w).
Proof.
  intros Hc. open_world w. use_consistent Hc. eff.
  destruct src as [id |]; eff; constructor; fields; auto.
  - intros Hp. destruct (Hsrc Hp) as (i & n & [= <-] & Hn & Hst).
    destruct (alter_status (withPlaybackRate rate) ns id id n) as (n' & Hn' & Hst');
      auto.
    exists id, n'. auto.
  - intros i Hi. rewrite length_alter. auto.
Qed.

Lemma playBody_consistent (w : World)
      (onProgress onEnded : option Callback) (lp : bool) :
  consistent w -> ctxState (browser w) = Running ->
  consistent (exec (playBody onProgress onEnded lp) w).
Proof.
  intros Hc Hcs.
  destruct (isPlaying (player w)) eqn:Hp.
  { unfold exec. rewrite playBody_guard by auto. exact Hc. }
  destruct (buffer (player w)) as [b |] eqn:Hb.
  2: { unfold exec. rewrite playBody_guard by auto. exact Hc. }
  destruct (Qle_bool 0 (pauseOffset (player w))) eqn:Hoff0.
  - apply Qle_bool_iff in Hoff0.
    pose proof (play_starts w b onProgress onEnded lp Hcs Hb Hp Hoff0) as Hplay.
    unfold play, bind, ask in Hplay. rewrite Hcs in Hplay.
    unfold exec. rewrite Hplay. cbn [fst].
    use_consistent Hc. constructor; fields; auto.
    + intros _. eexists _, _. split; [reflexivity |].
      split; [apply lookup_new_node |]. discriminate.
    + intros _. apply Qle_refl.
    + intros b' [= <-]. auto.
    + intros id [= <-]. rewrite length_app. cbn. lia.
  - open_world w. subst. use_consistent Hc. eff.
    rewrite !alter_new_node. rewrite lookup_new_node. eff.
    unfold startNode. cbn [node_status freshNode withOnended withLoop
                           withPlaybackRate withBuffer].
    rewrite Hoff0. eff.
    constructor; fields; auto; try discriminate.
    intros id [= <-]. rewrite length_app. cbn. lia.
Qed.

Lemma play_consistent (w : World)
      (onProgress onEnded : option Callback) (lp : bool) :
  consistent w -> consistent (exec (play onProgress onEnded lp) w).
Proof.
  intros Hc. destruct (ctxState (browser w)) eqn:Hcs.
  - open_world w. subst. use_consistent Hc. eff.
    constructor; fields; auto. discriminate.
  - replace (exec (play onProgress onEnded lp) w)
      with (exec (playBody onProgress onEnded lp) w).
    + apply playBody_consistent; assumption.
    + unfold exec, play, bind, ask. rewrite Hcs. reflexivity.
Qed.

Lemma pause_consistent (w : World) :
  consistent w -> consistent (exec pause w).
Proof.
  intros Hc. open_world w. pose proof Hc as Hc'. use_consistent Hc. eff.
  destruct playing; eff; [| exact Hc'].
  destruct (Hsrc eq_refl) as (id & n & -> & Hn & Hst). eff.
  rewrite Hn. eff. unfold stopNode.
  destruct (node_status n) eqn:Hs; [congruence | | |]; eff;
    destruct fid as [[| h] |]; eff;
    constructor; fields; auto; discriminate.
Qed.

Lemma stop_consistent (w : World) :
  consistent w -> consistent (exec stop w).
Proof.
  intros Hc. open_world w. pose proof Hc as Hc'. use_consistent Hc. eff.
  destruct src as [id |]; eff.
  - destruct (ns !! id) as [n |] eqn:Hn; eff.
    + unfold stopNode.
      destruct (node_status n) eqn:Hs; eff; [exact Hc' | | |];
        destruct fid as [[| h] |]; eff;
        constructor; fields; auto; discriminate.
    + destruct fid as [[| h] |]; eff;
        constructor; fields; auto; discriminate.
  - destruct fid as [[| h] |]; eff;
      constructor; fields; auto; discriminate.
Qed.

(** [seek] is [stop], an assignment and, when playback was in progress, a
    [play] whose promise is dropped. *)
Lemma seek_unfold (seconds : Q) (w : World) :
  seek seconds w =
  match stop w with
  | (w1, Ok _) =>
      let w2 := {| player := setPauseOffset seconds (player w1);
                   browser := browser w1 |} in
      if isPlaying (player w)
      then (exec (play (onProgressCb (player w2)) (onEndedCb (player w2))
                       (loop (player w2))) w2, Ok tt)
      else (w2, Ok tt)
  | (w1, Throw e) => (w1, Throw e)
  end.
Proof.
  unfold seek, bind at 1 2, this at 1.
  destruct (stop w) as [w1 [[] | e]]; [| reflexivity].
  unfold bind, assign, this, detached, exec, ret.
  destruct (isPlaying (player w)); reflexivity.
Qed.

Lemma stop_not_playing (w : World) :
  result stop w = Ok tt -> isPlaying (player (exec stop w)) = false.
Proof.
  open_world w. eff.
  destruct src as [id |]; eff.
  - destruct (ns !! id) as [n |]; eff.
    + unfold stopNode. destruct (node_status n); eff;
        try discriminate; destruct fid as [[| h] |]; reflexivity.
    + destruct fid as [[| h] |]; reflexivity.
  - destruct fid as [[| h] |]; reflexivity.
Qed.

Lemma stop_keeps_context (w : World) :
  ctxState (browser (exec stop w)) = ctxState (browser w).
Proof.
  open_world w. eff.
  destruct src as [id |]; eff.
  - destruct (ns !! id) as [n |]; eff.
    + unfold stopNode. destruct (node_status n); eff;
        try reflexivity; destruct fid as [[| h] |]; reflexivity.
    + destruct fid as [[| h] |]; reflexivity.
  - destruct fid as [[| h] |]; reflexivity.
Qed.

(** Moving the position of a player that is not playing. *)
Lemma reposition_consistent (seconds : Q) (w : World) :
  consistent w -> isPlaying (player w) = false ->
  consistent {| player := setPauseOffset seconds (player w);
                browser := browser w |}.
Proof.
  intros Hc Hp. open_world w. subst. use_consistent Hc.
  constructor; fields; auto; discriminate.
Qed.

Lemma seek_consistent (seconds : Q) (w : World) :
  consistent w -> consistent (exec (seek seconds) w).
Proof.
  intros Hc. unfold exec. rewrite seek_unfold.
  pose proof (stop_consistent w Hc) as Hstop.
  pose proof (stop_not_playing w) as Hnp.
  unfold exec, result in Hstop, Hnp.
  destruct (stop w) as [w1 [[] | e]]; cbn [fst snd] in *; [| exact Hstop].
  specialize (Hnp eq_refl). cbv zeta.
  pose proof (reposition_consistent seconds w1 Hstop Hnp) as H2.
  destruct (isPlaying (player w)); cbn [fst]; [| exact H2].
  apply play_consistent. exact H2.
Qed.

Lemma resumeAll_consistent (parked : list PlayArgs) :
  forall w, consistent w -> ctxState (browser w) = Running ->
            consistent (exec (resumeAll parked) w)
            /\ ctxState (browser (exec (resumeAll parked) w)) = Running.
Proof.
  induction parked as [| a rest IH]; intros w Hc Hcs.
  - split; [exact Hc | exact Hcs].
  - cbn [resumeAll]. unfold exec, bind, detached. cbn [fst].
    apply IH.
    + apply playBody_consistent; assumption.
    + clear IH Hc.
      destruct (isPlaying (player w)) eqn:Hp.
      { rewrite playBody_guard by auto. exact Hcs. }
      destruct (buffer (player w)) as [b |] eqn:Hb.
      2: { rewrite playBody_guard by auto. exact Hcs. }
      open_world w. subst. eff. rewrite !alter_new_node, lookup_new_node. eff.
      unfold startNode. cbn [node_status freshNode withOnended withLoop
                             withPlaybackRate withBuffer].
      destruct (Qle_bool 0 off); reflexivity.
Qed.

Lemma platform_consistent (e : Event) (w : World) :
  isCall e = false -> enabled e w = true -> consistent w ->
  consistent (step e w).
Proof.
  intros Hcall Hen Hc. destruct e; try discriminate.
  - (* the clock *)
    cbn [enabled] in Hen. apply Qle_bool_iff in Hen.
    open_world w. use_consistent Hc. eff.
    constructor; fields; auto.
    intros Hp. specialize (Hclk Hp). lra.
  - (* the context resumes *)
    cbn [enabled] in Hen.
    assert (Hnp : isPlaying (player w) = false).
    { destruct (isPlaying (player w)) eqn:Hp; [| reflexivity].
      rewrite (playing_running w Hc Hp) in Hen. discriminate. }
    unfold step, exec, react, bind, ask, tell. cbn [fst snd].
    apply resumeAll_consistent; [| reflexivity].
    open_world w. subst. use_consistent Hc.
    constructor; fields; auto; discriminate.
  - (* a source runs out *)
    open_world w. use_consistent Hc. eff.
    constructor; fields; auto.
    + intros Hp. apply started_alter; [intros m _; discriminate | auto].
    + intros i Hi. rewrite length_alter. auto.
  - (* an ended event *)
    open_world w. use_consistent Hc. eff.
    destruct (ns !! id) as [n |]; eff.
    2: { constructor; fields; auto.
         - intros Hp. apply started_alter; [intros m _; discriminate | auto].
         - intros i Hi. rewrite length_alter. auto. }
    destruct (node_onended n) as [onEnded |]; eff.
    2: { constructor; fields; auto.
         - intros Hp. apply started_alter; [intros m _; discriminate | auto].
         - intros i Hi. rewrite length_alter. auto. }
    destruct lp; eff.
    { constructor; fields; auto.
      - intros Hp. apply started_alter; [intros m _; discriminate | auto].
      - intros i Hi. rewrite length_alter. auto. }
    destruct fid as [[| h] |]; eff; destruct onEnded; eff;
      constructor; fields; auto; try discriminate;
      intros i Hi; rewrite length_alter; auto.
  - (* an animation frame *)
    open_world w. use_consistent Hc. eff.
    destruct playing; eff; [| constructor; fields; auto].
    destruct opc; eff; [| constructor; fields; auto].
    destruct buf; eff; constructor; fields; auto.
Qed.

Lemma step_consistent (e : Event) (w : World) :
  enabled e w = true -> consistent w -> consistent (step e w).
Proof.
  intros Hen Hc. destruct (isCall e) eqn:Hcall.
  - destruct e; try discriminate; unfold step; cbn [react].
    + apply load_consistent, Hc.
    + apply setRate_consistent, Hc.
    + apply play_consistent, Hc.
    + apply pause_consistent, Hc.
    + apply stop_consistent, Hc.
    + apply seek_consistent, Hc.
  - apply platform_consistent; assumption.
Qed.

Lemma run_consistent (es : list Event) :
  forall w w', consistent w -> run es w = Some w' -> consistent w'.
Proof.
  induction es as [| e es IH]; intros w w' Hc Hrun; cbn [run] in Hrun.
  - injection Hrun as <-. exact Hc.
  - destruct (enabled e w) eqn:Hen; [| discriminate].
    eapply IH; [| exact Hrun]. apply step_consistent; assumption.
Qed.

(** *** What the browser does to a player that is not playing *)

Lemma resumeAll_nil (w : World) : resumeAll [] w = (w, Ok tt).
Proof. reflexivity. Qed.




(** *** C2: load replaces the buffer and touches no source *)

Lemma load_ok (rawPcm : Uint8Array) (w : World) :
  (2 <= length rawPcm)%nat ->
  exists b,
    rawPcmToAudioBuffer rawPcm defaultSampleRate = Ok b
    /\ length (channelData b) = (length rawPcm / 2)%nat
    /\ sampleRate b = defaultSampleRate
    /\ load rawPcm w
       = ({| player := setPauseOffset 0 (setBuffer (Some b) (player w));
             browser := browser w |}, Ok tt).
Proof.
  intros Hlen.
  destruct (PcmFacts.decode_ok rawPcm defaultSampleRate Hlen)
    as (b & Hb & Hr & Hl & _).
  exists b. split; [exact Hb |]. split; [exact Hl |]. split; [exact Hr |].
  unfold load, bind, liftRes, assign. rewrite Hb. reflexivity.
Qed.

(** C2, as amended.  [load] stops nothing.  With at least two bytes it
    installs the decoded buffer and resets [pauseOffset] to 0; it leaves
    [isPlaying], the current source and the whole browser side as they
    were, so a source that was sounding keeps sounding and none is
    started.  With fewer than two bytes the decoder throws
    NotSupportedError and [load] changes nothing at all. *)
Theorem load_replaces_buffer_only (rawPcm : Uint8Array) (w : World) :
  ((2 <= length rawPcm)%nat ->
   exists b,
     rawPcmToAudioBuffer rawPcm defaultSampleRate = Ok b
     /\ result (load rawPcm) w = Ok tt
     /\ buffer (player (exec (load rawPcm) w)) = Some b
     /\ pauseOffset (player (exec (load rawPcm) w)) = 0
     /\ isPlaying (player (exec (load rawPcm) w)) = isPlaying (player w)
     /\ source (player (exec (load rawPcm) w)) = source (player w)
     /\ browser (exec (load rawPcm) w) = browser w
     /\ forall id, sounding (exec (load rawPcm) w) id = sounding w id)
  /\ ((length rawPcm < 2)%nat ->
      rawPcmToAudioBuffer rawPcm defaultSampleRate = Throw NotSupportedError
      /\ load rawPcm w = (w, Throw NotSupportedError)).
Proof.
  split.
  - intros Hlen.
    destruct (load_ok rawPcm w Hlen) as (b & Hb & _ & _ & Hload).
    exists b. unfold result, exec. rewrite Hload. cbn [fst snd].
    destruct w as [p br]. destruct p. repeat split; assumption.
  - intros Hlen.
    pose proof (PcmFacts.decode_short rawPcm defaultSampleRate Hlen) as Hb.
    split; [exact Hb |].
    unfold load, bind, liftRes. rewrite Hb. reflexivity.
Qed.

(** *** C4: the reported position *)

Lemma duration_positive (b : AudioBuffer) :
  sampleRate b = defaultSampleRate -> channelData b <> [] -> 0 < duration b.
Proof.
  intros Hr Hne. unfold duration. rewrite Hr.
  destruct (channelData b) as [| x l]; [congruence |].
  apply Qlt_shift_div_l; [reflexivity |].
  rewrite Qmult_0_l. change 0 with (inject_Z 0). rewrite <- Zlt_Qlt.
  cbn [length]. lia.
Qed.

(** C4.  [getCurrentTime] returns [pauseOffset] itself when the player is
    not playing; when it is playing, the offset plus the elapsed time
    scaled by the rate, reduced modulo the duration of the buffer exactly
    when [loop] is set.  A 10-second buffer (480000 bytes at 24000 Hz)
    played with [loop] at rate 1 reports 2 after 12 seconds. *)
Theorem getCurrentTime_by_state :
  (forall w : World,
      consistent w ->
      let elapsed := pauseOffset (player w)
                     + (currentTime (browser w) - startTime (player w))
                       * playbackRate (player w) in
      (isPlaying (player w) = false ->
       getCurrentTime w = pauseOffset (player w))
      /\ (isPlaying (player w) = true -> loop (player w) = false ->
          getCurrentTime w = elapsed)
      /\ (isPlaying (player w) = true -> loop (player w) = true ->
          exists b,
            buffer (player w) = Some b /\ 0 < duration b
            /\ getCurrentTime w = remainder elapsed (duration b)
            /\ (0 <= elapsed ->
                0 <= getCurrentTime w /\ getCurrentTime w < duration b
                /\ exists k : Z,
                    (0 <= k)%Z
                    /\ elapsed == inject_Z k * duration b
                                  + getCurrentTime w)))
  /\ (forall (rawPcm : Uint8Array) (onProgress onEnded : option Callback)
             (t0 : Q),
         Z.of_nat (length rawPcm) = 480000%Z ->
         exists w,
           run [CallLoad rawPcm; CallPlay onProgress onEnded true;
                ClockAdvances 12] (initial Running t0) = Some w
           /\ getDuration w == 10
           /\ getCurrentTime w == 2).
Proof.
  split.
  - intros w Hc elapsed. split; [| split].
    + intros Hp. unfold getCurrentTime. rewrite Hp. reflexivity.
    + intros Hp Hl. unfold getCurrentTime. rewrite Hp, Hl. reflexivity.
    + intros Hp Hl.
      destruct (buffer (player w)) as [b |] eqn:Hb;
        [| exfalso; exact (playing_loaded w Hc Hp Hb)].
      destruct (buffer_sound w Hc b Hb) as [Hr Hne].
      pose proof (duration_positive b Hr Hne) as Hd.
      exists b. split; [reflexivity |]. split; [exact Hd |].
      assert (Hget : getCurrentTime w = remainder elapsed (duration b)).
      { unfold getCurrentTime. rewrite Hp, Hl, Hb. reflexivity. }
      split; [exact Hget |]. intros Hel. rewrite Hget.
      apply NumberFacts.remainder_bounds; assumption.
  - intros rawPcm onProgress onEnded t0 Hlen.
    destruct (load_ok rawPcm (initial Running t0)) as (b & Hb & Hl & Hr & Hload);
      [lia |].
    assert (Hl' : Z.of_nat (length (channelData b)) = 240000%Z).
    { rewrite Hl, Nat2Z.inj_div, Hlen. reflexivity. }
    assert (Hd : duration b == 10).
    { unfold duration. rewrite Hl', Hr. reflexivity. }
    assert (Hpos : 0 < duration b) by (rewrite Hd; reflexivity).
    unfold initial, newPlayer in *.
    cbn [player browser setPauseOffset setBuffer buffer source isPlaying
         playbackRate pauseOffset startTime onProgressCb onEndedCb loop
         animationFrameId] in Hload.
    match type of Hload with
    | _ = (?w1, _) =>
        pose proof (play_starts w1 b onProgress onEnded true eq_refl eq_refl
                                eq_refl (Qle_refl 0)) as Hplay
    end.
    fields.
    eexists. split.
    { cbn [run enabled]. unfold step at 3, exec. cbn [react]. rewrite Hload.
      cbn [fst]. unfold step at 2, exec. cbn [react].
      rewrite Hplay. cbn [fst].
      replace (Qle_bool 0 12) with true by reflexivity.
      reflexivity. }
    split.
    + unfold getDuration, step, exec. eff.
      destruct (Qeq_bool (duration b) 0) eqn:Hz; [| exact Hd].
      apply Qeq_bool_eq in Hz. rewrite Hd in Hz. discriminate.
    + unfold getCurrentTime, step, exec. eff.
      transitivity (remainder 12 (duration b)).
      * apply NumberFacts.remainder_comp; [lra | exact Hpos | ring].
      * rewrite NumberFacts.remainder_nonneg by (try exact Hpos; lra).
        rewrite (Qfloor_comp (12 / duration b) (12 / 10))
          by (rewrite Hd; reflexivity).
        rewrite Hd. reflexivity.
Qed.

(** *** [stop] and a rejected [play] *)

Lemma sounding_insert (w : World) (ns : list SourceNode) (id i : nat)
      (n : SourceNode) :
  nodes (browser w) = <[id := n]> ns ->
  sounding w i = true ->
  (i = id /\ (id < length ns)%nat /\ node_status n = Playing)
  \/ (i <> id /\ exists m, ns !! i = Some m /\ node_status m = Playing).
Proof.
  intros Hns. unfold sounding. rewrite Hns.
  destruct (Nat.eq_dec i id) as [-> | Hne].
  - destruct (le_lt_dec (length ns) id) as [Hge | Hlt].
    + rewrite list_insert_ge by lia. rewrite lookup_ge_None_2 by lia.
      discriminate.
    + rewrite list_lookup_insert_eq by lia. intros Hs. left.
      split; [reflexivity |]. split; [exact Hlt |].
      unfold nodeStatusIs in Hs. destruct (node_status n); congruence.
  - rewrite list_lookup_insert_ne by auto.
    destruct (ns !! i) as [m |]; [| discriminate]. intros Hs. right.
    split; [exact Hne |]. exists m. split; [reflexivity |].
    unfold nodeStatusIs in Hs. destruct (node_status m); congruence.
Qed.

Lemma stop_spec (w : World) :
  sourceStarted w ->
  result stop w = Ok tt
  /\ player (exec stop w)
     = setPauseOffset 0 (setIsPlaying false (setSource None (player w)))
  /\ ctxState (browser (exec stop w)) = ctxState (browser w)
  /\ currentTime (browser (exec stop w)) = currentTime (browser w)
  /\ awaitingResume (browser (exec stop w)) = awaitingResume (browser w)
  /\ length (nodes (browser (exec stop w))) = length (nodes (browser w))
  /\ (forall id, source (player w) = Some id ->
                 sounding (exec stop w) id = false)
  /\ (forall id, sounding (exec stop w) id = true -> sounding w id = true).
Proof.
  intros Hst. unfold sourceStarted in Hst. open_world w. eff.
  destruct src as [id |]; eff.
  - destruct (ns !! id) as [n |] eqn:Hn; eff.
    + specialize (Hst id n eq_refl Hn). unfold stopNode.
      destruct (node_status n) eqn:Hs; [congruence | | |]; eff;
        destruct fid as [[| h] |]; eff;
        (repeat split; try reflexivity;
         [ apply length_insert
         | intros i [= <-]; unfold sounding; fields;
           rewrite list_lookup_insert_eq by (eapply lookup_lt_Some; eauto);
           unfold nodeStatusIs; cbn [node_status withStatus];
           try rewrite Hs; reflexivity
         | intros i Hi;
           eapply sounding_insert in Hi; [| reflexivity];
           unfold sounding; fields;
           destruct Hi as [(-> & _ & Hp) | (_ & m & Hm & Hp)];
           [ cbn [node_status withStatus] in Hp; try congruence;
             rewrite Hn; unfold nodeStatusIs; rewrite Hp; reflexivity
           | rewrite Hm; unfold nodeStatusIs; rewrite Hp; reflexivity ] ]).
    + destruct fid as [[| h] |]; eff; repeat split; try reflexivity;
        try (intros i Hi; exact Hi);
        intros i [= <-]; unfold sounding; fields; rewrite Hn; reflexivity.
  - destruct fid as [[| h] |]; eff; repeat split; try reflexivity;
      try (intros i Hi; exact Hi); intros i Hi; discriminate.
Qed.

Lemma sounding_new_unstarted (ns : list SourceNode) (n : SourceNode)
      (i : nat) :
  node_status n = Unstarted ->
  match (ns ++ [n]) !! i with
  | Some m => nodeStatusIs Playing m
  | None => false
  end
  = match ns !! i with
    | Some m => nodeStatusIs Playing m
    | None => false
    end.
Proof.
  intros Hn. destruct (lt_eq_lt_dec i (length ns)) as [[Hlt | ->] | Hgt].
  - rewrite lookup_app_l by exact Hlt. reflexivity.
  - rewrite lookup_new_node. rewrite lookup_ge_None_2 by lia.
    unfold nodeStatusIs. rewrite Hn. reflexivity.
  - rewrite !lookup_ge_None_2; [reflexivity | lia |].
    rewrite length_app. cbn. lia.
Qed.

(** A negative position: [start] throws, the promise of [play] is
    rejected, and the player is left not playing with a node that never
    sounded. *)
Lemma play_rejected (w : World) (b : AudioBuffer)
      (onProgress onEnded : option Callback) (lp : bool) :
  ctxState (browser w) = Running ->
  buffer (player w) = Some b ->
  isPlaying (player w) = false ->
  pauseOffset (player w) < 0 ->
  result (play onProgress onEnded lp) w = Throw RangeError
  /\ isPlaying (player (exec (play onProgress onEnded lp) w)) = false
  /\ pauseOffset (player (exec (play onProgress onEnded lp) w))
     = pauseOffset (player w)
  /\ onProgressCb (player (exec (play onProgress onEnded lp) w)) = onProgress
  /\ onEndedCb (player (exec (play onProgress onEnded lp) w)) = onEnded
  /\ loop (player (exec (play onProgress onEnded lp) w)) = lp
  /\ buffer (player (exec (play onProgress onEnded lp) w)) = Some b
  /\ ctxState (browser (exec (play onProgress onEnded lp) w)) = Running
  /\ forall id, sounding (exec (play onProgress onEnded lp) w) id
                = sounding w id.
Proof.
  intros Hcs Hb Hp Hoff. open_world w. subst. eff.
  rewrite !alter_new_node, lookup_new_node. eff.
  unfold startNode. cbn [node_status freshNode withOnended withLoop
                         withPlaybackRate withBuffer].
  assert (Hneg : Qle_bool 0 off = false).
  { destruct (Qle_bool 0 off) eqn:Hle; [| reflexivity].
    apply Qle_bool_iff in Hle. lra. }
  rewrite Hneg. eff. repeat split.
  intros id. unfold sounding. fields.
  apply sounding_new_unstarted. reflexivity.
Qed.

(** *** C1: pause freezes the position, play resumes from it *)


(** *** C5: seek *)

(** C5, as amended.  On a player whose current node, if any, was started,
    [seek seconds] never throws, stops that node, stores [seconds] in
    [pauseOffset] whatever its sign or size, and keeps the registered
    callbacks and the loop flag.  A player that was not playing stays so
    and reports [seconds].  A player that was playing restarts on a new
    node at [seconds] when [seconds] is not negative, and then reports
    [seconds], reduced modulo the duration when looping; for a negative
    [seconds] the restart is rejected and the player is left not playing,
    reporting [seconds]. *)
Theorem seek_moves_position (w : World) (seconds : Q) :
  consistent w -> sourceStarted w ->
  let w' := exec (seek seconds) w in
  result (seek seconds) w = Ok tt
  /\ pauseOffset (player w') = seconds
  /\ (forall id, source (player w) = Some id -> sounding w' id = false)
  /\ onProgressCb (player w') = onProgressCb (player w)
  /\ onEndedCb (player w') = onEndedCb (player w)
  /\ loop (player w') = loop (player w)
  /\ (isPlaying (player w) = false ->
      isPlaying (player w') = false
      /\ length (nodes (browser w')) = length (nodes (browser w))
      /\ getCurrentTime w' = seconds)
  /\ (isPlaying (player w) = true -> 0 <= seconds ->
      exists b,
        buffer (player w) = Some b
        /\ isPlaying (player w') = true
        /\ source (player w') = Some (length (nodes (browser w)))
        /\ nodes (browser w') !! length (nodes (browser w))
           = Some (startedNode b (playbackRate (player w)) (loop (player w))
                               (onEndedCb (player w)) seconds)
        /\ (loop (player w) = false -> getCurrentTime w' == seconds)
        /\ (loop (player w) = true ->
            getCurrentTime w' == remainder seconds (duration b))
        /\ (seconds < duration b -> getCurrentTime w' == seconds))
  /\ (isPlaying (player w) = true -> seconds < 0 ->
      isPlaying (player w') = false
      /\ getCurrentTime w' = seconds
      /\ forall id, sounding w' id = true -> sounding w id = true).
Proof.
  intros Hc Hstarted w'. subst w'. unfold result, exec.
  rewrite seek_unfold.
  destruct (stop_spec w Hstarted)
    as (Hres & Hpl & Hcs & Hnow & Hpk & Hlen & Hoff & Hmono).
  unfold result, exec in *.
  destruct (stop w) as [w1 r1]. cbn [fst snd] in *. subst r1. cbv zeta.
  destruct (isPlaying (player w)) eqn:Hp; cbn [fst snd].
  - (* playback was in progress *)
    pose proof (playing_running w Hc Hp) as Hrun.
    destruct (buffer (player w)) as [b |] eqn:Hb;
      [| exfalso; exact (playing_loaded w Hc Hp Hb)].
    destruct (buffer_sound w Hc b Hb) as [Hr Hne].
    pose proof (duration_positive b Hr Hne) as Hd.
    set (w2 := {| player := setPauseOffset seconds (player w1);
                  browser := browser w1 |}).
    assert (Hcs2 : ctxState (browser w2) = Running) by (cbn; congruence).
    assert (Hb2 : buffer (player w2) = Some b).
    { cbn. rewrite Hpl. destruct w as [[] ?]. exact Hb. }
    assert (Hp2 : isPlaying (player w2) = false).
    { cbn. rewrite Hpl. reflexivity. }
    assert (Ho2 : pauseOffset (player w2) = seconds) by reflexivity.
    assert (Hcb : onProgressCb (player w2) = onProgressCb (player w)
                  /\ onEndedCb (player w2) = onEndedCb (player w)
                  /\ loop (player w2) = loop (player w)
                  /\ playbackRate (player w2) = playbackRate (player w)).
    { cbn. rewrite Hpl. destruct w as [[] ?]. repeat split. }
    destruct Hcb as (Hcb1 & Hcb2 & Hcb3 & Hcb4).
    assert (Hsnd2 : forall id, sounding w2 id = sounding w1 id)
      by reflexivity.
    assert (Hknown : forall id, source (player w) = Some id ->
                                (id < length (nodes (browser w1)))%nat).
    { intros id Hid. rewrite Hlen. exact (source_known w Hc id Hid). }
    destruct (Qlt_le_dec seconds 0) as [Hneg | Hpos].
    + (* the restart is rejected *)
      destruct (play_rejected w2 b (onProgressCb (player w2))
                              (onEndedCb (player w2)) (loop (player w2))
                              Hcs2 Hb2 Hp2)
        as (_ & Hq1 & Hq2 & Hq3 & Hq4 & Hq5 & _ & _ & Hq6);
        [rewrite Ho2; exact Hneg |].
      unfold exec in *.
      split; [reflexivity |]. split; [rewrite Hq2; exact Ho2 |].
      split. { intros id Hid. rewrite Hq6, Hsnd2. auto. }
      split; [congruence |]. split; [congruence |]. split; [congruence |].
      split; [discriminate |]. split; [intros _ Hle; lra |].
      intros _ _. split; [exact Hq1 |]. split.
      * unfold getCurrentTime. rewrite Hq1. cbn [negb]. rewrite Hq2.
        exact Ho2.
      * intros id Hid. rewrite Hq6, Hsnd2 in Hid. auto.
    + (* the restart succeeds *)
      pose proof (play_starts w2 b (onProgressCb (player w2))
                              (onEndedCb (player w2)) (loop (player w2))
                              Hcs2 Hb2 Hp2) as Hplay.
      rewrite Ho2 in Hplay. specialize (Hplay Hpos).
      rewrite Hplay. cbn [fst snd].
      split; [reflexivity |]. split; [reflexivity |].
      split.
      { intros id Hid. specialize (Hoff id Hid). specialize (Hknown id Hid).
        unfold sounding in *. fields.
        change (nodes (browser w2)) with (nodes (browser w1)).
        rewrite lookup_app_l by exact Hknown. exact Hoff. }
      split; [exact Hcb1 |]. split; [exact Hcb2 |]. split; [exact Hcb3 |].
      split; [discriminate |]. split; [| intros _ Hlt; lra].
      intros _ _. exists b. split; [reflexivity |]. split; [reflexivity |].
      change (nodes (browser w2)) with (nodes (browser w1)).
      rewrite Hlen. split; [reflexivity |].
      split.
      { cbn [nodes browser]. rewrite <- Hlen, lookup_new_node, Hcb2, Hcb3, Hcb4.
        reflexivity. }
      assert (Hsame : seconds
                      + (currentTime (browser w2) - currentTime (browser w2))
                        * playbackRate (player w2) == seconds) by ring.
      split; [| split].
      * intros Hl. unfold getCurrentTime. fields. rewrite Hcb3, Hl.
        cbn [negb]. exact Hsame.
      * intros Hl. unfold getCurrentTime. fields. rewrite Hcb3, Hl.
        cbn [negb].
        apply NumberFacts.remainder_comp; [lra | exact Hd | exact Hsame].
      * intros Hlt. unfold getCurrentTime. fields. cbn [negb].
        destruct (loop (player w2)); [| exact Hsame].
        rewrite NumberFacts.remainder_comp
          with (n' := seconds); [| lra | exact Hd | exact Hsame].
        apply NumberFacts.remainder_small; assumption.
  - (* the player was not playing *)
    split; [reflexivity |]. split; [reflexivity |].
    split; [exact Hoff |].
    cbn [player]. rewrite Hpl. destruct w as [[] ?]. fields.
    split; [reflexivity |]. split; [reflexivity |]. split; [reflexivity |].
    split.
    { intros _. split; [reflexivity |]. split; [exact Hlen |].
      unfold getCurrentTime. fields. reflexivity. }
    split; intros; discriminate.
Qed.

(** *** The guard of play *)

Lemma sounding_after_start (ns : list SourceNode) (n : SourceNode)
      (i : nat) :
  node_status n = Playing ->
  match (ns ++ [n]) !! i with
  | Some m => nodeStatusIs Playing m
  | None => false
  end = true ->
  i = length ns
  \/ match ns !! i with
     | Some m => nodeStatusIs Playing m
     | None => false
     end = true.
Proof.
  intros Hn. destruct (lt_eq_lt_dec i (length ns)) as [[Hlt | ->] | Hgt].
  - rewrite lookup_app_l by exact Hlt. auto.
  - auto.
  - rewrite lookup_ge_None_2; [discriminate |].
    rewrite length_app. cbn. lia.
Qed.

Lemma play_when_guarded (w : World) (onProgress onEnded : option Callback)
      (lp : bool) :
  isPlaying (player w) = true \/ buffer (player w) = None ->
  playBody onProgress onEnded lp w = (w, Ok tt)
  /\ result (play onProgress onEnded lp) w = Ok tt
  /\ player (exec (play onProgress onEnded lp) w) = player w
  /\ nodes (browser (exec (play onProgress onEnded lp) w))
     = nodes (browser w)
  /\ (ctxState (browser w) = Running ->
      play onProgress onEnded lp w = (w, Ok tt)).
Proof.
  intros Hguard.
  pose proof (playBody_guard w onProgress onEnded lp Hguard) as Hbody.
  split; [exact Hbody |].
  unfold result, exec, play, bind, ask.
  destruct (ctxState (browser w)) eqn:Hcs.
  - cbn [fst snd tell]. repeat split. intros; discriminate.
  - rewrite Hbody. repeat split.
Qed.

(** X24.  When playback is in progress or no buffer is loaded, the body
    of [play] does nothing, and the call changes no field of the player
    and creates no node; with a running context it changes nothing at all.
    Of two [play] calls in immediate succession the second never changes
    which nodes are sounding, and from a state where none is sounding the
    two calls leave at most one. *)
Theorem play_guard (w : World) (onProgress onEnded : option Callback)
        (lp : bool) :
  (isPlaying (player w) = true \/ buffer (player w) = None ->
   playBody onProgress onEnded lp w = (w, Ok tt)
   /\ result (play onProgress onEnded lp) w = Ok tt
   /\ player (exec (play onProgress onEnded lp) w) = player w
   /\ nodes (browser (exec (play onProgress onEnded lp) w))
      = nodes (browser w)
   /\ (ctxState (browser w) = Running ->
       play onProgress onEnded lp w = (w, Ok tt)))
  /\ (forall (onProgress' onEnded' : option Callback) (lp' : bool),
         let w1 := exec (play onProgress onEnded lp) w in
         let w2 := exec (play onProgress' onEnded' lp') w1 in
         (forall id, sounding w2 id = sounding w1 id)
         /\ ((forall id, sounding w id = false) ->
             forall i j, sounding w2 i = true -> sounding w2 j = true ->
                         i = j)).
Proof.
  split.
  - apply play_when_guarded.
  - intros onProgress' onEnded' lp' w1 w2. subst w1 w2.
    destruct (ctxState (browser w)) eqn:Hcs.
    { (* both calls wait for the context *)
      open_world w. subst. eff. split; [reflexivity |].
      intros Hnone i j Hi. unfold sounding in *. fields.
      rewrite Hnone in Hi. discriminate. }
    assert (Hplay : forall p e l v,
               ctxState (browser v) = Running ->
               play p e l v = playBody p e l v).
    { intros p e l v Hv. unfold play, bind, ask. rewrite Hv. reflexivity. }
    destruct (isPlaying (player w)) eqn:Hp.
    { unfold exec. rewrite (Hplay _ _ _ w Hcs), (playBody_guard w) by auto.
      cbn [fst]. rewrite (Hplay _ _ _ w Hcs), (playBody_guard w) by auto.
      cbn [fst].
      split; [reflexivity |].
      intros Hnone i j Hi. rewrite Hnone in Hi. discriminate. }
    destruct (buffer (player w)) as [b |] eqn:Hb.
    2: { unfold exec.
         rewrite (Hplay _ _ _ w Hcs), (playBody_guard w) by auto.
         cbn [fst].
         rewrite (Hplay _ _ _ w Hcs), (playBody_guard w) by auto.
         cbn [fst].
         split; [reflexivity |].
         intros Hnone i j Hi. rewrite Hnone in Hi. discriminate. }
    destruct (Qlt_le_dec (pauseOffset (player w)) 0) as [Hneg | Hpos].
    + (* both calls are rejected *)
      destruct (play_rejected w b onProgress onEnded lp Hcs Hb Hp Hneg)
        as (_ & Hq1 & Hq2 & _ & _ & _ & Hq3 & Hq4 & Hq5).
      rewrite <- Hq2 in Hneg.
      destruct (play_rejected _ b onProgress' onEnded' lp' Hq4 Hq3 Hq1 Hneg)
        as (_ & _ & _ & _ & _ & _ & _ & _ & Hq6).
      split; [exact Hq6 |].
      intros Hnone i j Hi. rewrite Hq6, Hq5, Hnone in Hi. discriminate.
    + (* the first call starts a node, the second is guarded *)
      pose proof (play_starts w b onProgress onEnded lp Hcs Hb Hp Hpos)
        as Hstart.
      unfold exec. rewrite Hstart. cbn [fst].
      rewrite Hplay by reflexivity.
      rewrite playBody_guard by (left; reflexivity). cbn [fst].
      split; [reflexivity |].
      intros Hnone i j Hi Hj. unfold sounding in *. fields.
      apply sounding_after_start in Hi; [| reflexivity].
      apply sounding_after_start in Hj; [| reflexivity].
      destruct Hi as [-> | Hi]; [| rewrite Hnone in Hi; discriminate].
      destruct Hj as [-> | Hj]; [| rewrite Hnone in Hj; discriminate].
      reflexivity.
Qed.

(** *** C7: before any load *)

Lemma resumeAll_unloaded (parked : list PlayArgs) (w : World) :
  buffer (player w) = None -> resumeAll parked w = (w, Ok tt).
Proof.
  intros Hb. induction parked as [| a rest IH]; [reflexivity |].
  cbn [resumeAll]. unfold bind, detached.
  rewrite playBody_guard by auto. cbn [fst]. exact IH.
Qed.

(** "Before any load" is a property of states: it holds initially and
    every event other than a [load] keeps it. *)
Lemma unloaded_initial (st : ContextState) (t0 : Q) :
  unloaded (initial st t0).
Proof. constructor; reflexivity. Qed.

Lemma unloaded_step (e : Event) (w : World) :
  unloaded w -> (forall rawPcm, e <> CallLoad rawPcm) ->
  unloaded (step e w).
Proof.
  intros [Hb Hp Hs Hf] Hne. destruct e.
  - exfalso. exact (Hne rawPcm eq_refl).
  - open_world w. subst. eff. constructor; reflexivity.
  - open_world w. subst. eff. destruct cs; constructor; reflexivity.
  - open_world w. subst. eff. constructor; reflexivity.
  - open_world w. subst. eff. constructor; reflexivity.
  - open_world w. subst. eff. constructor; reflexivity.
  - open_world w. subst. eff. constructor; reflexivity.
  - unfold step, exec, react, bind, ask, tell. cbn [fst snd].
    rewrite resumeAll_unloaded by (destruct w as [[] ?]; exact Hb).
    open_world w. subst. constructor; reflexivity.
  - open_world w. subst. eff. constructor; reflexivity.
  - open_world w. subst. eff.
    destruct (ns !! id) as [n |]; eff; [| constructor; reflexivity].
    destruct (node_onended n) as [c |]; eff; [| constructor; reflexivity].
    destruct lp; eff; [constructor; reflexivity |].
    destruct c; eff; constructor; reflexivity.
  - open_world w. subst. eff. constructor; reflexivity.
Qed.

(** C7, as amended.  Before any [load] no transport operation throws.
    [pause] changes nothing, [getCurrentTime] returns [pauseOffset] and
    [getDuration] returns 0.  [stop] and [seek] write [pauseOffset] (0,
    and the argument), and [setRate] writes [playbackRate], which a later
    [load] keeps.  [play] changes nothing when the context is running.  On
    a suspended context the call is parked until the context resumes: if
    that happens before any [load] the parked call does nothing, but if a
    buffer has been loaded by then the playback starts. *)
Theorem before_load (w : World) :
  unloaded w ->
  pause w = (w, Ok tt)
  /\ getCurrentTime w = pauseOffset (player w)
  /\ getDuration w = 0
  /\ stop w = ({| player := setPauseOffset 0 (player w);
                  browser := browser w |}, Ok tt)
  /\ (forall seconds,
         seek seconds w = ({| player := setPauseOffset seconds (player w);
                              browser := browser w |}, Ok tt))
  /\ (forall rate,
         setRate rate w = ({| player := setPlaybackRate rate (player w);
                              browser := browser w |}, Ok tt))
  /\ (forall rate rawPcm,
         playbackRate
           (player (exec (load rawPcm) (exec (setRate rate) w))) = rate)
  /\ (forall (onProgress onEnded : option Callback) (lp : bool),
         let parked :=
           {| player := player w;
              browser :=
                setAwaitingResume
                  (awaitingResume (browser w)
                   ++ [{| arg_onProgress := onProgress;
                          arg_onEnded := onEnded; arg_loop := lp |}])
                  (browser w) |} in
         (ctxState (browser w) = Running ->
          play onProgress onEnded lp w = (w, Ok tt))
         /\ (ctxState (browser w) = Suspended ->
             play onProgress onEnded lp w = (parked, Ok tt)
             /\ step ContextResumes parked
                = {| player := player w;
                     browser := setAwaitingResume
                                  [] (setCtxState Running (browser w)) |}
             /\ forall rawPcm : Uint8Array,
                 (2 <= length rawPcm)%nat ->
                 awaitingResume (browser w) = [] ->
                 exists w' b,
                   run [CallLoad rawPcm; ContextResumes] parked = Some w'
                   /\ rawPcmToAudioBuffer rawPcm defaultSampleRate = Ok b
                   /\ isPlaying (player w') = true
                   /\ nodes (browser w')
                      = nodes (browser w)
                        ++ [startedNode b (playbackRate (player w)) lp
                                        onEnded 0])).
Proof.
  intros [Hb Hp Hs Hf].
  assert (Hsimple :
            pause w = (w, Ok tt)
            /\ getCurrentTime w = pauseOffset (player w)
            /\ getDuration w = 0
            /\ stop w = ({| player := setPauseOffset 0 (player w);
                            browser := browser w |}, Ok tt)
            /\ (forall seconds,
                   seek seconds w
                   = ({| player := setPauseOffset seconds (player w);
                         browser := browser w |}, Ok tt))
            /\ (forall rate,
                   setRate rate w
                   = ({| player := setPlaybackRate rate (player w);
                         browser := browser w |}, Ok tt))
            /\ (forall rate rawPcm,
                   playbackRate
                     (player (exec (load rawPcm) (exec (setRate rate) w)))
                   = rate)).
  { open_world w. subst. eff. repeat split.
    intros rate' rawPcm.
    destruct (rawPcmToAudioBuffer rawPcm defaultSampleRate); reflexivity. }
  destruct Hsimple as (H1 & H2 & H3 & H4 & H5 & H6 & H7).
  split; [exact H1 |]. split; [exact H2 |]. split; [exact H3 |].
  split; [exact H4 |]. split; [exact H5 |]. split; [exact H6 |].
  split; [exact H7 |].
  intros onProgress onEnded lp parked. subst parked. split.
  - intros Hcs.
    destruct (play_when_guarded w onProgress onEnded lp (or_intror Hb))
      as (_ & _ & _ & _ & Hrun). exact (Hrun Hcs).
  - intros Hcs. split; [| split].
    + open_world w. subst. reflexivity.
    + unfold step, exec, react, bind, ask, tell. cbn [fst snd].
      rewrite resumeAll_unloaded by (destruct w as [[] ?]; exact Hb).
      open_world w. subst. reflexivity.
    + intros rawPcm Hlen Hpk.
      destruct (PcmFacts.decode_ok rawPcm defaultSampleRate Hlen)
        as (b & Hdec & _).
      open_world w. subst. eexists _, b. split.
      { cbn [run enabled]. eff. rewrite Hdec. eff. cbn [app resumeAll]. eff.
        rewrite !alter_new_node, lookup_new_node. eff.
        unfold startNode.
        cbn [node_status freshNode withOnended withLoop withPlaybackRate
                         withBuffer arg_onProgress arg_onEnded arg_loop].
        replace (Qle_bool 0 0) with true by reflexivity. eff.
        rewrite insert_new_node. reflexivity. }
      repeat split. exact Hdec.
Qed.

(** *** The invariant holds in every reachable state *)

Lemma reachable_consistent (w : World) : reachable w -> consistent w.
Proof.
  induction 1 as [st t0 Ht0 | e w Hw IH Hen].
  - apply initial_consistent.
  - apply step_consistent; assumption.
Qed.

(** *** Concrete runs *)

Import Samples.

Lemma playingWorld_consistent : consistent playingWorld.
Proof.
  unfold playingWorld.
  apply step_consistent; [reflexivity |].
  apply step_consistent; [reflexivity |].
  apply step_consistent; [reflexivity |].
  apply initial_consistent.
Defined.

Lemma loopingWorld_consistent : consistent loopingWorld.
Proof.
  unfold loopingWorld.
  apply step_consistent; [reflexivity |].
  apply step_consistent; [reflexivity |].
  apply step_consistent; [reflexivity |].
  apply initial_consistent.
Defined.

Lemma playingWorld_sourceStarted : sourceStarted playingWorld.
Proof.
  intros id n Hid Hn. vm_compute in Hid. injection Hid as <-.
  vm_compute in Hn. injection Hn as <-. discriminate.
Defined.

(** C3: the code at the failing input.  Load, non-looping play, pause:
    the buffer never ran out, yet once the [ended] event of the stopped
    node is dispatched [onEnded] has been invoked. *)
Theorem pause_invokes_onEnded :
  exists w,
    run [CallLoad fourBytes; CallPlay onProgress0 onEnded1 false;
         CallPause; EndedDispatched 0]
        (initial Running 0) = Some w
    /\ observed (browser w) = [EndedCalled 1%nat].
Proof. eexists. split; vm_compute; reflexivity. Qed.



(** C2 as stated fails: a [load] during playback leaves the sounding node
    sounding, and a [load] of no bytes throws without resetting the
    position. *)
Lemma load_does_not_stop_the_source :
  sounding playingWorld 0 = true
  /\ sounding (exec (load fourBytes) playingWorld) 0 = true
  /\ isPlaying (player (exec (load fourBytes) playingWorld)) = true
  /\ result (load []) (exec pause playingWorld) = Throw NotSupportedError
  /\ pauseOffset (player (exec (load []) (exec pause playingWorld))) == 3.
Proof. repeat split; vm_compute; reflexivity. Qed.

Lemma load_replaces_buffer_only_witness :
  (exists b,
      rawPcmToAudioBuffer fourBytes defaultSampleRate = Ok b
      /\ result (load fourBytes) playingWorld = Ok tt
      /\ buffer (player (exec (load fourBytes) playingWorld)) = Some b
      /\ pauseOffset (player (exec (load fourBytes) playingWorld)) = 0
      /\ isPlaying (player (exec (load fourBytes) playingWorld))
         = isPlaying (player playingWorld)
      /\ source (player (exec (load fourBytes) playingWorld))
         = source (player playingWorld)
      /\ browser (exec (load fourBytes) playingWorld) = browser playingWorld
      /\ forall id, sounding (exec (load fourBytes) playingWorld) id
                    = sounding playingWorld id)
  /\ (rawPcmToAudioBuffer [Byte.x01] defaultSampleRate
      = Throw NotSupportedError
      /\ load [Byte.x01] playingWorld
         = (playingWorld, Throw NotSupportedError)).
Proof.
  split.
  - apply (proj1 (load_replaces_buffer_only fourBytes playingWorld)).
    cbn. lia.
  - apply (proj2 (load_replaces_buffer_only [Byte.x01] playingWorld)).
    cbn. lia.
Defined.

(** C4 at [loopingWorld]: a looping player reports a position inside the
    buffer. *)
Lemma getCurrentTime_witness :
  exists b,
    buffer (player loopingWorld) = Some b /\ 0 < duration b
    /\ getCurrentTime loopingWorld
       = remainder (0 + (0 + 3 - 0) * 1) (duration b).
Proof.
  destruct (proj1 getCurrentTime_by_state loopingWorld
                  loopingWorld_consistent)
    as (_ & _ & H).
  destruct (H eq_refl eq_refl) as (b & Hb & Hd & Hget & _).
  exists b. split; [exact Hb |]. split; [exact Hd | exact Hget].
Defined.

(** C5 as stated fails for a negative argument: playback was in progress
    and is not restarted. *)
Lemma seek_negative_does_not_restart :
  isPlaying (player playingWorld) = true
  /\ isPlaying (player (exec (seek (-1)) playingWorld)) = false
  /\ playingNodes (exec (seek (-1)) playingWorld) = [].
Proof. repeat split; vm_compute; reflexivity. Qed.

Lemma seek_moves_position_witness :
  result (seek 1) playingWorld = Ok tt
  /\ pauseOffset (player (exec (seek 1) playingWorld)) = 1.
Proof.
  pose proof (seek_moves_position playingWorld 1 playingWorld_consistent
                                  playingWorld_sourceStarted) as H.
  split; [exact (proj1 H) | exact (proj1 (proj2 H))].
Defined.

Lemma play_guard_witness :
  play None None true playingWorld = (playingWorld, Ok tt).
Proof.
  destruct (proj1 (play_guard playingWorld None None true)
                  (or_introl eq_refl))
    as (_ & _ & _ & _ & H).
  apply H. reflexivity.
Defined.

(** C6: the code at the failing input.  Load, play, pause, play: node 1
    is sounding and the player is playing, so a further [play] would be
    refused.  But the [ended] event of node 0, which [pause] stopped, is
    still queued; its handler clears [isPlaying] although node 1 goes on
    sounding.  The next [play], with no [pause] or [stop] since the last
    one, passes the guard and starts node 2: two nodes sound at once. *)
Theorem stale_ended_lets_play_start_a_second_source :
  exists w4 w5 w6,
    run [CallLoad fourBytes; CallPlay onProgress0 onEnded1 false; CallPause;
         CallPlay onProgress0 onEnded1 false] (initial Running 0) = Some w4
    /\ isPlaying (player w4) = true
    /\ playingNodes w4 = [1%nat]
    /\ play onProgress0 onEnded1 false w4 = (w4, Ok tt)
    /\ run [EndedDispatched 0] w4 = Some w5
    /\ isPlaying (player w5) = false
    /\ playingNodes w5 = [1%nat]
    /\ run [CallPlay onProgress0 onEnded1 false] w5 = Some w6
    /\ isPlaying (player w6) = true
    /\ playingNodes w6 = [1%nat; 2%nat].
Proof.
  eexists _, _, _.
  split; [vm_compute; reflexivity |].
  split; [vm_compute; reflexivity |].
  split; [vm_compute; reflexivity |].
  split; [vm_compute; reflexivity |].
  split; [vm_compute; reflexivity |].
  split; [vm_compute; reflexivity |].
  split; [vm_compute; reflexivity |].
  split; [vm_compute; reflexivity |].
  split; vm_compute; reflexivity.
Qed.

(** C7 as stated fails: before any [load], [seek] moves the reported
    position and [setRate] sets the rate of the playback to come; and a
    [play] on a suspended context decides whether a later [load] is
    followed by playback when the context resumes. *)
Lemma operations_before_load_are_observable :
  getCurrentTime (initial Running 0) = 0
  /\ getCurrentTime (exec (seek 5) (initial Running 0)) = 5
  /\ playbackRate
       (player (exec (load fourBytes) (exec (setRate 2) (initial Running 0))))
     = 2
  /\ (exists w,
         run [CallLoad fourBytes; ContextResumes] (initial Suspended 0)
         = Some w
         /\ isPlaying (player w) = false /\ playingNodes w = [])
  /\ (exists w,
         run [CallPlay onProgress0 onEnded1 false; CallLoad fourBytes;
              ContextResumes] (initial Suspended 0) = Some w
         /\ isPlaying (player w) = true /\ playingNodes w = [0%nat]).
Proof.
  split; [reflexivity |]. split; [reflexivity |]. split; [reflexivity |].
  split; eexists;
    (split; [vm_compute; reflexivity |]); split; vm_compute; reflexivity.
Qed.

Lemma before_load_witness :
  pause (initial Suspended 0) = (initial Suspended 0, Ok tt)
  /\ getDuration (initial Suspended 0) = 0
  /\ exists w' b,
      run [CallLoad fourBytes; ContextResumes]
          (exec (play None None false) (initial Suspended 0)) = Some w'
      /\ rawPcmToAudioBuffer fourBytes defaultSampleRate = Ok b
      /\ isPlaying (player w') = true.
Proof.
  pose proof (before_load (initial Suspended 0)
                          (unloaded_initial Suspended 0))
    as (H1 & _ & H3 & _ & _ & _ & _ & H8).
  split; [exact H1 |]. split; [exact H3 |].
  destruct (H8 None None false) as [_ Hsusp].
  destruct (Hsusp eq_refl) as (_ & _ & Hlater).
  destruct (Hlater fourBytes) as (w' & b & Hrun & Hb & Hp & _);
    [cbn; lia | reflexivity |].
  exists w', b. split; [exact Hrun |]. split; [exact Hb | exact Hp].
Defined.

End PlayerFacts.
(** ** Rounding to the nearest double *)

Module DoubleFacts.
Import Double.

Lemma pow2_pos (k : Z) : 0 < pow2 k.
Proof. apply Qpower_0_lt. reflexivity. Qed.

Lemma pow2_add (a b : Z) : pow2 (a + b) == pow2 a * pow2 b.
Proof. apply Qpower_plus. discriminate. Qed.

Lemma pow2_le (a b : Z) : (a <= b)%Z -> pow2 a <= pow2 b.
Proof. intros H. apply Qpower_le_compat_l; [exact H | discriminate]. Qed.

Lemma pow2_Z (k : Z) : (0 <= k)%Z -> pow2 k == inject_Z (2 ^ k).
Proof. intros H. symmetry. exact (Zpower_Qpower 2 k H). Qed.

Lemma pow2_cancel (a : Z) : pow2 a * pow2 (- a) == 1.
Proof. rewrite <- pow2_add, Z.add_opp_diag_r. reflexivity. Qed.

Lemma pow2_succ (a : Z) : pow2 (a + 1) == 2 * pow2 a.
Proof. rewrite pow2_add. change (pow2 1) with 2. ring. Qed.

Lemma between_powers (A B PA PB : Q) :
  0 < PA -> 0 < PB -> PA <= A -> A < 2 * PA -> PB <= B -> B < 2 * PB ->
  PA / (2 * PB) < A / B /\ A / B < 2 * PA / PB.
Proof.
  intros HPA HPB H1 H2 H3 H4.
  assert (HB : 0 < B) by lra.
  split.
  - apply Qlt_shift_div_l; [exact HB |].
    unfold Qdiv. rewrite <- Qmult_assoc, (Qmult_comm (/ _)), Qmult_assoc.
    apply Qlt_shift_div_r; [lra |]. nra.
  - apply Qlt_shift_div_r; [exact HB |].
    unfold Qdiv. rewrite <- Qmult_assoc, (Qmult_comm (/ _)), Qmult_assoc.
    apply Qlt_shift_div_l; [lra |]. nra.
Qed.

Lemma inject_log2 (n : Z) :
  (0 < n)%Z ->
  pow2 (Z.log2 n) <= inject_Z n /\ inject_Z n < 2 * pow2 (Z.log2 n).
Proof.
  intros Hn. pose proof (Z.log2_spec n Hn) as [Hlo Hhi].
  pose proof (Z.log2_nonneg n) as Hnn.
  rewrite (pow2_Z _ Hnn).
  split; [rewrite <- Zle_Qle; exact Hlo |].
  change 2 with (inject_Z 2). rewrite <- inject_Z_mult, <- Zlt_Qlt.
  rewrite Z.pow_succ_r in Hhi by exact Hnn. exact Hhi.
Qed.

(** [ilog2] is the floor of the binary logarithm. *)
Lemma ilog2_spec (x : Q) :
  0 < x -> pow2 (ilog2 x) <= x /\ x < pow2 (ilog2 x + 1).
Proof.
  intros Hx. destruct x as [a b].
  assert (Ha : (0 < a)%Z).
  { unfold Qlt in Hx. cbn in Hx. lia. }
  unfold ilog2. cbn [Qnum Qden].
  set (la := Z.log2 a). set (lb := Z.log2 (Z.pos b)).
  destruct (inject_log2 a Ha) as [HA1 HA2]. fold la in HA1, HA2.
  destruct (inject_log2 (Z.pos b) eq_refl) as [HB1 HB2]. fold lb in HB1, HB2.
  pose proof (pow2_pos la) as HPA. pose proof (pow2_pos lb) as HPB.
  destruct (between_powers _ _ _ _ HPA HPB HA1 HA2 HB1 HB2) as [Hlo Hhi].
  rewrite <- Qmake_Qdiv in Hlo, Hhi.
  assert (Hk : pow2 (la - lb) == pow2 la / pow2 lb).
  { apply Qpower_minus. discriminate. }
  assert (Hk1 : pow2 (la - lb + 1) == 2 * pow2 la / pow2 lb).
  { rewrite pow2_succ, Hk. unfold Qdiv. ring. }
  assert (Hk0 : pow2 (la - lb - 1 + 1) == pow2 (la - lb)).
  { replace (la - lb - 1 + 1)%Z with (la - lb)%Z by lia. reflexivity. }
  assert (Hkm : pow2 (la - lb - 1) == pow2 la / (2 * pow2 lb)).
  { assert (H2 : 2 * pow2 (la - lb - 1) == pow2 (la - lb)).
    { rewrite <- pow2_succ. exact Hk0. }
    rewrite Hk in H2. field_simplify in H2; [| lra].
    field_simplify; [| lra]. 
    apply (Qmult_inj_l _ _ 2); [discriminate |].
    rewrite H2. field. lra. }
  destruct (Qle_bool (pow2 (la - lb)) (a # b)) eqn:Htest.
  - apply Qle_bool_iff in Htest. split; [exact Htest |].
    rewrite Hk1. exact Hhi.
  - split.
    + rewrite Hkm. apply Qlt_le_weak. exact Hlo.
    + rewrite Hk0. apply Qnot_le_lt. intros Hc.
      apply Qle_bool_iff in Hc. congruence.
Qed.

(** Rounding to the nearest integer does not cross an integer. *)
Lemma nearestEven_ge (y : Q) (M : Z) :
  inject_Z M <= y -> (M <= nearestEven y)%Z.
Proof.
  intros H. apply Qfloor_resp_le in H. rewrite Qfloor_Z in H.
  unfold nearestEven.
  destruct (Qcompare (y - inject_Z (Qfloor y)) (1 # 2));
    [destruct (Z.even (Qfloor y)) | |]; lia.
Qed.

Lemma nearestEven_le (y : Q) (M : Z) :
  y <= inject_Z M -> (nearestEven y <= M)%Z.
Proof.
  intros H. pose proof (Qfloor_le y) as Hf.
  assert (HfM : (Qfloor y <= M)%Z) by (rewrite Zle_Qle; lra).
  unfold nearestEven.
  destruct (Z.eq_dec (Qfloor y) M) as [Heq | Hne].
  - destruct (Qcompare_spec (y - inject_Z (Qfloor y)) (1 # 2)) as [Hc | Hc | Hc];
      [rewrite Heq in Hc; lra | lia | rewrite Heq in Hc; lra].
  - destruct (Qcompare (y - inject_Z (Qfloor y)) (1 # 2));
      [destruct (Z.even (Qfloor y)) | |]; lia.
Qed.

(** The exponent of a number that is not zero: the number is below the
    next power of two, and not below this one unless it is subnormal. *)
Lemma exponent_spec (x : Q) :
  ~ x == 0 ->
  (-1022 <= exponent x)%Z
  /\ Qabs x < pow2 (exponent x + 1)
  /\ ((-1022 < exponent x)%Z -> pow2 (exponent x) <= Qabs x).
Proof.
  intros Hx.
  assert (Hpos : 0 < Qabs x).
  { pose proof (Qabs_nonneg x) as Hn.
    destruct (Qlt_le_dec 0 (Qabs x)) as [H | H]; [exact H |].
    exfalso. apply Hx. apply Qabs_Qle_condition in H. lra. }
  destruct (ilog2_spec _ Hpos) as [Hlo Hhi].
  unfold exponent. split; [lia |]. split.
  - apply (Qlt_le_trans _ _ _ Hhi). apply pow2_le. lia.
  - intros Hbig. replace (Z.max (ilog2 (Qabs x)) (-1022)) with (ilog2 (Qabs x))
      by lia.
    exact Hlo.
Qed.

Lemma scale_back (e : Z) : pow2 (e - 52) * pow2 (52 - e) == 1.
Proof.
  replace (52 - e)%Z with (- (e - 52))%Z by lia. apply pow2_cancel.
Qed.

(** Rounding does not cross a point of the grid of its argument. *)
Lemma nearest_le_grid (x : Q) (M : Z) :
  ~ x == 0 ->
  x <= inject_Z M * pow2 (exponent x - 52) ->
  nearest x <= inject_Z M * pow2 (exponent x - 52).
Proof.
  intros Hx H. unfold nearest.
  destruct (Qeq_bool x 0) eqn:Hz; [apply Qeq_bool_eq in Hz; contradiction |].
  set (e := exponent x) in *.
  pose proof (pow2_pos (e - 52)) as Hu. pose proof (pow2_pos (52 - e)) as Hv.
  pose proof (scale_back e) as Huv.
  assert (Hy : x * pow2 (52 - e) <= inject_Z M).
  { assert (x * pow2 (52 - e)
            <= inject_Z M * pow2 (e - 52) * pow2 (52 - e)).
    { apply Qmult_le_compat_r; [exact H | lra]. }
    rewrite <- Qmult_assoc, Huv, Qmult_1_r in H0. exact H0. }
  apply nearestEven_le in Hy. rewrite Zle_Qle in Hy.
  apply Qmult_le_compat_r; [exact Hy | lra].
Qed.

Lemma nearest_ge_grid (x : Q) (M : Z) :
  ~ x == 0 ->
  inject_Z M * pow2 (exponent x - 52) <= x ->
  inject_Z M * pow2 (exponent x - 52) <= nearest x.
Proof.
  intros Hx H. unfold nearest.
  destruct (Qeq_bool x 0) eqn:Hz; [apply Qeq_bool_eq in Hz; contradiction |].
  set (e := exponent x) in *.
  pose proof (pow2_pos (e - 52)) as Hu. pose proof (pow2_pos (52 - e)) as Hv.
  pose proof (scale_back e) as Huv.
  assert (Hy : inject_Z M <= x * pow2 (52 - e)).
  { assert (inject_Z M * pow2 (e - 52) * pow2 (52 - e)
            <= x * pow2 (52 - e)).
    { apply Qmult_le_compat_r; [exact H | lra]. }
    rewrite <- Qmult_assoc, Huv, Qmult_1_r in H0. exact H0. }
  apply nearestEven_ge in Hy. rewrite Zle_Qle in Hy.
  apply Qmult_le_compat_r; [exact Hy | lra].
Qed.

(** A representable number whose exponent is not below the grid of [x]
    lies on that grid. *)
Lemma on_grid (m k e : Z) :
  (e <= k)%Z ->
  inject_Z m * pow2 k == inject_Z (m * 2 ^ (k - e)) * pow2 e.
Proof.
  intros H. rewrite inject_Z_mult, <- (pow2_Z (k - e)) by lia.
  rewrite <- Qmult_assoc, <- pow2_add.
  replace (k - e + e)%Z with k by lia. reflexivity.
Qed.

(** A representable number with an exponent below the grid of [x] is
    within the power of two under [x]. *)
Lemma below_grid (m k e : Z) :
  (Z.abs m <= 2 ^ 53)%Z -> (k < e - 52)%Z ->
  Qabs (inject_Z m * pow2 k) <= pow2 e.
Proof.
  intros Hm Hk. pose proof (pow2_pos k) as Hp.
  rewrite Qabs_Qmult, (Qabs_pos (pow2 k)) by lra.
  assert (Hm' : Qabs (inject_Z m) <= pow2 53).
  { rewrite (pow2_Z 53) by lia.
    apply Qabs_Qle_condition. rewrite <- inject_Z_opp, <- !Zle_Qle. lia. }
  assert (Hle : pow2 (53 + k) <= pow2 e) by (apply pow2_le; lia).
  rewrite pow2_add in Hle.
  apply (Qle_trans _ (pow2 53 * pow2 k)); [| exact Hle].
  apply Qmult_le_compat_r; [exact Hm' | lra].
Qed.

Lemma pow2_on_grid (e : Z) : pow2 e == inject_Z (2 ^ 52) * pow2 (e - 52).
Proof.
  rewrite <- (pow2_Z 52) by lia. rewrite <- pow2_add.
  replace (52 + (e - 52))%Z with e by lia. reflexivity.
Qed.

(** Rounding does not cross a representable number. *)
Lemma nearest_le (x d : Q) :
  representable d -> x <= d -> nearest x <= d.
Proof.
  intros (m & k & Hm & Hk & Hd) Hxd.
  destruct (Qeq_dec x 0) as [Hz | Hnz].
  { unfold nearest. apply Qeq_bool_iff in Hz. rewrite Hz.
    apply Qeq_bool_iff in Hz. lra. }
  destruct (exponent_spec x Hnz) as (He & Hup & Hlow).
  set (e := exponent x) in *.
  destruct (Z_le_gt_dec (e - 52) k) as [Hgrid | Hfine].
  - rewrite Hd, (on_grid m k (e - 52) Hgrid) in *.
    apply nearest_le_grid; assumption.
  - assert (Hbig : (-1022 < e)%Z) by lia.
    specialize (Hlow Hbig).
    pose proof (below_grid m k e Hm ltac:(lia)) as Hsmall.
    rewrite <- Hd in Hsmall.
    pose proof (pow2_on_grid e) as Hpe.
    destruct (Qlt_le_dec 0 x) as [Hpos | Hneg].
    + rewrite (Qabs_pos x) in Hlow by lra.
      pose proof (Qle_Qabs d) as Hdd.
      assert (Hx : x <= inject_Z (2 ^ 52) * pow2 (e - 52)) by lra.
      apply (nearest_le_grid x _ Hnz) in Hx. fold e in Hx. lra.
    + rewrite (Qabs_neg x) in Hlow by exact Hneg.
      apply Qabs_Qle_condition in Hsmall.
      assert (Hx : x <= inject_Z (- 2 ^ 52) * pow2 (e - 52)).
      { rewrite inject_Z_opp. lra. }
      apply (nearest_le_grid x _ Hnz) in Hx. fold e in Hx.
      rewrite inject_Z_opp in Hx. lra.
Qed.

Lemma nearest_ge (x d : Q) :
  representable d -> d <= x -> d <= nearest x.
Proof.
  intros (m & k & Hm & Hk & Hd) Hxd.
  destruct (Qeq_dec x 0) as [Hz | Hnz].
  { unfold nearest. apply Qeq_bool_iff in Hz. rewrite Hz.
    apply Qeq_bool_iff in Hz. lra. }
  destruct (exponent_spec x Hnz) as (He & Hup & Hlow).
  set (e := exponent x) in *.
  destruct (Z_le_gt_dec (e - 52) k) as [Hgrid | Hfine].
  - rewrite Hd, (on_grid m k (e - 52) Hgrid) in *.
    apply nearest_ge_grid; assumption.
  - assert (Hbig : (-1022 < e)%Z) by lia.
    specialize (Hlow Hbig).
    pose proof (below_grid m k e Hm ltac:(lia)) as Hsmall.
    rewrite <- Hd in Hsmall.
    pose proof (pow2_on_grid e) as Hpe.
    apply Qabs_Qle_condition in Hsmall.
    destruct (Qlt_le_dec 0 x) as [Hpos | Hneg].
    + rewrite (Qabs_pos x) in Hlow by lra.
      assert (Hx : inject_Z (2 ^ 52) * pow2 (e - 52) <= x) by lra.
      apply (nearest_ge_grid x _ Hnz) in Hx. fold e in Hx. lra.
    + rewrite (Qabs_neg x) in Hlow by exact Hneg.
      assert (Hx : inject_Z (- 2 ^ 52) * pow2 (e - 52) <= x).
      { rewrite inject_Z_opp. lra. }
      apply (nearest_ge_grid x _ Hnz) in Hx. fold e in Hx.
      rewrite inject_Z_opp in Hx. lra.
Qed.

(** A representable number is its own rounding. *)
Lemma nearest_exact (x d : Q) :
  representable d -> x == d -> nearest x == d.
Proof.
  intros Hd Hx. apply Qle_antisym.
  - apply nearest_le; [exact Hd | lra].
  - apply nearest_ge; [exact Hd | lra].
Qed.

(** Every result of a rounding is representable. *)
Lemma nearest_representable (x : Q) : representable (nearest x).
Proof.
  destruct (Qeq_dec x 0) as [Hz | Hnz].
  { exists 0%Z, 0%Z. unfold nearest. apply Qeq_bool_iff in Hz. rewrite Hz.
    repeat split; [cbn; lia | lia]. }
  destruct (exponent_spec x Hnz) as (He & Hup & _).
  unfold nearest.
  destruct (Qeq_bool x 0) eqn:Hz; [apply Qeq_bool_eq in Hz; contradiction |].
  set (e := exponent x) in *.
  exists (nearestEven (x * pow2 (52 - e))), (e - 52)%Z.
  split; [| split; [lia | reflexivity]].
  pose proof (pow2_pos (52 - e)) as Hv.
  assert (Hscaled : Qabs (x * pow2 (52 - e)) <= inject_Z (2 ^ 53)).
  { rewrite Qabs_Qmult, (Qabs_pos (pow2 (52 - e))) by lra.
    rewrite <- (pow2_Z 53) by lia.
    replace 53%Z with (e + 1 + (52 - e))%Z by lia.
    rewrite pow2_add. apply Qmult_le_compat_r; lra. }
  apply Qabs_Qle_condition in Hscaled as [Hlo Hhi].
  rewrite <- inject_Z_opp in Hlo.
  apply nearestEven_ge in Hlo. apply nearestEven_le in Hhi. lia.
Qed.

Lemma representable_Z (n : Z) :
  (Z.abs n <= 2 ^ 53)%Z -> representable (inject_Z n).
Proof.
  intros H. exists n, 0%Z. split; [exact H |]. split; [lia |].
  change (pow2 0) with 1. ring.
Qed.

Lemma representable_comp (x y : Q) :
  x == y -> representable x -> representable y.
Proof.
  intros Hxy (m & k & Hm & Hk & Hd). exists m, k.
  split; [exact Hm |]. split; [exact Hk |]. rewrite <- Hxy. exact Hd.
Qed.

Lemma representable_0 : representable 0.
Proof. apply (representable_Z 0). cbn. lia. Qed.

Lemma representable_1 : representable 1.
Proof. apply (representable_Z 1). cbn. lia. Qed.

Lemma representable_small (n : Z) :
  (0 <= n <= 2 ^ 53)%Z -> representable (inject_Z n).
Proof. intros H. apply representable_Z. lia. Qed.

Lemma nearest_zero (x : Q) : x == 0 -> nearest x = 0.
Proof.
  intros H. unfold nearest. apply Qeq_bool_iff in H. rewrite H. reflexivity.
Qed.

(** The rounding at work: 1/10 and 999/10 are not doubles; an integer
    just above [2^53] falls on the even neighbour when it is half way; half
    of the smallest double rounds to zero and one and a half times it to
    twice it. *)
Lemma nearest_examples :
  nearest (1 # 10) == 3602879701896397 # 36028797018963968
  /\ nearest (999 # 10) == 3514918771674317 # 35184372088832
  /\ nearest (inject_Z (2 ^ 53 + 1)) == inject_Z (2 ^ 53)
  /\ nearest (inject_Z (2 ^ 53 + 3)) == inject_Z (2 ^ 53 + 4)
  /\ nearest (minPositive / 2) == 0
  /\ nearest (minPositive * (3 # 2)) == minPositive * 2.
Proof. repeat split; vm_compute; reflexivity. Qed.

(** A quotient in [0, 1] stays there when rounded, and so does its
    product with a double. *)
Lemma div_unit (a b : Q) :
  0 <= a -> a <= b -> 0 < b -> 0 <= div a b /\ div a b <= 1.
Proof.
  intros Ha Hab Hb. unfold div. split.
  - apply nearest_ge; [exact representable_0 |].
    apply Qle_shift_div_l; [exact Hb | lra].
  - apply nearest_le; [exact representable_1 |].
    apply Qle_shift_div_r; [exact Hb | lra].
Qed.

Lemma mul_unit (q t : Q) :
  0 <= q -> q <= 1 -> 0 <= t -> representable t ->
  0 <= mul q t /\ mul q t <= t.
Proof.
  intros Hq0 Hq1 Ht Hrep. unfold mul. split.
  - apply nearest_ge; [exact representable_0 |].
    apply Qmult_le_0_compat; assumption.
  - apply nearest_le; [exact Hrep | nra].
Qed.

End DoubleFacts.

(** ** The active line *)

Module DialogueCardFacts.
Import Double DoubleFacts DialogueCard Samples.

Lemma textLength_nonneg (l : DialogueLine) : 0 <= textLength l.
Proof.
  unfold textLength. change 0 with (inject_Z 0). rewrite <- Zle_Qle. lia.
Qed.

(** The accumulator never decreases and stays a double. *)
Lemma advance_spec (acc : Q) (l : DialogueLine) :
  representable acc ->
  acc <= advance acc l /\ representable (advance acc l).
Proof.
  intros Hacc. unfold advance, add.
  pose proof (textLength_nonneg l) as Hl.
  assert (H1 : acc <= nearest (acc + textLength l)).
  { apply nearest_ge; [exact Hacc | lra]. }
  assert (H2 : nearest (acc + textLength l)
               <= nearest (nearest (acc + textLength l) + 5)).
  { apply nearest_ge; [apply nearest_representable | lra]. }
  split; [lra | apply nearest_representable].
Qed.

Lemma advance_five (acc : Q) (l : DialogueLine) :
  0 <= acc -> 5 <= advance acc l.
Proof.
  intros Hacc. unfold advance, add.
  pose proof (textLength_nonneg l) as Hl.
  assert (H1 : 0 <= nearest (acc + textLength l)).
  { apply nearest_ge; [exact representable_0 | lra]. }
  apply nearest_ge; [| lra].
  apply (representable_Z 5). cbn. lia.
Qed.

Lemma fold_advance_spec (lines : list DialogueLine) :
  forall acc : Q,
    representable acc ->
    acc <= fold_left advance lines acc
    /\ representable (fold_left advance lines acc).
Proof.
  induction lines as [| l rest IH]; intros acc Hacc; cbn [fold_left].
  - split; [lra | exact Hacc].
  - destruct (advance_spec acc l Hacc) as [Hle Hrep].
    destruct (IH _ Hrep) as [Hle' Hrep']. split; [lra | exact Hrep'].
Qed.

Lemma totalChars_spec (lines : list DialogueLine) :
  0 <= totalChars lines /\ representable (totalChars lines).
Proof. apply fold_advance_spec. exact representable_0. Qed.

Lemma totalChars_five (l : DialogueLine) (rest : list DialogueLine) :
  5 <= totalChars (l :: rest).
Proof.
  unfold totalChars. cbn [fold_left].
  pose proof (advance_five 0 l ltac:(lra)) as H5.
  destruct (advance_spec 0 l representable_0) as [_ Hrep].
  destruct (fold_advance_spec rest _ Hrep) as [Hle _]. lra.
Qed.

(** While the sum stays within the 53 bits of a significand, no addition
    rounds: the accumulated total is the integer of the specification. *)
Lemma fold_advance_exact (lines : list DialogueLine) :
  forall (acc : Q) (a : Z),
    acc == inject_Z a -> (0 <= a)%Z ->
    (fold_left (fun sum l => (sum + span l)%Z) lines a <= 2 ^ 53)%Z ->
    fold_left advance lines acc
    == inject_Z (fold_left (fun sum l => (sum + span l)%Z) lines a).
Proof.
  induction lines as [| l rest IH]; intros acc a Hacc Ha Hbound;
    cbn [fold_left] in *.
  - exact Hacc.
  - assert (Hmono : forall (ls : list DialogueLine) (b : Z),
               (b <= fold_left (fun sum l => (sum + span l)%Z) ls b)%Z).
    { induction ls as [| l0 ls IHls]; intros b; cbn [fold_left]; [lia |].
      specialize (IHls (b + span l0)%Z). unfold span in *. lia. }
    pose proof (Hmono rest (a + span l)%Z) as Hle.
    apply IH; [| unfold span; lia | exact Hbound].
    unfold advance, add, textLength.
    set (n := Z.of_nat (String.length (text l))).
    assert (Hn : (0 <= n)%Z) by (subst n; lia).
    assert (Hspan : span l = (n + 5)%Z) by reflexivity.
    assert (H1 : nearest (acc + inject_Z n) == inject_Z (a + n)).
    { apply nearest_exact.
      - apply representable_small. lia.
      - rewrite Hacc, inject_Z_plus. reflexivity. }
    apply nearest_exact.
    + apply representable_small. lia.
    + rewrite H1, Hspan, !inject_Z_plus. change (inject_Z 5) with 5. ring.
Qed.

Lemma totalChars_exact (lines : list DialogueLine) :
  (totalLength lines <= 2 ^ 53)%Z ->
  totalChars lines == inject_Z (totalLength lines).
Proof.
  intros H. unfold totalChars, totalLength.
  apply fold_advance_exact; [reflexivity | lia | exact H].
Qed.

(** A position in the span of line [i], its end included and its start
    excluded, is found at [i], wherever the scan starts. *)
Lemma findIndexFrom_inside (pos : Q) (lines : list DialogueLine) :
  forall (acc : Q) (k : Z) (i : nat) (l : DialogueLine),
    representable acc ->
    lines !! i = Some l ->
    fold_left advance (take i lines) acc < pos ->
    pos <= advance (fold_left advance (take i lines) acc) l ->
    findIndexFrom pos acc k lines = (k + Z.of_nat i)%Z.
Proof.
  induction lines as [| l0 rest IH]; intros acc k i l Hacc Hl Hlo Hhi.
  - discriminate.
  - cbn [findIndexFrom]. destruct i as [| i].
    + injection Hl as <-. cbn [take fold_left] in *.
      replace (Qle_bool acc pos) with true
        by (symmetry; apply Qle_bool_iff, Qlt_le_weak, Hlo).
      replace (Qle_bool pos (advance acc l0)) with true
        by (symmetry; apply Qle_bool_iff, Hhi).
      cbn [andb]. lia.
    + cbn in Hl. cbn [take fold_left] in *.
      destruct (advance_spec acc l0 Hacc) as [_ Hrep].
      destruct (fold_advance_spec (take i rest) _ Hrep) as [Hmono _].
      assert (Hpast : Qle_bool pos (advance acc l0) = false).
      { destruct (Qle_bool pos (advance acc l0)) eqn:Hle; [| reflexivity].
        apply Qle_bool_iff in Hle. lra. }
      rewrite Hpast, andb_false_r.
      rewrite (IH (advance acc l0) (k + 1)%Z i l Hrep Hl Hlo Hhi). lia.
Qed.

(** A position inside the closed range the lines cover is found in some
    line. *)
Lemma findIndexFrom_covers (pos : Q) (lines : list DialogueLine) :
  forall (acc : Q) (k : Z),
    lines <> [] ->
    acc <= pos ->
    pos <= fold_left advance lines acc ->
    (k <= findIndexFrom pos acc k lines < k + Z.of_nat (length lines))%Z.
Proof.
  induction lines as [| l rest IH]; intros acc k Hne Hlo Hhi;
    [congruence |].
  cbn [findIndexFrom length fold_left] in *.
  replace (Qle_bool acc pos) with true
    by (symmetry; apply Qle_bool_iff, Hlo).
  cbn [andb].
  destruct (Qle_bool pos (advance acc l)) eqn:Hle; [lia |].
  assert (Hgt : advance acc l < pos).
  { apply Qnot_le_lt. intros Hc. apply Qle_bool_iff in Hc. congruence. }
  destruct rest as [| l2 rest'].
  { cbn [fold_left] in Hhi. lra. }
  specialize (IH (advance acc l) (k + 1)%Z ltac:(discriminate)
                 (Qlt_le_weak _ _ Hgt) Hhi).
  lia.
Qed.

Lemma findIndexFrom_range (pos : Q) (lines : list DialogueLine) :
  forall (acc : Q) (k : Z),
    findIndexFrom pos acc k lines = (-1)%Z
    \/ (k <= findIndexFrom pos acc k lines
        < k + Z.of_nat (length lines))%Z.
Proof.
  induction lines as [| l rest IH]; intros acc k; [left; reflexivity |].
  cbn [findIndexFrom length].
  destruct (Qle_bool acc pos && Qle_bool pos (advance acc l)).
  - right. lia.
  - destruct (IH (advance acc l) (k + 1)%Z) as [-> | H]; [left | right];
      [reflexivity | lia].
Qed.

Lemma findIndexFrom_negative (pos : Q) (lines : list DialogueLine) :
  pos < 0 ->
  forall (acc : Q) (k : Z),
    representable acc -> 0 <= acc ->
    findIndexFrom pos acc k lines = (-1)%Z.
Proof.
  intros Hneg. induction lines as [| l rest IH]; intros acc k Hrep Hacc;
    [reflexivity |].
  cbn [findIndexFrom].
  replace (Qle_bool acc pos) with false.
  - cbn [andb]. destruct (advance_spec acc l Hrep) as [Hle Hrep'].
    apply IH; [exact Hrep' | lra].
  - symmetry. destruct (Qle_bool acc pos) eqn:Hle; [| reflexivity].
    apply Qle_bool_iff in Hle. lra.
Qed.

Lemma startOf_spec (lines : list DialogueLine) (i : nat) :
  0 <= startOf lines i /\ representable (startOf lines i).
Proof. apply totalChars_spec. Qed.

Lemma currentPos_zero (audioProgress : Q) (lines : list DialogueLine) :
  audioProgress == 0 -> currentPos audioProgress lines = 0.
Proof.
  intros H. unfold currentPos, mul, div.
  rewrite (nearest_zero (audioProgress / 100))
    by (rewrite H; reflexivity).
  apply nearest_zero. ring.
Qed.

(** The guard of the memo does not fire. *)
Lemma guard_off (appState : AppState) (isPlaying : bool)
      (audioProgress : Q) :
  ~ audioProgress == 0 \/ isPlayingAudio appState = true
  \/ isPlaying = true ->
  audioProgress < ninetyNinePointNine ->
  negb (isPlayingAudio appState) && negb isPlaying
  && Qeq_bool audioProgress 0
  || Qle_bool ninetyNinePointNine audioProgress = false.
Proof.
  intros Hact Hlow. apply orb_false_intro.
  - destruct Hact as [Hnz | [-> | ->]]; cbn [negb andb];
      [| reflexivity | rewrite andb_false_r; reflexivity].
    destruct (Qeq_bool audioProgress 0) eqn:Hz;
      [apply Qeq_bool_eq in Hz; contradiction | apply andb_false_r].
  - destruct (Qle_bool ninetyNinePointNine audioProgress) eqn:Hle;
      [| reflexivity].
    apply Qle_bool_iff in Hle. lra.
Qed.

(** A position beyond the start of line [i] and not beyond its end
    selects line [i]. *)
Lemma activeLineIndex_in_span (appState : AppState) (isPlaying : bool)
      (audioProgress : Q) (lines : list DialogueLine) (i : nat)
      (l : DialogueLine) :
  lines !! i = Some l ->
  audioProgress < ninetyNinePointNine ->
  startOf lines i < currentPos audioProgress lines ->
  currentPos audioProgress lines <= advance (startOf lines i) l ->
  activeLineIndex appState isPlaying audioProgress lines = Z.of_nat i.
Proof.
  intros Hl Hlow Hlo Hhi. unfold activeLineIndex.
  rewrite guard_off; [| | exact Hlow].
  - rewrite (findIndexFrom_inside _ lines 0 0 i l representable_0 Hl);
      [lia | exact Hlo | exact Hhi].
  - left. intros Hz. rewrite (currentPos_zero _ lines Hz) in Hlo.
    pose proof (startOf_spec lines i) as [Hnn _]. lra.
Qed.

(** C9, as amended.  The mapping returns -1 when the progress is at least
    99.9, and when it is 0 while the application is neither in state
    PLAYING_AUDIO nor playing.  The position is the product
    [(progress / 100) * totalChars] as the doubles compute it, and the
    boundaries are the accumulated sums of text length plus 5 (the exact
    integer sums as long as they fit in 53 bits): for a progress below 99.9
    whose position lies strictly between the boundaries of line [i], the
    mapping returns [i]. *)
Theorem activeLineIndex_mapping (appState : AppState) (isPlaying : bool)
        (audioProgress : Q) (lines : list DialogueLine) :
  (ninetyNinePointNine <= audioProgress ->
   activeLineIndex appState isPlaying audioProgress lines = (-1)%Z)
  /\ (audioProgress == 0 -> isPlayingAudio appState = false ->
      isPlaying = false ->
      activeLineIndex appState isPlaying audioProgress lines = (-1)%Z)
  /\ (forall (i : nat) (l : DialogueLine),
         lines !! i = Some l ->
         audioProgress < ninetyNinePointNine ->
         startOf lines i < currentPos audioProgress lines ->
         currentPos audioProgress lines < advance (startOf lines i) l ->
         activeLineIndex appState isPlaying audioProgress lines
         = Z.of_nat i)
  /\ ((totalLength lines <= 2 ^ 53)%Z ->
      totalChars lines == inject_Z (totalLength lines)
      /\ forall (i : nat) (l : DialogueLine),
          lines !! i = Some l ->
          startOf lines i == inject_Z (totalLength (take i lines))
          /\ advance (startOf lines i) l
             == inject_Z (totalLength (take i lines) + span l)).
Proof.
  split; [| split; [| split]].
  - intros Hhigh. unfold activeLineIndex.
    apply Qle_bool_iff in Hhigh. rewrite Hhigh, orb_true_r. reflexivity.
  - intros Hzero Happ Hplay. unfold activeLineIndex.
    rewrite Happ, Hplay. apply Qeq_bool_iff in Hzero. rewrite Hzero.
    reflexivity.
  - intros i l Hl Hlow Hlo Hhi.
    apply (activeLineIndex_in_span _ _ _ _ i l Hl Hlow Hlo).
    apply Qlt_le_weak. exact Hhi.
  - intros Hfit. split; [apply totalChars_exact; exact Hfit |].
    intros i l Hl.
    assert (Hsplit : totalLength lines
                     = fold_left (fun sum l => (sum + span l)%Z)
                                 (drop (S i) lines)
                                 (totalLength (take i lines) + span l)%Z).
    { unfold totalLength.
      rewrite <- (take_drop i lines) at 1. rewrite fold_left_app.
      rewrite (drop_S lines l i Hl). reflexivity. }
    assert (Hmono : forall (ls : list DialogueLine) (b : Z),
               (b <= fold_left (fun sum l => (sum + span l)%Z) ls b)%Z).
    { induction ls as [| l0 ls IHls]; intros b; cbn [fold_left]; [lia |].
      specialize (IHls (b + span l0)%Z). unfold span in *. lia. }
    pose proof (Hmono (drop (S i) lines)
                      (totalLength (take i lines) + span l)%Z) as Hle.
    rewrite <- Hsplit in Hle.
    assert (Hnn : (0 <= totalLength (take i lines))%Z)
      by (apply (Hmono (take i lines) 0%Z)).
    assert (Hstart : startOf lines i == inject_Z (totalLength (take i lines))).
    { apply totalChars_exact. unfold span in Hle. lia. }
    split; [exact Hstart |].
    change (advance (startOf lines i) l)
      with (fold_left advance [l] (startOf lines i)).
    change (totalLength (take i lines) + span l)%Z
      with (fold_left (fun sum l => (sum + span l)%Z) [l]
                      (totalLength (take i lines))).
    apply fold_advance_exact; [exact Hstart | exact Hnn |].
    cbn [fold_left]. lia.
Qed.

(** C9 as stated fails: at progress 0 during playback the first line is
    active, and a position strictly inside the last line maps to no line
    once the progress has reached 99.9. *)
Lemma activeLineIndex_zero_while_playing :
  activeLineIndex PLAYING_AUDIO true 0 [hello; goodbye] = 0%Z
  /\ activeLineIndex IDLE false (1599 # 16) [hello; goodbye] = (-1)%Z
  /\ startOf [hello; goodbye] 1 < currentPos (1599 # 16) [hello; goodbye]
  /\ currentPos (1599 # 16) [hello; goodbye]
     < advance (startOf [hello; goodbye] 1) goodbye.
Proof. repeat split; vm_compute; reflexivity. Qed.

Lemma activeLineIndex_mapping_witness :
  activeLineIndex PLAYING_AUDIO true 50 [hello; goodbye] = 1%Z.
Proof.
  apply (proj1 (proj2 (proj2 (activeLineIndex_mapping PLAYING_AUDIO true 50
                                                      [hello; goodbye])))
               1%nat goodbye).
  - reflexivity.
  - vm_compute. reflexivity.
  - vm_compute. reflexivity.
  - vm_compute. reflexivity.
Defined.

(** The rounding decides at a boundary.  With the lines "Hello" and
    "Goodbye" (boundary at 10 of 22) the progress 45.45454545454546, the
    double above 1000/22, has its position rounded onto the boundary and
    selects line 0.  With lines of 2 and 13 characters (boundary at 7 of
    25) the progress 28 has its exact position 7 rounded above the
    boundary and selects line 1. *)
Lemma rounding_at_a_boundary :
  let p := nearest (4545454545454546 # 100000000000000) in
  inject_Z 1000 / 22 < p
  /\ currentPos p [hello; goodbye] == 10
  /\ activeLineIndex PLAYING_AUDIO true p [hello; goodbye] = 0%Z
  /\ 28 / 100 * 25 == 7
  /\ 7 < currentPos 28 [{| speaker := "A"; text := "Hi" |};
                        {| speaker := "B"; text := "How are you?!" |}]
  /\ activeLineIndex PLAYING_AUDIO true 28
                     [{| speaker := "A"; text := "Hi" |};
                      {| speaker := "B"; text := "How are you?!" |}] = 1%Z.
Proof. repeat split; vm_compute; reflexivity. Qed.

End DialogueCardFacts.

(** ** More about the player *)

Module TransportFacts.
Import Dom WebAudio Pcm Player Transport PlayerFacts Samples.

(** *** The progress poll *)

Lemma filter_out_only (k : nat) :
  filter (fun x : nat => x <> k) [k] = [].
Proof.
  rewrite filter_cons. destruct (decide (k <> k)) as [Hne | _];
    [congruence | reflexivity].
Qed.

Lemma tidy_cases (playing : bool) (fid : option nat) (frs : list nat) :
  (playing = false -> frs = []) ->
  (forall h, h ∈ frs -> frs = [h] /\ fid = Some h) ->
  frs = [] \/ (playing = true /\ exists k, frs = [k] /\ fid = Some k).
Proof.
  intros Hidle Hcur. destruct frs as [| k rest]; [left; reflexivity |].
  right. destruct (Hcur k (list_elem_of_here k rest)) as [Hk Hf].
  split.
  - destruct playing; [reflexivity |]. specialize (Hidle eq_refl).
    discriminate.
  - exists k. auto.
Qed.

Ltac tidy_goal :=
  constructor; fields;
  [ try (intros; reflexivity); try discriminate
  | let h := fresh "h" in
    let Hh := fresh "Hh" in
    intros h Hh;
    first [ apply list_elem_of_singleton in Hh; subst; split; reflexivity
          | inversion Hh ]
  | first [ discriminate | assumption ] ].

Lemma playBody_tidy (w : World) (onProgress onEnded : option Callback)
      (lp : bool) :
  pollTidy w -> pollTidy (exec (playBody onProgress onEnded lp) w).
Proof.
  intros Ht. pose proof Ht as [Hidle Hcur Hpos].
  destruct (isPlaying (player w)) eqn:Hp.
  { unfold exec. rewrite playBody_guard by auto. exact Ht. }
  destruct (buffer (player w)) as [b |] eqn:Hb.
  2: { unfold exec. rewrite playBody_guard by auto. exact Ht. }
  specialize (Hidle eq_refl).
  open_world w. subst. eff.
  rewrite !alter_new_node, lookup_new_node. eff.
  unfold startNode. cbn [node_status freshNode withOnended withLoop
                         withPlaybackRate withBuffer].
  destruct (Qle_bool 0 off); eff; tidy_goal.
Qed.

Lemma resumeAll_tidy (parked : list PlayArgs) :
  forall w, pollTidy w -> pollTidy (exec (resumeAll parked) w).
Proof.
  induction parked as [| a rest IH]; intros w Ht; [exact Ht |].
  cbn [resumeAll]. unfold exec, bind, detached. cbn [fst].
  apply IH. apply playBody_tidy. exact Ht.
Qed.

Lemma play_tidy (w : World) (onProgress onEnded : option Callback)
      (lp : bool) :
  pollTidy w -> pollTidy (exec (play onProgress onEnded lp) w).
Proof.
  intros Ht. destruct (ctxState (browser w)) eqn:Hcs.
  - destruct Ht as [Hidle Hcur Hpos]. open_world w. subst. eff.
    constructor; fields; assumption.
  - replace (exec (play onProgress onEnded lp) w)
      with (exec (playBody onProgress onEnded lp) w).
    + apply playBody_tidy. exact Ht.
    + unfold exec, play, bind, ask. rewrite Hcs. reflexivity.
Qed.

Lemma stop_tidy (w : World) : pollTidy w -> pollTidy (exec stop w).
Proof.
  intros Ht. pose proof Ht as [Hidle Hcur Hpos]. open_world w.
  destruct (tidy_cases _ _ _ Hidle Hcur) as [-> | (-> & k & -> & ->)]; eff.
  - destruct src as [id |]; eff.
    + destruct (ns !! id) as [n |]; eff.
      * unfold stopNode. destruct (node_status n); eff; [exact Ht | | |];
          destruct fid as [[| h] |]; eff; rewrite ?filter_nil; tidy_goal.
      * destruct fid as [[| h] |]; eff; rewrite ?filter_nil; tidy_goal.
    + destruct fid as [[| h] |]; eff; rewrite ?filter_nil; tidy_goal.
  - destruct k as [| k]; [congruence |].
    destruct src as [id |]; eff.
    + destruct (ns !! id) as [n |]; eff.
      * unfold stopNode. destruct (node_status n); eff; [exact Ht | | |];
          rewrite filter_out_only; tidy_goal.
      * rewrite filter_out_only; tidy_goal.
    + rewrite filter_out_only; tidy_goal.
Qed.

Lemma pause_tidy (w : World) : pollTidy w -> pollTidy (exec pause w).
Proof.
  intros Ht. pose proof Ht as [Hidle Hcur Hpos]. open_world w.
  destruct playing; eff; [| exact Ht].
  destruct (tidy_cases _ _ _ Hidle Hcur) as [-> | (_ & k & -> & ->)].
  - destruct src as [id |]; eff.
    + destruct (ns !! id) as [n |]; eff.
      * unfold stopNode. destruct (node_status n); eff;
          [constructor; fields; assumption | | |];
          destruct fid as [[| h] |]; eff; rewrite ?filter_nil; tidy_goal.
      * destruct fid as [[| h] |]; eff; rewrite ?filter_nil; tidy_goal.
    + destruct fid as [[| h] |]; eff; rewrite ?filter_nil; tidy_goal.
  - destruct k as [| k]; [congruence |].
    destruct src as [id |]; eff.
    + destruct (ns !! id) as [n |]; eff.
      * unfold stopNode. destruct (node_status n); eff;
          [constructor; fields; assumption | | |];
          rewrite filter_out_only; tidy_goal.
      * rewrite filter_out_only; tidy_goal.
    + rewrite filter_out_only; tidy_goal.
Qed.

Lemma reposition_tidy (seconds : Q) (w : World) :
  pollTidy w ->
  pollTidy {| player := setPauseOffset seconds (player w);
              browser := browser w |}.
Proof.
  intros [Hidle Hcur Hpos]. open_world w. constructor; fields; assumption.
Qed.

Lemma seek_tidy (seconds : Q) (w : World) :
  pollTidy w -> pollTidy (exec (seek seconds) w).
Proof.
  intros Ht. unfold exec. rewrite seek_unfold.
  pose proof (stop_tidy w Ht) as Hstop. unfold exec in Hstop.
  destruct (stop w) as [w1 [[] | e]]; cbn [fst snd] in *; [| exact Hstop].
  cbv zeta.
  pose proof (reposition_tidy seconds w1 Hstop) as H2.
  destruct (isPlaying (player w)); cbn [fst]; [| exact H2].
  apply play_tidy. exact H2.
Qed.

Lemma step_tidy (e : Event) (w : World) :
  enabled e w = true -> pollTidy w -> pollTidy (step e w).
Proof.
  intros Hen Ht. destruct e; unfold step; cbn [react].
  - (* load *)
    destruct Ht as [Hidle Hcur Hpos]. open_world w. eff.
    destruct (rawPcmToAudioBuffer rawPcm defaultSampleRate); eff;
      constructor; fields; assumption.
  - (* setRate *)
    destruct Ht as [Hidle Hcur Hpos]. open_world w. eff.
    destruct src; eff; constructor; fields; assumption.
  - apply play_tidy, Ht.
  - apply pause_tidy, Ht.
  - apply stop_tidy, Ht.
  - apply seek_tidy, Ht.
  - (* the clock *)
    destruct Ht as [Hidle Hcur Hpos]. open_world w. eff.
    constructor; fields; assumption.
  - (* the context resumes *)
    unfold exec, bind, ask, tell. cbn [fst snd].
    apply resumeAll_tidy.
    destruct Ht as [Hidle Hcur Hpos]. open_world w.
    constructor; fields; assumption.
  - (* a source runs out *)
    destruct Ht as [Hidle Hcur Hpos]. open_world w. eff.
    constructor; fields; assumption.
  - (* an ended event *)
    pose proof Ht as [Hidle Hcur Hpos]. open_world w. eff.
    destruct (ns !! id) as [n |]; eff;
      [| constructor; fields; assumption].
    destruct (node_onended n) as [onEnded |]; eff;
      [| constructor; fields; assumption].
    destruct lp; eff; [constructor; fields; assumption |].
    destruct (tidy_cases _ _ _ Hidle Hcur) as [-> | (_ & k & -> & ->)].
    + destruct fid as [[| h] |]; eff; destruct onEnded; eff;
        rewrite ?filter_nil; tidy_goal.
    + destruct k as [| k]; [congruence |]. eff.
      destruct onEnded; eff; rewrite filter_out_only; tidy_goal.
  - (* an animation frame *)
    cbn [enabled] in Hen. apply bool_decide_eq_true in Hen.
    pose proof Ht as [Hidle Hcur Hpos].
    destruct (Hcur handle Hen) as [Hfrs Hfid].
    open_world w. subst. eff. rewrite filter_out_only.
    destruct playing; eff; [| specialize (Hidle eq_refl); discriminate].
    destruct opc; eff; [| tidy_goal].
    destruct buf; eff; tidy_goal.
Qed.

(** X2.  In every reachable state the progress poll is tidy: no animation
    frame request is pending while [isPlaying] is false, and at most one is
    pending otherwise, the one whose handle is in [animationFrameId]. *)
Theorem reachable_pollTidy (w : World) : reachable w -> pollTidy w.
Proof.
  induction 1 as [st t0 Ht0 | e w Hw IH Hen].
  - constructor; unfold initial; fields;
      [reflexivity | intros h Hh; inversion Hh | discriminate].
  - apply step_tidy; assumption.
Qed.

Lemma playingWorld_reachable : reachable playingWorld.
Proof.
  unfold playingWorld.
  apply reach_step; [| reflexivity].
  apply reach_step; [| reflexivity].
  apply reach_step; [| reflexivity].
  apply reach_initial. apply Qle_refl.
Defined.

Lemma reachable_pollTidy_witness : pollTidy playingWorld.
Proof. exact (reachable_pollTidy playingWorld playingWorld_reachable). Defined.

(** *** The natural end of a playback *)

(** X3.  When the buffer of a non-looping playback runs out and the
    [ended] event of its node is dispatched, [isPlaying] is cleared and
    [onEnded] is invoked once; the position is neither advanced to the
    duration nor reset: [pauseOffset] keeps the offset at which the span
    began, and the node stays in [source].  The event cannot fire again. *)
Theorem natural_end (w : World) (id : nat) (n : SourceNode) :
  currentNodeIs w id n ->
  isPlaying (player w) = true -> loop (player w) = false ->
  node_status n = Playing ->
  exists w',
    run [SourceRunsOut id; EndedDispatched id] w = Some w'
    /\ isPlaying (player w') = false
    /\ pauseOffset (player w') = pauseOffset (player w)
    /\ getCurrentTime w' = pauseOffset (player w)
    /\ buffer (player w') = buffer (player w)
    /\ source (player w') = Some id
    /\ observed (browser w')
       = observed (browser w)
         ++ match onEndedCb (player w) with
            | Some cb => [EndedCalled cb]
            | None => []
            end
    /\ sounding w' id = false
    /\ enabled (EndedDispatched id) w' = false
    /\ enabled (SourceRunsOut id) w' = false.
Proof.
  intros (Hs & Hn & Hh & Hl) Hp Hlp Hst. open_world w.
  subst src playing. destruct lp; [discriminate |].
  assert (Hid : (id < length ns)%nat) by (eapply lookup_lt_Some; eauto).
  assert (Hlook : forall f g : SourceNode -> SourceNode,
             alter g id (alter f id ns) !! id = Some (g (f n))).
  { intros f g. rewrite list_lookup_alter_eq, list_lookup_alter_eq, Hn.
    reflexivity. }
  eexists. split.
  { cbn [run enabled]. eff. rewrite Hn.
    unfold nodeStatusIs at 1. rewrite Hst, Hl. cbn [negb andb].
    rewrite list_lookup_alter_eq, Hn.
    cbn [fmap option_fmap option_map node_status node_onended withStatus
         nodeStatusIs].
    rewrite Hh. eff. reflexivity. }
  destruct fid as [[| h] |]; eff; destruct oec; eff;
    (repeat split; try reflexivity;
     try (symmetry; apply app_nil_r);
     unfold sounding, enabled; fields; rewrite ?Hlook; reflexivity).
Qed.

Lemma playingWorld_currentNode :
  exists n, currentNodeIs playingWorld 0 n /\ node_status n = Playing.
Proof.
  exists (startedNode {| sampleRate := defaultSampleRate;
                         channelData := [-32768 # 32768; 32767 # 32768] |}
                      1 false onEnded1 0).
  repeat split; vm_compute; reflexivity.
Defined.

Lemma natural_end_witness :
  exists w',
    run [SourceRunsOut 0; EndedDispatched 0] playingWorld = Some w'
    /\ isPlaying (player w') = false
    /\ observed (browser w') = [EndedCalled 1%nat].
Proof.
  destruct playingWorld_currentNode as (n & Hn & Hst).
  destruct (natural_end playingWorld 0 n Hn eq_refl eq_refl Hst)
    as (w' & Hrun & Hp & _ & _ & _ & _ & Hobs & _).
  exists w'. split; [exact Hrun |]. split; [exact Hp | exact Hobs].
Defined.

(** *** A seek during a non-looping playback *)

(** X4.  [seek] during a non-looping playback stops the old node and
    starts a new one.  When the [ended] event of the old node is then
    dispatched, its handler clears [isPlaying] and invokes [onEnded]
    although the new node is sounding; a [play] after that starts one more
    node, and two nodes of the player sound at the same time. *)
Theorem seek_then_stale_ended (w : World) (id : nat) (n : SourceNode)
        (seconds : Q) (onProgress onEnded : option Callback) (lp' : bool) :
  consistent w -> currentNodeIs w id n ->
  isPlaying (player w) = true -> loop (player w) = false ->
  node_status n = Playing -> 0 <= seconds ->
  let fresh := length (nodes (browser w)) in
  exists w1 w2 w3,
    run [CallSeek seconds] w = Some w1
    /\ isPlaying (player w1) = true /\ sounding w1 fresh = true
    /\ run [EndedDispatched id] w1 = Some w2
    /\ isPlaying (player w2) = false /\ sounding w2 fresh = true
    /\ observed (browser w2)
       = observed (browser w)
         ++ match onEndedCb (player w) with
            | Some cb => [EndedCalled cb]
            | None => []
            end
    /\ run [CallPlay onProgress onEnded lp'] w2 = Some w3
    /\ sounding w3 fresh = true /\ sounding w3 (S fresh) = true.
Proof.
  intros Hc (Hs & Hn & Hh & Hl) Hp Hlp Hst Hsec fresh. subst fresh.
  pose proof (playing_running w Hc Hp) as Hcs.
  destruct (buffer (player w)) as [b |] eqn:Hb;
    [| exfalso; exact (playing_loaded w Hc Hp Hb)].
  clear Hc. apply Qle_bool_iff in Hsec.
  open_world w. subst src playing cs buf. destruct lp; [discriminate |].
  assert (Hid : (id < length ns)%nat) by (eapply lookup_lt_Some; eauto).
  set (ns1 := <[id := withStatus Finished n]> ns).
  assert (Hlen1 : length ns1 = length ns) by apply length_insert.
  assert (Hn1 : forall m : SourceNode,
             (ns1 ++ [m]) !! id = Some (withStatus Finished n)).
  { intros m. rewrite lookup_app_l by lia.
    apply list_lookup_insert_eq. exact Hid. }
  assert (Hnew : forall (f : SourceNode -> SourceNode) (m : SourceNode),
             alter f id (ns1 ++ [m]) !! length ns = Some m).
  { intros f m. rewrite list_lookup_alter_ne by lia.
    rewrite <- Hlen1. apply lookup_new_node. }
  assert (Hlen2 : forall (f : SourceNode -> SourceNode) (m : SourceNode),
             length (alter f id (ns1 ++ [m])) = S (length ns)).
  { intros f m. rewrite length_alter, length_app, Hlen1. cbn. lia. }
  assert (Hseek :
            forall fid',
              exec (seek seconds)
                   {| player := mkPCMPlayer (Some b) (Some id) true rate off
                                            st opc oec false fid';
                      browser := mkBrowser Running now ns lfh frs parked
                                           obs |}
              = {| player :=
                     mkPCMPlayer (Some b) (Some (length ns)) true rate seconds
                                 now opc oec false (Some (S lfh));
                   browser :=
                     mkBrowser Running now
                               (ns1 ++ [startedNode b rate false oec seconds])
                               (S lfh)
                               (match fid' with
                                | Some (S h) =>
                                    filter (fun x => x <> S h) frs
                                | _ => frs
                                end ++ [S lfh])
                               parked obs |}).
  { intros fid'. eff. rewrite Hn. eff. unfold stopNode. rewrite Hst. eff.
    fold ns1.
    destruct fid' as [[| h] |]; eff;
      rewrite !alter_new_node, lookup_new_node; eff;
      unfold startNode;
      cbn [node_status freshNode withOnended withLoop withPlaybackRate
                       withBuffer];
      rewrite Hsec; eff; rewrite insert_new_node, Hlen1; reflexivity. }
  eexists _, _, _.
  split. { cbn [run enabled]. unfold step, react. rewrite Hseek.
           reflexivity. }
  split; [reflexivity |].
  split. { unfold sounding. fields. rewrite <- Hlen1, lookup_new_node.
           reflexivity. }
  split.
  { cbn [run enabled]. fields. rewrite Hn1.
    cbn [nodeStatusIs node_status withStatus]. reflexivity. }
  assert (Hended :
            forall frs',
              step (EndedDispatched id)
                   {| player :=
                        mkPCMPlayer (Some b) (Some (length ns)) true rate
                                    seconds now opc oec false (Some (S lfh));
                      browser :=
                        mkBrowser Running now
                                  (ns1 ++ [startedNode b rate false oec
                                                       seconds])
                                  (S lfh) frs' parked obs |}
              = {| player :=
                     mkPCMPlayer (Some b) (Some (length ns)) false rate
                                 seconds now opc oec false (Some (S lfh));
                   browser :=
                     mkBrowser Running now
                               (alter (withStatus Ended) id
                                      (ns1 ++ [startedNode b rate false oec
                                                           seconds]))
                               (S lfh)
                               (filter (fun x => x <> S lfh) frs')
                               parked
                               (obs ++ match oec with
                                       | Some cb => [EndedCalled cb]
                                       | None => []
                                       end) |}).
  { intros frs'. eff. rewrite Hn1.
    cbn [node_onended withStatus]. rewrite Hh. eff.
    destruct oec; eff; [reflexivity |]. rewrite app_nil_r. reflexivity. }
  rewrite Hended.
  split; [reflexivity |].
  split. { unfold sounding. fields. rewrite Hnew. reflexivity. }
  split; [reflexivity |].
  split. { cbn [run enabled]. reflexivity. }
  unfold step, react.
  match goal with
  | |- context [exec (play _ _ _) ?v] =>
      unfold exec;
      rewrite (f_equal fst (play_starts v b onProgress onEnded lp'
                                        eq_refl eq_refl eq_refl
                                        (proj1 (Qle_bool_iff _ _) Hsec)))
  end.
  unfold sounding. fields. split.
  - rewrite lookup_app_l by (rewrite Hlen2; lia). rewrite Hnew. reflexivity.
  - rewrite <- (Hlen2 (withStatus Ended) (startedNode b rate false oec seconds)).
    rewrite lookup_new_node. reflexivity.
Qed.

Lemma seek_then_stale_ended_witness :
  exists w3, sounding w3 1 = true /\ sounding w3 2 = true.
Proof.
  destruct playingWorld_currentNode as (n & Hn & Hst).
  assert (H01 : 0 <= 1) by (apply Qle_bool_iff; reflexivity).
  destruct (seek_then_stale_ended playingWorld 0 n 1 None None false
                                  playingWorld_consistent Hn eq_refl eq_refl
                                  Hst H01)
    as (w1 & w2 & w3 & _ & _ & _ & _ & _ & _ & _ & _ & H1 & H2).
  exists w3. split; [exact H1 | exact H2].
Defined.

(** *** stop *)

(** X5.  On a player whose current node, if any, was started, [stop]
    never throws: it silences that node, clears [source] and [isPlaying],
    resets the position to 0 and keeps the buffer, the rate and the
    registered callbacks.  A [play] after it, with a running context,
    starts a new node at offset 0. *)
Theorem stop_resets (w : World) :
  sourceStarted w ->
  let w' := exec stop w in
  result stop w = Ok tt
  /\ isPlaying (player w') = false
  /\ source (player w') = None
  /\ pauseOffset (player w') = 0
  /\ getCurrentTime w' = 0
  /\ buffer (player w') = buffer (player w)
  /\ playbackRate (player w') = playbackRate (player w)
  /\ onProgressCb (player w') = onProgressCb (player w)
  /\ onEndedCb (player w') = onEndedCb (player w)
  /\ (forall id, source (player w) = Some id -> sounding w' id = false)
  /\ (forall id, sounding w' id = true -> sounding w id = true)
  /\ (forall b onProgress onEnded lp,
         buffer (player w) = Some b -> ctxState (browser w) = Running ->
         exists n,
           nodes (browser (exec (play onProgress onEnded lp) w'))
           !! length (nodes (browser w)) = Some n
           /\ node_status n = Playing /\ node_offset n = Some 0
           /\ isPlaying (player (exec (play onProgress onEnded lp) w'))
              = true).
Proof.
  intros Hst w'. subst w'.
  destruct (stop_spec w Hst)
    as (Hres & Hpl & Hcs & Hnow & Hpk & Hlen & Hoff & Hmono).
  split; [exact Hres |]. rewrite Hpl.
  split; [reflexivity |]. split; [reflexivity |]. split; [reflexivity |].
  split. { unfold getCurrentTime. rewrite Hpl. reflexivity. }
  destruct w as [p br]. destruct p. fields.
  split; [reflexivity |]. split; [reflexivity |]. split; [reflexivity |].
  split; [reflexivity |]. split; [exact Hoff |]. split; [exact Hmono |].
  intros b onProgress' onEnded' lp' Hb Hrun. subst.
  match goal with
  | |- context [exec (play _ _ _) ?v] =>
      assert (Hplay := play_starts v b onProgress' onEnded' lp')
  end.
  rewrite Hcs, Hpl in Hplay.
  specialize (Hplay Hrun eq_refl eq_refl (Qle_refl 0)).
  unfold exec at 1 3. rewrite Hplay. fields.
  eexists. rewrite <- Hlen. split; [apply lookup_new_node |].
  repeat split.
Qed.

Lemma stop_resets_witness :
  result stop playingWorld = Ok tt
  /\ isPlaying (player (exec stop playingWorld)) = false.
Proof.
  pose proof (stop_resets playingWorld playingWorld_sourceStarted) as H.
  split; [exact (proj1 H) | exact (proj1 (proj2 H))].
Defined.

(** X6.  When the current node was never started (a [play] whose
    [start] was rejected leaves such a node in [source]), [stop] and
    [seek] throw InvalidStateError at their first statement and change
    nothing; [pause] does nothing, the player not being marked as playing.
    A [load] followed by [play] gets the player going again. *)
Theorem unstarted_source_blocks_stop (w : World) (id : nat)
        (n : SourceNode) :
  source (player w) = Some id ->
  nodes (browser w) !! id = Some n ->
  node_status n = Unstarted ->
  isPlaying (player w) = false ->
  stop w = (w, Throw InvalidStateError)
  /\ (forall seconds, seek seconds w = (w, Throw InvalidStateError))
  /\ pause w = (w, Ok tt)
  /\ (forall rawPcm onProgress onEnded lp,
         (2 <= length rawPcm)%nat -> ctxState (browser w) = Running ->
         isPlaying
           (player (exec (play onProgress onEnded lp)
                         (exec (load rawPcm) w))) = true).
Proof.
  intros Hs Hn Hst Hp.
  assert (Hstop : stop w = (w, Throw InvalidStateError)).
  { open_world w. subst. eff. rewrite Hn. eff. unfold stopNode.
    rewrite Hst. reflexivity. }
  split; [exact Hstop |].
  split. { intros seconds. rewrite seek_unfold, Hstop. reflexivity. }
  split. { open_world w. subst. reflexivity. }
  intros rawPcm onProgress onEnded lp Hlen Hcs.
  destruct (load_ok rawPcm w Hlen) as (b & _ & _ & _ & Hload).
  unfold exec at 2. rewrite Hload. cbn [fst].
  match goal with
  | |- context [exec (play _ _ _) ?v] =>
      assert (Hplay := play_starts v b onProgress onEnded lp)
  end.
  destruct w as [p br]. destruct p. fields. subst.
  specialize (Hplay Hcs eq_refl eq_refl (Qle_refl 0)).
  unfold exec. rewrite Hplay. reflexivity.
Qed.

Lemma unstarted_source_blocks_stop_witness :
  stop (exec (seek (-1)) playingWorld)
  = (exec (seek (-1)) playingWorld, Throw InvalidStateError).
Proof.
  apply (unstarted_source_blocks_stop
           (exec (seek (-1)) playingWorld) 1
           {| node_buffer :=
                Some {| sampleRate := defaultSampleRate;
                        channelData := [-32768 # 32768; 32767 # 32768] |};
              node_playbackRate := 1; node_loop := false;
              node_onended := Some onEnded1; node_offset := None;
              node_status := Unstarted |});
    vm_compute; reflexivity.
Defined.

(** *** setRate *)

(** X7.  [setRate] never throws, creates and stops no node, and changes
    only [playbackRate] and the rate of the current node.  The reported
    position of a non-looping playback becomes the offset plus the whole
    elapsed time scaled by the new rate. *)
Theorem setRate_is_live (w : World) (rate : Q) :
  let w' := exec (setRate rate) w in
  result (setRate rate) w = Ok tt
  /\ player w' = setPlaybackRate rate (player w)
  /\ length (nodes (browser w')) = length (nodes (browser w))
  /\ (forall id, sounding w' id = sounding w id)
  /\ (forall id n, source (player w) = Some id ->
                   nodes (browser w) !! id = Some n ->
                   nodes (browser w') !! id = Some (withPlaybackRate rate n))
  /\ (isPlaying (player w) = true -> loop (player w) = false ->
      getCurrentTime w'
      = pauseOffset (player w)
        + (currentTime (browser w) - startTime (player w)) * rate).
Proof.
  open_world w. eff. destruct src as [id |]; eff.
  - split; [reflexivity |]. split; [reflexivity |].
    split; [apply length_alter |]. split.
    { intros i. unfold sounding. fields.
      destruct (Nat.eq_dec id i) as [-> | Hne].
      - rewrite list_lookup_alter_eq. destruct (ns !! i); reflexivity.
      - rewrite list_lookup_alter_ne by exact Hne. reflexivity. }
    split.
    { intros i n [= <-] Hn. rewrite list_lookup_alter_eq, Hn. reflexivity. }
    intros -> ->. reflexivity.
  - split; [reflexivity |]. split; [reflexivity |].
    split; [reflexivity |]. split; [reflexivity |].
    split; [intros; discriminate |]. intros -> ->. reflexivity.
Qed.

Lemma setRate_is_live_witness :
  getCurrentTime (exec (setRate (3 # 4)) playingWorld)
  = 0 + (0 + 3 - 0) * (3 # 4).
Proof.
  apply (proj2 (proj2 (proj2 (proj2 (proj2
           (setRate_is_live playingWorld (3 # 4))))))); reflexivity.
Defined.

(** *** play on a suspended context *)

(** X8.  Two [play] calls on a suspended context both wait; when the
    context resumes, the first starts the playback with its own callbacks
    and loop flag and the second finds the player playing: one node is
    created. *)
Theorem suspended_plays_start_once (w : World) (b : AudioBuffer)
        (p1 e1 p2 e2 : option Callback) (l1 l2 : bool) :
  ctxState (browser w) = Suspended ->
  awaitingResume (browser w) = [] ->
  buffer (player w) = Some b ->
  isPlaying (player w) = false ->
  0 <= pauseOffset (player w) ->
  exists w',
    run [CallPlay p1 e1 l1; CallPlay p2 e2 l2; ContextResumes] w = Some w'
    /\ isPlaying (player (step (CallPlay p2 e2 l2)
                               (step (CallPlay p1 e1 l1) w))) = false
    /\ isPlaying (player w') = true
    /\ nodes (browser w')
       = nodes (browser w)
         ++ [startedNode b (playbackRate (player w)) l1 e1
                         (pauseOffset (player w))]
    /\ onProgressCb (player w') = p1
    /\ onEndedCb (player w') = e1
    /\ loop (player w') = l1
    /\ awaitingResume (browser w') = [].
Proof.
  intros Hcs Hpk Hb Hp Hoff. apply Qle_bool_iff in Hoff.
  open_world w. subst. eexists. split.
  { cbn [run enabled]. eff. cbn [app resumeAll]. eff.
    rewrite !alter_new_node, lookup_new_node. eff.
    unfold startNode.
    cbn [node_status freshNode withOnended withLoop withPlaybackRate
                     withBuffer arg_onProgress arg_onEnded arg_loop].
    rewrite Hoff. eff. rewrite insert_new_node. reflexivity. }
  repeat split.
Qed.

Lemma suspended_plays_start_once_witness :
  exists w',
    run [CallPlay onProgress0 onEnded1 true; CallPlay None None false;
         ContextResumes]
        (step (CallLoad fourBytes) (initial Suspended 0)) = Some w'
    /\ isPlaying (player w') = true
    /\ length (nodes (browser w')) = 1%nat
    /\ loop (player w') = true.
Proof.
  assert (H00 : 0 <= 0) by apply Qle_refl.
  destruct (suspended_plays_start_once
              (step (CallLoad fourBytes) (initial Suspended 0))
              {| sampleRate := defaultSampleRate;
                 channelData := [-32768 # 32768; 32767 # 32768] |}
              onProgress0 onEnded1 None None true false
              eq_refl eq_refl eq_refl eq_refl H00)
    as (w' & Hrun & _ & Hp & Hn & _ & _ & Hl & _).
  exists w'. split; [exact Hrun |]. split; [exact Hp |].
  split; [rewrite Hn; reflexivity | exact Hl].
Defined.

(** X9.  A [play] called before any [load] on a suspended context is not
    lost: the guard is evaluated when the context resumes, so if a buffer
    has been loaded by then, the playback starts. *)
Theorem suspended_play_sees_later_load (w : World) (rawPcm : Uint8Array)
        (onProgress onEnded : option Callback) (lp : bool) :
  unloaded w ->
  ctxState (browser w) = Suspended ->
  awaitingResume (browser w) = [] ->
  (2 <= length rawPcm)%nat ->
  exists w' b,
    run [CallPlay onProgress onEnded lp; CallLoad rawPcm; ContextResumes] w
    = Some w'
    /\ rawPcmToAudioBuffer rawPcm defaultSampleRate = Ok b
    /\ isPlaying (player w') = true
    /\ nodes (browser w')
       = nodes (browser w)
         ++ [startedNode b (playbackRate (player w)) lp onEnded 0].
Proof.
  intros [Hb Hp Hs Hf] Hcs Hpk Hlen.
  destruct (PcmFacts.decode_ok rawPcm defaultSampleRate Hlen)
    as (b & Hdec & _).
  open_world w. subst. eexists _, b. split.
  { cbn [run enabled]. eff. rewrite Hdec. eff. cbn [app resumeAll]. eff.
    rewrite !alter_new_node, lookup_new_node. eff.
    unfold startNode.
    cbn [node_status freshNode withOnended withLoop withPlaybackRate
                     withBuffer arg_onProgress arg_onEnded arg_loop].
    replace (Qle_bool 0 0) with true by reflexivity. eff.
    rewrite insert_new_node. reflexivity. }
  repeat split. exact Hdec.
Qed.

Lemma suspended_play_sees_later_load_witness :
  exists w',
    run [CallPlay None None false; CallLoad fourBytes; ContextResumes]
        (initial Suspended 0) = Some w'
    /\ isPlaying (player w') = true.
Proof.
  destruct (suspended_play_sees_later_load
              (initial Suspended 0) fourBytes None None false
              (unloaded_initial Suspended 0) eq_refl eq_refl)
    as (w' & b & Hrun & _ & Hp & _).
  - cbn. lia.
  - exists w'. split; [exact Hrun | exact Hp].
Defined.

(** *** Who invokes the callbacks *)

Lemma playBody_silent (w : World) (onProgress onEnded : option Callback)
      (lp : bool) :
  observed (browser (exec (playBody onProgress onEnded lp) w))
  = observed (browser w).
Proof.
  destruct (isPlaying (player w)) eqn:Hp.
  { unfold exec. rewrite playBody_guard by auto. reflexivity. }
  destruct (buffer (player w)) as [b |] eqn:Hb.
  2: { unfold exec. rewrite playBody_guard by auto. reflexivity. }
  open_world w. subst. eff. rewrite !alter_new_node, lookup_new_node. eff.
  unfold startNode. cbn [node_status freshNode withOnended withLoop
                         withPlaybackRate withBuffer].
  destruct (Qle_bool 0 off); reflexivity.
Qed.

Lemma resumeAll_silent (parked : list PlayArgs) :
  forall w, observed (browser (exec (resumeAll parked) w))
            = observed (browser w).
Proof.
  induction parked as [| a rest IH]; intros w; [reflexivity |].
  cbn [resumeAll]. unfold exec, bind, detached. cbn [fst].
  unfold exec in IH. rewrite IH. apply playBody_silent.
Qed.

Lemma play_silent (w : World) (onProgress onEnded : option Callback)
      (lp : bool) :
  observed (browser (exec (play onProgress onEnded lp) w))
  = observed (browser w).
Proof.
  destruct (ctxState (browser w)) eqn:Hcs.
  - open_world w. subst. reflexivity.
  - replace (exec (play onProgress onEnded lp) w)
      with (exec (playBody onProgress onEnded lp) w).
    + apply playBody_silent.
    + unfold exec, play, bind, ask. rewrite Hcs. reflexivity.
Qed.

Lemma stop_silent (w : World) :
  observed (browser (exec stop w)) = observed (browser w).
Proof.
  open_world w. eff. destruct src as [id |]; eff.
  - destruct (ns !! id) as [n |]; eff.
    + unfold stopNode. destruct (node_status n); eff;
        try reflexivity; destruct fid as [[| h] |]; reflexivity.
    + destruct fid as [[| h] |]; reflexivity.
  - destruct fid as [[| h] |]; reflexivity.
Qed.

(** X10.  The callbacks are invoked from two places only.  An animation
    frame invokes [onProgress] once, with the current position and the
    duration, when the player is playing and the callback is registered;
    the dispatch of an [ended] event invokes the [onEnded] its handler
    closed over when [this.loop] is false.  No method of the player and no
    other event invokes a callback. *)
Theorem callbacks_only_from_events (e : Event) (w : World) :
  calledBy e w
  = match e with
    | FrameFires _ => progressReport w
    | EndedDispatched id => endedReport w id
    | _ => []
    end.
Proof.
  unfold calledBy.
  assert (Hdrop : forall (obs l : list Observation),
             drop (length obs) (obs ++ l) = l).
  { intros obs l. rewrite drop_app_length. reflexivity. }
  assert (Hsame : forall obs : list Observation, drop (length obs) obs = []).
  { intros obs. apply drop_all. }
  destruct e; unfold step; cbn [react].
  - open_world w. eff.
    destruct (rawPcmToAudioBuffer rawPcm defaultSampleRate); apply Hsame.
  - open_world w. eff. destruct src; apply Hsame.
  - rewrite play_silent. apply Hsame.
  - open_world w. eff. destruct playing; eff; [| apply Hsame].
    destruct src as [id |]; eff.
    + destruct (ns !! id) as [n |]; eff.
      * unfold stopNode. destruct (node_status n); eff;
          try apply Hsame; destruct fid as [[| h] |]; apply Hsame.
      * destruct fid as [[| h] |]; apply Hsame.
    + destruct fid as [[| h] |]; apply Hsame.
  - rewrite stop_silent. apply Hsame.
  - unfold exec. rewrite seek_unfold.
    pose proof (stop_silent w) as Hstop. unfold exec in Hstop.
    destruct (stop w) as [w1 [[] | err]]; cbn [fst snd] in *;
      [| rewrite Hstop; apply Hsame].
    cbv zeta. destruct (isPlaying (player w)); cbn [fst].
    + rewrite play_silent. cbn [browser]. rewrite Hstop. apply Hsame.
    + cbn [browser]. rewrite Hstop. apply Hsame.
  - open_world w. apply Hsame.
  - unfold exec, bind, ask, tell. cbn [fst snd].
    pose proof (resumeAll_silent (awaitingResume (browser w))) as Hres.
    unfold exec in Hres. rewrite Hres. open_world w. apply Hsame.
  - open_world w. apply Hsame.
  - unfold endedReport. open_world w. eff.
    destruct (ns !! id) as [n |]; eff; [| apply Hsame].
    destruct (node_onended n) as [[cb |] |]; eff;
      destruct lp; eff; try apply Hsame;
      destruct fid as [[| h] |]; eff; try apply Hsame; apply Hdrop.
  - unfold progressReport. open_world w. eff.
    destruct playing; eff; [| apply Hsame].
    destruct opc; eff; [| apply Hsame].
    destruct buf; eff; [| apply Hsame].
    unfold getCurrentTime. fields. apply Hdrop.
Qed.

(** *** The handler of the current node *)

Lemma installed_alter (f : SourceNode -> SourceNode) (k : nat) (w w' : World) :
  (forall m, node_onended (f m) = node_onended m
             /\ node_loop (f m) = node_loop m) ->
  source (player w') = source (player w) ->
  onEndedCb (player w') = onEndedCb (player w) ->
  loop (player w') = loop (player w) ->
  nodes (browser w') = alter f k (nodes (browser w)) ->
  (isPlaying (player w') = true -> isPlaying (player w) = true) ->
  installed w -> installed w'.
Proof.
  intros Hf Hs He Hl Hn Hp Hi Hp'.
  destruct (Hi (Hp Hp')) as (id & n & Hid & Hlook & Hh & Hlp).
  destruct (Nat.eq_dec k id) as [-> | Hne].
  - exists id, (f n). unfold currentNodeIs.
    rewrite Hs, He, Hl, Hn, list_lookup_alter_eq, Hlook.
    destruct (Hf n) as [-> ->]. auto.
  - exists id, n. unfold currentNodeIs.
    rewrite Hs, He, Hl, Hn, list_lookup_alter_ne by exact Hne. auto.
Qed.

Lemma installed_same_nodes (w w' : World) :
  source (player w') = source (player w) ->
  onEndedCb (player w') = onEndedCb (player w) ->
  loop (player w') = loop (player w) ->
  nodes (browser w') = nodes (browser w) ->
  (isPlaying (player w') = true -> isPlaying (player w) = true) ->
  installed w -> installed w'.
Proof.
  intros Hs He Hl Hn Hp Hi Hp'.
  destruct (Hi (Hp Hp')) as (id & n & Hid & Hlook & Hh & Hlp).
  exists id, n. unfold currentNodeIs. rewrite Hs, He, Hl, Hn. auto.
Qed.

Lemma installed_idle (w : World) :
  isPlaying (player w) = false -> installed w.
Proof. intros Hp Hp'. congruence. Qed.

Lemma playBody_installed (w : World) (onProgress onEnded : option Callback)
      (lp : bool) :
  installed w -> installed (exec (playBody onProgress onEnded lp) w).
Proof.
  intros Hi.
  destruct (isPlaying (player w)) eqn:Hp.
  { unfold exec. rewrite playBody_guard by auto. exact Hi. }
  destruct (buffer (player w)) as [b |] eqn:Hb.
  2: { unfold exec. rewrite playBody_guard by auto. exact Hi. }
  clear Hi. open_world w. subst. eff.
  rewrite !alter_new_node, lookup_new_node. eff.
  unfold startNode. cbn [node_status freshNode withOnended withLoop
                         withPlaybackRate withBuffer].
  destruct (Qle_bool 0 off); eff.
  - intros _. eexists _, _. unfold currentNodeIs. fields.
    split; [reflexivity |]. rewrite insert_new_node.
    split; [apply lookup_new_node |]. split; reflexivity.
  - apply installed_idle. reflexivity.
Qed.

Lemma play_installed (w : World) (onProgress onEnded : option Callback)
      (lp : bool) :
  installed w -> installed (exec (play onProgress onEnded lp) w).
Proof.
  intros Hi. destruct (ctxState (browser w)) eqn:Hcs.
  - eapply installed_same_nodes; [.. | exact Hi];
      open_world w; subst; eff; auto.
  - replace (exec (play onProgress onEnded lp) w)
      with (exec (playBody onProgress onEnded lp) w).
    + apply playBody_installed. exact Hi.
    + unfold exec, play, bind, ask. rewrite Hcs. reflexivity.
Qed.

Lemma resumeAll_installed (parked : list PlayArgs) :
  forall w, installed w -> installed (exec (resumeAll parked) w).
Proof.
  induction parked as [| a rest IH]; intros w Hi; [exact Hi |].
  cbn [resumeAll]. unfold exec, bind, detached. cbn [fst].
  apply IH. apply playBody_installed. exact Hi.
Qed.

Lemma stop_installed (w : World) : installed w -> installed (exec stop w).
Proof.
  intros Hi. open_world w. eff. destruct src as [id |]; eff.
  - destruct (ns !! id) as [n |]; eff.
    + unfold stopNode. destruct (node_status n); eff; [exact Hi | | |];
        destruct fid as [[| h] |]; eff; apply installed_idle; reflexivity.
    + destruct fid as [[| h] |]; eff; apply installed_idle; reflexivity.
  - destruct fid as [[| h] |]; eff; apply installed_idle; reflexivity.
Qed.

Lemma step_installed (e : Event) (w : World) :
  installed w -> installed (step e w).
Proof.
  intros Hi. destruct e; unfold step; cbn [react].
  - eapply installed_same_nodes; [.. | exact Hi]; open_world w; eff;
      destruct (rawPcmToAudioBuffer rawPcm defaultSampleRate); eff; auto.
  - destruct (source (player w)) as [id |] eqn:Hs.
    + eapply (installed_alter (withPlaybackRate rate) id); [| .. | exact Hi];
        [intros m; split; reflexivity | ..];
        open_world w; subst; eff; auto.
    + eapply installed_same_nodes; [.. | exact Hi];
        open_world w; subst; eff; auto.
  - apply play_installed, Hi.
  - destruct (isPlaying (player w)) eqn:Hp.
    2: { replace (exec pause w) with w; [exact Hi |].
         open_world w. subst. reflexivity. }
    open_world w. subst. eff. destruct src as [id |]; eff.
    + destruct (ns !! id) as [n |]; eff.
      * unfold stopNode. destruct (node_status n); eff;
          [| destruct fid as [[| h] |]; eff; apply installed_idle;
             reflexivity ..].
        eapply installed_same_nodes; [.. | exact Hi]; auto.
      * destruct fid as [[| h] |]; eff; apply installed_idle; reflexivity.
    + destruct fid as [[| h] |]; eff; apply installed_idle; reflexivity.
  - apply stop_installed, Hi.
  - unfold exec. rewrite seek_unfold.
    pose proof (stop_installed w Hi) as Hstop. unfold exec in Hstop.
    destruct (stop w) as [w1 [[] | err]]; cbn [fst snd] in *;
      [| exact Hstop].
    cbv zeta.
    assert (H2 : installed {| player := setPauseOffset seconds (player w1);
                              browser := browser w1 |}).
    { eapply installed_same_nodes; [.. | exact Hstop];
        destruct w1 as [[] ?]; auto. }
    destruct (isPlaying (player w)); cbn [fst]; [| exact H2].
    apply play_installed. exact H2.
  - eapply installed_same_nodes; [.. | exact Hi]; open_world w; eff; auto.
  - unfold exec, bind, ask, tell. cbn [fst snd].
    apply resumeAll_installed.
    eapply installed_same_nodes; [.. | exact Hi]; open_world w; eff; auto.
  - eapply (installed_alter (withStatus Finished) id); [| .. | exact Hi];
      [intros m; split; reflexivity | ..]; open_world w; eff; auto.
  - destruct (loop (player w)) eqn:Hl.
    + eapply (installed_alter (withStatus Ended) id); [| .. | exact Hi];
        [intros m; split; reflexivity | ..]; open_world w; subst; eff;
        destruct (ns !! id) as [n |]; eff; auto;
        destruct (node_onended n); eff; auto.
    + open_world w. subst. eff.
      destruct (ns !! id) as [n |] eqn:Hn; eff.
      2: { eapply (installed_alter (withStatus Ended) id); [| .. | exact Hi];
           [intros m; split; reflexivity | ..]; auto. }
      destruct (node_onended n) as [onEnded |]; eff.
      2: { eapply (installed_alter (withStatus Ended) id); [| .. | exact Hi];
           [intros m; split; reflexivity | ..]; auto. }
      destruct fid as [[| h] |]; eff; destruct onEnded; eff;
        apply installed_idle; reflexivity.
  - eapply installed_same_nodes; [.. | exact Hi]; open_world w; eff;
      destruct playing; eff; auto; destruct opc; eff; auto;
      destruct buf; eff; auto.
Qed.

(** X11.  In every reachable state in which the player is playing, the
    node in [source] carries the handler that closes over the registered
    [onEnded] and the loop flag the player holds. *)
Theorem reachable_installed (w : World) : reachable w -> installed w.
Proof.
  induction 1 as [st t0 Ht0 | e w Hw IH Hen].
  - apply installed_idle. reflexivity.
  - apply step_installed. exact IH.
Qed.

Lemma reachable_installed_witness : installed playingWorld.
Proof. exact (reachable_installed playingWorld playingWorld_reachable). Defined.

Lemma reachable_consistent_witness : consistent playingWorld.
Proof. exact (reachable_consistent playingWorld playingWorld_reachable). Defined.

End TransportFacts.

(** ** More about the decoder *)

Module DecoderFacts.
Import Dom WebAudio Pcm PcmFacts Samples.

Lemma byteValue_inj (b b' : Byte.byte) : byteValue b = byteValue b' -> b = b'.
Proof.
  unfold byteValue. intros H. apply N2Z.inj in H.
  pose proof (Byte.of_to_N b) as Hb. rewrite H, Byte.of_to_N in Hb.
  congruence.
Qed.

Lemma int16LE_inj (b0 b1 c0 c1 : Byte.byte) :
  int16LE b0 b1 = int16LE c0 c1 -> b0 = c0 /\ b1 = c1.
Proof.
  unfold int16LE, toInt16.
  pose proof (byteValue_range b0). pose proof (byteValue_range b1).
  pose proof (byteValue_range c0). pose proof (byteValue_range c1).
  intros H3.
  assert (byteValue b0 = byteValue c0 /\ byteValue b1 = byteValue c1)
    as [H4 H5].
  { destruct (Z.ltb_spec (byteValue b0 + 256 * byteValue b1) 32768);
      destruct (Z.ltb_spec (byteValue c0 + 256 * byteValue c1) 32768); lia. }
  split; apply byteValue_inj; assumption.
Qed.

Lemma sample_inj (v v' : Z) :
  inject_Z v / 32768 = inject_Z v' / 32768 -> v = v'.
Proof.
  unfold Qdiv, Qmult, Qinv, inject_Z. cbn [Qnum Qden].
  intros [= H]. lia.
Qed.

Lemma half_even (n : nat) : (n mod 2 = 0)%nat -> (n = n / 2 * 2)%nat.
Proof. intros H. pose proof (Nat.div_mod_eq n 2). lia. Qed.

(** X12.  Decoding loses nothing: two byte sequences of even length that
    decode to the same buffer are equal. *)
Theorem decode_injective (a b : Uint8Array) (rate : Q) (buf : AudioBuffer) :
  (length a mod 2 = 0)%nat -> (length b mod 2 = 0)%nat ->
  rawPcmToAudioBuffer a rate = Ok buf ->
  rawPcmToAudioBuffer b rate = Ok buf ->
  a = b.
Proof.
  intros Ha Hb Hda Hdb.
  destruct (le_lt_dec 2 (length a)) as [Hla | Hla];
    [| rewrite decode_short in Hda by exact Hla; discriminate].
  destruct (le_lt_dec 2 (length b)) as [Hlb | Hlb];
    [| rewrite decode_short in Hdb by exact Hlb; discriminate].
  destruct (decode_ok a rate Hla) as (ba & Hba & _ & Hlena & Hsa).
  destruct (decode_ok b rate Hlb) as (bb & Hbb & _ & Hlenb & Hsb).
  rewrite Hda in Hba. injection Hba as <-.
  rewrite Hdb in Hbb. injection Hbb as <-.
  pose proof (half_even _ Ha) as Hea. pose proof (half_even _ Hb) as Heb.
  assert (Hlen : length a = length b) by lia.
  apply list_eq. intros j.
  destruct (le_lt_dec (length a) j) as [Hge | Hlt].
  { rewrite !lookup_ge_None_2 by lia. reflexivity. }
  set (i := (j / 2)%nat).
  assert (Hi : (i < length a / 2)%nat).
  { subst i. apply Nat.Div0.div_lt_upper_bound. lia. }
  pose proof (Hsa i Hi) as H1. rewrite Hsb in H1 by lia.
  unfold sampleAt in H1.
  destruct (lookup_lt_is_Some_2 a (i * 2)%nat) as [a0 Ha0]; [lia |].
  destruct (lookup_lt_is_Some_2 a (S (i * 2))) as [a1 Ha1]; [lia |].
  destruct (lookup_lt_is_Some_2 b (i * 2)%nat) as [b0 Hb0]; [lia |].
  destruct (lookup_lt_is_Some_2 b (S (i * 2))) as [b1 Hb1]; [lia |].
  rewrite Ha0, Ha1, Hb0, Hb1 in H1. injection H1 as H1.
  destruct (int16LE_inj b0 b1 a0 a1) as [-> ->].
  { apply sample_inj. unfold Qdiv, Qmult, Qinv, inject_Z. cbn [Qnum Qden].
    f_equal. exact H1. }
  pose proof (Nat.div_mod_eq j 2) as Hj.
  assert (Hm : (j mod 2 < 2)%nat) by (apply Nat.mod_upper_bound; lia).
  destruct (Nat.eq_dec (j mod 2) 0%nat) as [H0 | H0].
  - replace j with (i * 2)%nat by (subst i; lia). congruence.
  - replace j with (S (i * 2)) by (subst i; lia). congruence.
Qed.

Lemma decode_injective_witness :
  fourBytes = [Byte.x00; Byte.x80; Byte.xff; Byte.x7f].
Proof.
  apply (decode_injective fourBytes [Byte.x00; Byte.x80; Byte.xff; Byte.x7f]
                          defaultSampleRate
                          {| sampleRate := defaultSampleRate;
                             channelData := [-32768 # 32768;
                                             32767 # 32768] |});
    reflexivity.
Defined.

(** X13.  Decoding distributes over concatenation at a sample boundary:
    the samples of [a ++ b], for [a] of even length, are the samples of
    [a] followed by those of [b]. *)
Theorem decode_append (a b : Uint8Array) (rate : Q) :
  (length a mod 2 = 0)%nat -> (2 <= length a)%nat -> (2 <= length b)%nat ->
  exists ba bb bab,
    rawPcmToAudioBuffer a rate = Ok ba
    /\ rawPcmToAudioBuffer b rate = Ok bb
    /\ rawPcmToAudioBuffer (a ++ b) rate = Ok bab
    /\ channelData bab = channelData ba ++ channelData bb.
Proof.
  intros Ha Hla Hlb.
  destruct (decode_ok a rate Hla) as (ba & Hba & _ & Hlena & Hsa).
  destruct (decode_ok b rate Hlb) as (bb & Hbb & _ & Hlenb & Hsb).
  assert (Hlab : (2 <= length (a ++ b))%nat) by (rewrite length_app; lia).
  destruct (decode_ok (a ++ b) rate Hlab) as (bab & Hbab & _ & Hlenab & Hsab).
  exists ba, bb, bab. repeat split; try assumption.
  pose proof (half_even _ Ha) as Hea.
  assert (Hhalf : (length (a ++ b) / 2 = length a / 2 + length b / 2)%nat).
  { rewrite length_app. rewrite Hea at 1.
    rewrite Nat.add_comm, Nat.div_add by lia. lia. }
  apply list_eq. intros i.
  destruct (le_lt_dec (length a / 2 + length b / 2) i) as [Hge | Hlt].
  { rewrite !lookup_ge_None_2; [reflexivity | |].
    - rewrite length_app. lia.
    - lia. }
  rewrite Hsab by lia.
  destruct (le_lt_dec (length a / 2) i) as [Hhi | Hlo].
  - rewrite lookup_app_r by lia. rewrite Hlena, Hsb by lia.
    unfold sampleAt.
    rewrite !lookup_app_r by lia.
    replace (i * 2 - length a)%nat with ((i - length a / 2) * 2)%nat by lia.
    replace (S (i * 2) - length a)%nat
      with (S ((i - length a / 2) * 2)) by lia.
    reflexivity.
  - rewrite lookup_app_l by lia. rewrite Hsa by lia.
    unfold sampleAt. rewrite !lookup_app_l by lia. reflexivity.
Qed.

Lemma decode_append_witness :
  exists ba bb bab,
    rawPcmToAudioBuffer fourBytes defaultSampleRate = Ok ba
    /\ rawPcmToAudioBuffer fourBytes defaultSampleRate = Ok bb
    /\ rawPcmToAudioBuffer (fourBytes ++ fourBytes) defaultSampleRate
       = Ok bab
    /\ channelData bab = channelData ba ++ channelData bb.
Proof.
  apply (decode_append fourBytes fourBytes defaultSampleRate);
    [reflexivity | cbn; lia | cbn; lia].
Defined.

End DecoderFacts.

(** ** More about the active line *)

Module ActiveLineFacts.
Import Double DoubleFacts DialogueCard DialogueCardFacts Samples.

Lemma hundred_above_guard : ninetyNinePointNine <= 100.
Proof. apply Qle_bool_iff. vm_compute. reflexivity. Qed.

Lemma guard_positive : 0 < ninetyNinePointNine.
Proof. vm_compute. reflexivity. Qed.

Lemma representable_tiny : representable (- minPositive).
Proof.
  exists (-1)%Z, (-1074)%Z. split; [cbn; lia |]. split; [lia |].
  unfold minPositive. change (inject_Z (-1)) with (- (1)). ring.
Qed.

(** For a progress in [0, 99.9) the rounded position stays within what
    the lines cover. *)
Lemma currentPos_covered (audioProgress : Q) (lines : list DialogueLine) :
  0 <= audioProgress -> audioProgress < ninetyNinePointNine ->
  0 <= currentPos audioProgress lines
  /\ currentPos audioProgress lines <= totalChars lines.
Proof.
  intros Hlo Hhi. pose proof hundred_above_guard as H100.
  destruct (totalChars_spec lines) as [Hnn Hrep].
  destruct (div_unit audioProgress 100) as [Hq0 Hq1];
    [exact Hlo | lra | reflexivity |].
  unfold currentPos. apply mul_unit; assumption.
Qed.

(** A negative progress of at least a hundred times the smallest double
    gives a negative position. *)
Lemma currentPos_negative (audioProgress : Q) (l : DialogueLine)
      (rest : list DialogueLine) :
  audioProgress <= - (100 * minPositive) ->
  currentPos audioProgress (l :: rest) < 0.
Proof.
  intros Hneg. pose proof (totalChars_five l rest) as H5.
  assert (Htiny : 0 < minPositive) by apply pow2_pos.
  unfold currentPos, mul, div.
  set (q := nearest (audioProgress / 100)).
  assert (Hq : q <= - minPositive).
  { apply nearest_le; [exact representable_tiny |].
    apply Qle_shift_div_r; [reflexivity | lra]. }
  assert (Hpos : nearest (q * totalChars (l :: rest)) <= - minPositive).
  { apply nearest_le; [exact representable_tiny | nra]. }
  lra.
Qed.

(** X14.  The result is always -1 or the index of a line.  While the
    dialogue has lines and the progress is in [0, 99.9), some line is
    active unless the player is idle at progress 0: the rounding of the
    position never takes it outside what the lines cover.  A negative
    progress maps to no line, unless it is so small that dividing it by
    100 underflows to zero: then the first line is active. *)
Theorem activeLineIndex_range (appState : AppState) (isPlaying : bool)
        (audioProgress : Q) (lines : list DialogueLine) :
  let r := activeLineIndex appState isPlaying audioProgress lines in
  (r = (-1)%Z \/ (0 <= r < Z.of_nat (length lines))%Z)
  /\ (lines <> [] -> 0 <= audioProgress ->
      audioProgress < ninetyNinePointNine ->
      isPlayingAudio appState = true \/ isPlaying = true
      \/ ~ audioProgress == 0 ->
      (0 <= r < Z.of_nat (length lines))%Z)
  /\ (audioProgress <= - (100 * minPositive) -> r = (-1)%Z)
  /\ (lines <> [] -> audioProgress < 0 ->
      Double.div audioProgress 100 == 0 -> r = 0%Z).
Proof.
  intros r. subst r. pose proof hundred_above_guard as H100.
  pose proof guard_positive as H0.
  assert (Htiny : 0 < minPositive) by apply pow2_pos.
  split; [| split; [| split]].
  - unfold activeLineIndex.
    destruct (negb (isPlayingAudio appState) && negb isPlaying
              && Qeq_bool audioProgress 0
              || Qle_bool ninetyNinePointNine audioProgress);
      [left; reflexivity |].
    destruct (findIndexFrom_range (currentPos audioProgress lines) lines 0 0)
      as [H | H]; [left; exact H | right; lia].
  - intros Hne Hlo Hhi Hact. unfold activeLineIndex.
    rewrite guard_off by (try exact Hhi; tauto).
    destruct (currentPos_covered audioProgress lines Hlo Hhi) as [Hc0 Hc1].
    pose proof (findIndexFrom_covers (currentPos audioProgress lines)
                                     lines 0 0 Hne Hc0 Hc1) as Hcov.
    lia.
  - intros Hneg. unfold activeLineIndex.
    rewrite guard_off; [| left; intros Hz; lra | lra].
    destruct lines as [| l rest]; [reflexivity |].
    apply findIndexFrom_negative;
      [apply currentPos_negative; exact Hneg | exact representable_0 | lra].
  - intros Hne Hneg Hunder. unfold activeLineIndex.
    rewrite guard_off; [| left; intros Hz; lra | lra].
    destruct lines as [| l rest]; [congruence |].
    assert (Hpos : currentPos audioProgress (l :: rest) = 0).
    { unfold currentPos, mul. apply nearest_zero. rewrite Hunder. ring. }
    rewrite Hpos. cbn [findIndexFrom].
    pose proof (advance_five 0 l ltac:(lra)) as H5.
    replace (Qle_bool 0 0) with true by reflexivity.
    replace (Qle_bool 0 (advance 0 l)) with true
      by (symmetry; apply Qle_bool_iff; lra).
    reflexivity.
Qed.

Lemma activeLineIndex_range_witness :
  (0 <= activeLineIndex PLAYING_AUDIO true 50 [hello; goodbye]
   < Z.of_nat (length [hello; goodbye]))%Z
  /\ activeLineIndex PLAYING_AUDIO true (-1) [hello; goodbye] = (-1)%Z
  /\ activeLineIndex PLAYING_AUDIO true (- minPositive) [hello; goodbye]
     = 0%Z.
Proof.
  split; [| split].
  - apply (proj1 (proj2 (activeLineIndex_range PLAYING_AUDIO true 50
                                               [hello; goodbye]))).
    + discriminate.
    + apply Qle_bool_iff. reflexivity.
    + vm_compute. reflexivity.
    + left. reflexivity.
  - apply (proj1 (proj2 (proj2 (activeLineIndex_range PLAYING_AUDIO true (-1)
                                                      [hello; goodbye])))).
    apply Qle_bool_iff. vm_compute. reflexivity.
  - apply (proj2 (proj2 (proj2 (activeLineIndex_range
                                  PLAYING_AUDIO true (- minPositive)
                                  [hello; goodbye])))).
    + discriminate.
    + vm_compute. reflexivity.
    + vm_compute. reflexivity.
Defined.

(** X15.  The spans are closed at both ends and the first match wins: a
    position, as the doubles compute it, that lies exactly on the boundary
    between line [i] and line [i+1] belongs to line [i]. *)
Theorem activeLineIndex_boundary (appState : AppState) (isPlaying : bool)
        (audioProgress : Q) (lines : list DialogueLine) (i : nat)
        (l : DialogueLine) :
  lines !! i = Some l ->
  audioProgress < ninetyNinePointNine ->
  startOf lines i < currentPos audioProgress lines ->
  currentPos audioProgress lines == advance (startOf lines i) l ->
  activeLineIndex appState isPlaying audioProgress lines = Z.of_nat i.
Proof.
  intros Hl Hlow Hstart Hpos.
  apply (activeLineIndex_in_span _ _ _ _ i l Hl Hlow Hstart).
  rewrite Hpos. apply Qle_refl.
Qed.

Lemma activeLineIndex_boundary_witness :
  activeLineIndex IDLE false
                  (nearest (4545454545454546 # 100000000000000))
                  [hello; goodbye] = 0%Z.
Proof.
  apply (activeLineIndex_boundary
           IDLE false (nearest (4545454545454546 # 100000000000000))
           [hello; goodbye] 0 hello).
  - reflexivity.
  - vm_compute. reflexivity.
  - vm_compute. reflexivity.
  - vm_compute. reflexivity.
Defined.

End ActiveLineFacts.

(** ** The dictation diff *)

Module DictationFacts.
Import Double DoubleFacts Dictation.

Section DiffFacts.

Variable normalize : string -> string.

Abbreviation body := (body normalize).
Abbreviation loop := (loop normalize).
Abbreviation sameWord := (sameWord normalize).

Lemma nonEmptyWords_spec (ws : list string) :
  Forall (fun w => w <> ""%string) (nonEmptyWords ws).
Proof.
  apply List.Forall_forall. intros w Hw.
  apply List.filter_In in Hw as [_ Hw].
  intros ->. discriminate.
Qed.

Lemma wordAt_lookup (ws : list string) (i : nat) (w : string) :
  wordAt ws i = Some w -> ws !! i = Some w.
Proof.
  unfold wordAt. destruct (ws !! i) as [v |]; [| discriminate].
  destruct (String.eqb v ""); congruence.
Qed.

Lemma wordAt_lt (ws : list string) (i : nat) (w : string) :
  wordAt ws i = Some w -> (i < length ws)%nat.
Proof. intros H. eapply lookup_lt_Some, wordAt_lookup, H. Qed.

Lemma wordAt_present (ws : list string) (i : nat) (w : string) :
  Forall (fun w => w <> ""%string) ws -> ws !! i = Some w ->
  wordAt ws i = Some w.
Proof.
  intros Hne Hw. unfold wordAt. rewrite Hw.
  destruct (String.eqb_spec w ""); [| reflexivity].
  exfalso. eapply Forall_lookup_1 in Hne; [| exact Hw]. contradiction.
Qed.

Lemma wordAt_absent (ws : list string) (i : nat) :
  Forall (fun w => w <> ""%string) ws -> wordAt ws i = None ->
  (length ws <= i)%nat.
Proof.
  intros Hne Hw. destruct (le_lt_dec (length ws) i) as [Hge | Hlt];
    [exact Hge | exfalso].
  destruct (lookup_lt_is_Some_2 ws i Hlt) as [w Hl].
  rewrite (wordAt_present ws i w Hne Hl) in Hw. discriminate.
Qed.

Ltac token_done :=
  eexists; split; [reflexivity |];
  cbn [usesMaster usesUser isCorrect explains status token_text expected
       tokens masterIdx userIdx correctCount];
  repeat match goal with |- _ /\ _ => split end;
  try lia;
  try (intros; discriminate);
  try (intros _; apply wordAt_lookup; assumption);
  try (intros _; eexists; split;
       [apply wordAt_lookup; eassumption
       | cbn [explains status token_text expected];
         first [assumption | reflexivity]]).

(** Every run of the body under the loop condition appends one token, moves
    the indices as the token says, and the token shows the user's current
    word and explains the current word of the master text. *)
Lemma body_step (mw uw : list string) (s : LoopState) :
  Forall (fun w => w <> ""%string) mw ->
  Forall (fun w => w <> ""%string) uw ->
  running mw uw s = true ->
  exists t,
    tokens (body mw uw s) = tokens s ++ [t]
    /\ masterIdx (body mw uw s)
       = (masterIdx s + if usesMaster t then 1 else 0)%nat
    /\ userIdx (body mw uw s)
       = (userIdx s + if usesUser t then 1 else 0)%nat
    /\ correctCount (body mw uw s)
       = (correctCount s + if isCorrect t then 1 else 0)%nat
    /\ (masterIdx (body mw uw s) <= Nat.max (masterIdx s) (length mw))%nat
    /\ (userIdx (body mw uw s) <= Nat.max (userIdx s) (length uw))%nat
    /\ (masterIdx s + userIdx s
        < masterIdx (body mw uw s) + userIdx (body mw uw s))%nat
    /\ (usesUser t = true -> uw !! userIdx s = Some (token_text t))
    /\ (usesMaster t = true ->
        exists m, mw !! masterIdx s = Some m /\ explains normalize t m).
Proof.
  intros Hm Hu Hrun. unfold Dictation.body, push.
  destruct (wordAt mw (masterIdx s)) as [m |] eqn:Hmw;
    destruct (wordAt uw (userIdx s)) as [u |] eqn:Huw.
  - pose proof (wordAt_lt _ _ _ Hmw). pose proof (wordAt_lt _ _ _ Huw).
    destruct (sameWord m u) eqn:Hsame; [token_done |].
    destruct (wordAt uw (userIdx s + 1)) as [nu |];
      [destruct (sameWord m nu); [token_done |] |];
      (destruct (wordAt mw (masterIdx s + 1)) as [nm |];
       [destruct (sameWord nm u) |]; token_done).
  - pose proof (wordAt_lt _ _ _ Hmw). token_done.
  - pose proof (wordAt_lt _ _ _ Huw). token_done.
  - exfalso. apply wordAt_absent in Hmw; [| exact Hm].
    apply wordAt_absent in Huw; [| exact Hu].
    unfold running in Hrun. apply orb_true_iff in Hrun as [H | H];
      apply Nat.ltb_lt in H; lia.
Qed.

Lemma count_app (p : DiffToken -> bool) (a b : list DiffToken) :
  count p (a ++ b) = (count p a + count p b)%nat.
Proof. unfold count. rewrite List.filter_app, length_app. reflexivity. Qed.

Lemma count_one (p : DiffToken -> bool) (t : DiffToken) :
  count p [t] = if p t then 1%nat else 0%nat.
Proof. unfold count. cbn. destruct (p t); reflexivity. Qed.

Lemma count_le (p : DiffToken -> bool) (ts : list DiffToken) :
  (count p ts <= length ts)%nat.
Proof. unfold count. apply List.filter_length_le. Qed.

Lemma count_userPart (ts : list DiffToken) :
  length (omap userPart ts) = count usesUser ts.
Proof.
  unfold count. induction ts as [| t ts IH]; [reflexivity |].
  cbn. unfold userPart at 1. destruct (usesUser t); cbn; congruence.
Qed.

(** With fuel for every word still to come, the loop runs to its exit; the
    tokens it adds show the remaining words of the user in order and
    explain the remaining words of the master text in order. *)
Lemma loop_finishes (mw uw : list string) :
  Forall (fun w => w <> ""%string) mw ->
  Forall (fun w => w <> ""%string) uw ->
  forall (fuel : nat) (s : LoopState),
    (masterIdx s <= length mw)%nat -> (userIdx s <= length uw)%nat ->
    (length mw - masterIdx s + (length uw - userIdx s) <= fuel)%nat ->
    exists ts,
      tokens (loop fuel mw uw s) = tokens s ++ ts
      /\ masterIdx (loop fuel mw uw s) = length mw
      /\ userIdx (loop fuel mw uw s) = length uw
      /\ correctCount (loop fuel mw uw s)
         = (correctCount s + count isCorrect ts)%nat
      /\ omap userPart ts = drop (userIdx s) uw
      /\ Forall2 (explains normalize) (List.filter usesMaster ts)
                 (drop (masterIdx s) mw).
Proof.
  intros Hm Hu. induction fuel as [| fuel IH]; intros s Hmi Hui Hfuel.
  - exists []. cbn [Dictation.loop]. rewrite app_nil_r.
    rewrite !drop_ge by lia. unfold count. cbn.
    repeat split; try lia. constructor.
  - cbn [Dictation.loop]. destruct (running mw uw s) eqn:Hrun.
    + destruct (body_step mw uw s Hm Hu Hrun)
        as (t & Ht & Hmi' & Hui' & Hc' & Hmb & Hub & Hprog & Huser & Hmaster).
      destruct (IH (body mw uw s)) as (ts & Hts & H1 & H2 & H3 & H4 & H5);
        [lia | lia | lia |].
      exists (t :: ts). rewrite Hts, Ht, <- app_assoc.
      split; [reflexivity |]. split; [exact H1 |]. split; [exact H2 |].
      split; [| split].
      * change (t :: ts) with ([t] ++ ts).
        rewrite count_app, count_one, H3, Hc'. lia.
      * cbn [omap list_omap]. unfold userPart at 1.
        rewrite Hui' in H4. destruct (usesUser t).
        -- rewrite (drop_S uw (token_text t) (userIdx s) (Huser eq_refl)).
           rewrite H4. do 2 f_equal. lia.
        -- rewrite H4. f_equal. lia.
      * cbn [List.filter]. rewrite Hmi' in H5. destruct (usesMaster t).
        -- destruct (Hmaster eq_refl) as (m & Hl & He).
           rewrite (drop_S mw m (masterIdx s) Hl). constructor; [exact He |].
           rewrite Nat.add_1_r in H5. exact H5.
        -- rewrite Nat.add_0_r in H5. exact H5.
    + exists []. rewrite app_nil_r. unfold count. cbn.
      unfold running in Hrun. apply orb_false_iff in Hrun as [H1 H2].
      apply Nat.ltb_ge in H1, H2. rewrite !drop_ge by lia.
      repeat split; try lia. constructor.
Qed.

Lemma explained_count (ts : list DiffToken) (ms : list string) :
  Forall2 (explains normalize) (List.filter usesMaster ts) ms ->
  count usesMaster ts = length ms.
Proof. intros H. unfold count. exact (Forall2_length _ _ _ H). Qed.

Lemma representable_100 : representable 100.
Proof. apply (representable_Z 100). cbn. lia. Qed.

Lemma count_as_number (c n : nat) :
  (c <= n)%nat ->
  0 <= inject_Z (Z.of_nat c)
  /\ inject_Z (Z.of_nat c) <= inject_Z (Z.of_nat (Nat.max 1 n))
  /\ 0 < inject_Z (Z.of_nat (Nat.max 1 n)).
Proof.
  intros Hle. change 0 with (inject_Z 0).
  rewrite <- !Zle_Qle, <- Zlt_Qlt. lia.
Qed.

Lemma round_percent (c n : nat) :
  (c <= n)%nat -> (0 <= scoreOf c n <= 100)%Z.
Proof.
  intros Hle. unfold scoreOf, round.
  destruct (count_as_number c n Hle) as (Hc & Hcd & Hd).
  destruct (div_unit _ _ Hc Hcd Hd) as [Hq0 Hq1].
  set (q := div _ _) in *.
  assert (Hx0 : 0 <= mul q 100).
  { apply nearest_ge; [exact representable_0 | lra]. }
  assert (Hx1 : mul q 100 <= 100).
  { apply nearest_le; [exact representable_100 | lra]. }
  split.
  - apply (Z.le_trans _ (Qfloor 0)); [reflexivity |].
    apply Qfloor_resp_le. lra.
  - apply (Z.le_trans _ (Qfloor (100 + (1 # 2)))); [| reflexivity].
    apply Qfloor_resp_le. lra.
Qed.

Lemma scoreOf_full (n : nat) : (0 < n)%nat -> scoreOf n n = 100%Z.
Proof.
  intros Hn. unfold scoreOf, round.
  replace (Nat.max 1 n) with n by lia.
  assert (Hd : ~ inject_Z (Z.of_nat n) == 0).
  { intros H. unfold Qeq in H. cbn in H. lia. }
  assert (Hq : div (inject_Z (Z.of_nat n)) (inject_Z (Z.of_nat n)) == 1).
  { apply nearest_exact; [exact representable_1 |]. field. exact Hd. }
  assert (Hx : mul (div (inject_Z (Z.of_nat n)) (inject_Z (Z.of_nat n))) 100
               == 100).
  { apply nearest_exact; [exact representable_100 |]. rewrite Hq. ring. }
  rewrite (Qfloor_comp _ (100 + (1 # 2))) by (rewrite Hx; reflexivity).
  reflexivity.
Qed.

Lemma scoreOf_none (n : nat) : scoreOf 0 n = 0%Z.
Proof.
  unfold scoreOf, round, mul, div.
  rewrite (nearest_zero
             (inject_Z (Z.of_nat 0) / inject_Z (Z.of_nat (Nat.max 1 n))))
    by (change (inject_Z (Z.of_nat 0)) with 0; unfold Qdiv; ring).
  rewrite (nearest_zero (0 * 100)) by ring.
  reflexivity.
Qed.

Lemma loop_stop (fuel : nat) (mw uw : list string) (s : LoopState) :
  running mw uw s = false -> loop fuel mw uw s = s.
Proof. intros H. destruct fuel; cbn [Dictation.loop]; rewrite ?H; reflexivity. Qed.

Lemma loop_next (fuel : nat) (mw uw : list string) (s : LoopState) :
  running mw uw s = true ->
  loop (S fuel) mw uw s = loop fuel mw uw (body mw uw s).
Proof. intros H. cbn [Dictation.loop]. rewrite H. reflexivity. Qed.

Lemma drop_more (ws : list string) (i : nat) (pre rest : list string) :
  drop i ws = pre ++ rest -> drop (i + length pre) ws = rest.
Proof. intros H. rewrite <- drop_drop, H. apply drop_app_length. Qed.

Lemma drop_next (ws : list string) (i : nat) (w : string)
      (rest : list string) :
  drop i ws = w :: rest -> drop (S i) ws = rest.
Proof.
  intros H. rewrite <- Nat.add_1_r. exact (drop_more ws i [w] rest H).
Qed.

Lemma drop_cons_lt (ws : list string) (i : nat) (w : string)
      (rest : list string) :
  drop i ws = w :: rest -> (i < length ws)%nat.
Proof.
  intros H. destruct (le_lt_dec (length ws) i) as [Hge | Hlt]; [| exact Hlt].
  rewrite drop_ge in H by exact Hge. discriminate.
Qed.

Lemma drop_nil_ge (ws : list string) (i : nat) :
  drop i ws = [] -> (length ws <= i)%nat.
Proof.
  intros H. pose proof (length_drop ws i) as Hl. rewrite H in Hl.
  cbn in Hl. lia.
Qed.

Lemma wordAt_drop (ws : list string) (i : nat) (w : string)
      (rest : list string) :
  Forall (fun w => w <> ""%string) ws -> drop i ws = w :: rest ->
  wordAt ws i = Some w.
Proof.
  intros Hne H. apply wordAt_present; [exact Hne |].
  rewrite <- (Nat.add_0_r i), <- lookup_drop, H. reflexivity.
Qed.

Lemma wordAt_drop_nil (ws : list string) (i : nat) :
  drop i ws = [] -> wordAt ws i = None.
Proof.
  intros H. unfold wordAt.
  rewrite (lookup_ge_None_2 ws i (drop_nil_ge ws i H)). reflexivity.
Qed.

Lemma running_master (mw uw : list string) (ts : list DiffToken)
      (i j c : nat) (m : string) (rest : list string) :
  drop i mw = m :: rest -> running mw uw (mkLoopState ts i j c) = true.
Proof.
  intros H. unfold running. cbn. apply orb_true_iff. left.
  apply Nat.ltb_lt. exact (drop_cons_lt mw i m rest H).
Qed.

Lemma running_user (mw uw : list string) (ts : list DiffToken)
      (i j c : nat) (u : string) (rest : list string) :
  drop j uw = u :: rest -> running mw uw (mkLoopState ts i j c) = true.
Proof.
  intros H. unfold running. cbn. apply orb_true_iff. right.
  apply Nat.ltb_lt. exact (drop_cons_lt uw j u rest H).
Qed.

Lemma running_done (mw uw : list string) (ts : list DiffToken)
      (i j c : nat) :
  drop i mw = [] -> drop j uw = [] ->
  running mw uw (mkLoopState ts i j c) = false.
Proof.
  intros H1 H2. unfold running. cbn. apply orb_false_iff.
  split; apply Nat.ltb_ge; [exact (drop_nil_ge mw i H1)
                           | exact (drop_nil_ge uw j H2)].
Qed.

Section Runs.

Variables mw uw : list string.
Hypothesis master_words : Forall (fun w => w <> ""%string) mw.
Hypothesis user_words : Forall (fun w => w <> ""%string) uw.

(** An iteration on two words that normalise to the same string. *)
Lemma iteration_correct (fuel : nat) (ts : list DiffToken) (i j c : nat)
      (m u : string) (mrest urest : list string) :
  drop i mw = m :: mrest -> drop j uw = u :: urest ->
  sameWord m u = true ->
  loop (S fuel) mw uw (mkLoopState ts i j c)
  = loop fuel mw uw (mkLoopState (ts ++ [correctToken u]) (S i) (S j) (S c)).
Proof.
  intros Hi Hj Hs. rewrite loop_next by (eapply running_master; eassumption).
  unfold Dictation.body, push. cbn [masterIdx userIdx tokens correctCount].
  rewrite (wordAt_drop mw i m mrest master_words Hi).
  rewrite (wordAt_drop uw j u urest user_words Hj).
  rewrite Hs. reflexivity.
Qed.

(** A run of iterations on words that agree pairwise. *)
Lemma run_correct (ms us : list string) :
  Forall2 (fun m u => sameWord m u = true) ms us ->
  forall (fuel : nat) (ts : list DiffToken) (i j c : nat)
         (mrest urest : list string),
    drop i mw = ms ++ mrest -> drop j uw = us ++ urest ->
    loop (length ms + fuel) mw uw (mkLoopState ts i j c)
    = loop fuel mw uw
           (mkLoopState (ts ++ map correctToken us)
                        (i + length ms) (j + length us) (c + length ms)).
Proof.
  induction 1 as [| m u ms us Hs Hrest IH];
    intros fuel ts i j c mrest urest Hi Hj.
  - cbn. rewrite app_nil_r, !Nat.add_0_r. reflexivity.
  - cbn [length Nat.add map].
    rewrite (iteration_correct _ ts i j c m u _ _ Hi Hj Hs).
    rewrite (IH fuel _ (S i) (S j) (S c) mrest urest
                (drop_next _ _ _ _ Hi) (drop_next _ _ _ _ Hj)).
    rewrite <- app_assoc. cbn [app].
    rewrite !Nat.add_succ_r. reflexivity.
Qed.

(** An iteration when the user has no word left. *)
Lemma iteration_missing_tail (fuel : nat) (ts : list DiffToken)
      (i j c : nat) (m : string) (mrest : list string) :
  drop i mw = m :: mrest -> drop j uw = [] ->
  loop (S fuel) mw uw (mkLoopState ts i j c)
  = loop fuel mw uw (mkLoopState (ts ++ [missingToken m]) (S i) j c).
Proof.
  intros Hi Hj. rewrite loop_next by (eapply running_master; eassumption).
  unfold Dictation.body, push. cbn [masterIdx userIdx tokens correctCount].
  rewrite (wordAt_drop mw i m mrest master_words Hi).
  rewrite (wordAt_drop_nil uw j Hj). reflexivity.
Qed.

(** An iteration when the master text has no word left. *)
Lemma iteration_extra_tail (fuel : nat) (ts : list DiffToken)
      (i j c : nat) (u : string) (urest : list string) :
  drop i mw = [] -> drop j uw = u :: urest ->
  loop (S fuel) mw uw (mkLoopState ts i j c)
  = loop fuel mw uw (mkLoopState (ts ++ [extraToken u]) i (S j) c).
Proof.
  intros Hi Hj. rewrite loop_next by (eapply running_user; eassumption).
  unfold Dictation.body, push. cbn [masterIdx userIdx tokens correctCount].
  rewrite (wordAt_drop_nil mw i Hi).
  rewrite (wordAt_drop uw j u urest user_words Hj). reflexivity.
Qed.

Lemma run_missing_tail (ms : list string) :
  forall (fuel : nat) (ts : list DiffToken) (i j c : nat),
    drop i mw = ms -> drop j uw = [] ->
    loop (length ms + fuel) mw uw (mkLoopState ts i j c)
    = loop fuel mw uw
           (mkLoopState (ts ++ map missingToken ms) (i + length ms) j c).
Proof.
  induction ms as [| m ms IH]; intros fuel ts i j c Hi Hj.
  - cbn. rewrite app_nil_r, Nat.add_0_r. reflexivity.
  - cbn [length Nat.add map].
    rewrite (iteration_missing_tail _ ts i j c m ms Hi Hj).
    rewrite (IH fuel _ (S i) j c (drop_next _ _ _ _ Hi) Hj).
    rewrite <- app_assoc. cbn [app]. rewrite Nat.add_succ_r. reflexivity.
Qed.

Lemma run_extra_tail (us : list string) :
  forall (fuel : nat) (ts : list DiffToken) (i j c : nat),
    drop i mw = [] -> drop j uw = us ->
    loop (length us + fuel) mw uw (mkLoopState ts i j c)
    = loop fuel mw uw
           (mkLoopState (ts ++ map extraToken us) i (j + length us) c).
Proof.
  induction us as [| u us IH]; intros fuel ts i j c Hi Hj.
  - cbn. rewrite app_nil_r, Nat.add_0_r. reflexivity.
  - cbn [length Nat.add map].
    rewrite (iteration_extra_tail _ ts i j c u us Hi Hj).
    rewrite (IH fuel _ i (S j) c Hi (drop_next _ _ _ _ Hj)).
    rewrite <- app_assoc. cbn [app]. rewrite Nat.add_succ_r. reflexivity.
Qed.

(** An iteration on two different words when the user's next word is the
    word of the master text: the user's word is an extra one. *)
Lemma iteration_extra (fuel : nat) (ts : list DiffToken) (i j c : nat)
      (m x u : string) (mrest urest : list string) :
  drop i mw = m :: mrest -> drop j uw = x :: u :: urest ->
  sameWord m x = false -> sameWord m u = true ->
  loop (S fuel) mw uw (mkLoopState ts i j c)
  = loop fuel mw uw (mkLoopState (ts ++ [extraToken x]) i (S j) c).
Proof.
  intros Hi Hj Hx Hu.
  rewrite loop_next by (eapply running_master; eassumption).
  unfold Dictation.body, push. cbn [masterIdx userIdx tokens correctCount].
  rewrite (wordAt_drop mw i m mrest master_words Hi).
  rewrite (wordAt_drop uw j x _ user_words Hj), Hx.
  rewrite Nat.add_1_r.
  rewrite (wordAt_drop uw (S j) u urest user_words (drop_next _ _ _ _ Hj)).
  rewrite Hu. reflexivity.
Qed.

(** An iteration on two different words when the next word of the master
    text is the user's word, and the user's next word is not the current
    word of the master text: that word is missing. *)
Lemma iteration_missing (fuel : nat) (ts : list DiffToken) (i j c : nat)
      (m nm u : string) (mrest urest : list string) :
  drop i mw = m :: nm :: mrest -> drop j uw = u :: urest ->
  sameWord m u = false -> sameWord nm u = true ->
  (forall nu, head urest = Some nu -> sameWord m nu = false) ->
  loop (S fuel) mw uw (mkLoopState ts i j c)
  = loop fuel mw uw (mkLoopState (ts ++ [missingToken m]) (S i) j c).
Proof.
  intros Hi Hj Hu Hnm Hnu.
  rewrite loop_next by (eapply running_master; eassumption).
  unfold Dictation.body, push. cbn [masterIdx userIdx tokens correctCount].
  rewrite (wordAt_drop mw i m _ master_words Hi).
  rewrite (wordAt_drop uw j u urest user_words Hj), Hu.
  rewrite !Nat.add_1_r.
  rewrite (wordAt_drop mw (S i) nm mrest master_words (drop_next _ _ _ _ Hi)).
  rewrite Hnm.
  pose proof (drop_next _ _ _ _ Hj) as Hj'.
  destruct urest as [| nu urest'].
  - rewrite (wordAt_drop_nil uw (S j) Hj'). reflexivity.
  - rewrite (wordAt_drop uw (S j) nu urest' user_words Hj').
    rewrite (Hnu nu eq_refl). reflexivity.
Qed.

End Runs.

Lemma length_le_counts (ts : list DiffToken) :
  (length ts <= count usesMaster ts + count usesUser ts)%nat.
Proof.
  unfold count. induction ts as [| t ts IH]; [cbn; lia |].
  cbn [List.filter length]. unfold usesMaster at 1, usesUser at 1.
  destruct (status t); cbn [length]; lia.
Qed.

Lemma diffWords_spec (mw uw : list string) :
  Forall (fun w => w <> ""%string) mw ->
  Forall (fun w => w <> ""%string) uw ->
  let final := diffWords normalize mw uw in
  running mw uw final = false
  /\ correctCount final = count isCorrect (tokens final)
  /\ omap userPart (tokens final) = uw
  /\ Forall2 (explains normalize) (List.filter usesMaster (tokens final)) mw.
Proof.
  intros Hm Hu final.
  destruct (loop_finishes mw uw Hm Hu (length mw + length uw) start)
    as (ts & Hts & Hi & Hj & Hc & Huser & Hmaster);
    [cbn; lia | cbn; lia | cbn; lia |].
  fold (diffWords normalize mw uw) in Hts, Hi, Hj, Hc. fold final in Hts, Hi, Hj, Hc.
  cbn in Hts, Hc, Huser, Hmaster. rewrite Hts.
  split; [| split; [exact Hc | split; [exact Huser | exact Hmaster]]].
  unfold running. rewrite Hi, Hj, !Nat.ltb_irrefl. reflexivity.
Qed.

(** X16.  The loop of [getDictationDiff] ends: on the two word arrays it has
    left its condition false after at most one iteration per word, and it
    pushes one token per iteration, at least as many as the longer text
    has words and at most as many as both texts have together. *)
Theorem diff_terminates (splitWhitespace : string -> list string)
        (userText masterText : string) :
  let masterWords := nonEmptyWords (splitWhitespace masterText) in
  let userWords := nonEmptyWords (splitWhitespace userText) in
  let ts := fst (getDictationDiff normalize splitWhitespace
                                  userText masterText) in
  running masterWords userWords (diffWords normalize masterWords userWords)
  = false
  /\ (Nat.max (length masterWords) (length userWords) <= length ts)%nat
  /\ (length ts <= length masterWords + length userWords)%nat.
Proof.
  intros mw uw ts.
  destruct (diffWords_spec mw uw (nonEmptyWords_spec _) (nonEmptyWords_spec _))
    as (Hstop & _ & Huser & Hmaster).
  change ts with (tokens (diffWords normalize mw uw)).
  set (final := tokens (diffWords normalize mw uw)) in *.
  pose proof (explained_count _ _ Hmaster) as Hcm.
  pose proof (count_userPart final) as Hcu. rewrite Huser in Hcu.
  pose proof (count_le usesMaster final).
  pose proof (count_le usesUser final).
  pose proof (length_le_counts final).
  split; [exact Hstop | lia].
Qed.

(** X17.  The tokens are an alignment of the two texts: the tokens that
    show a word of the user (correct, incorrect, extra) show the user's
    words in order, none lost or repeated, and the tokens that stand for a
    word of the master text (correct, incorrect, missing) stand for its
    words in order: a correct token shows a word that normalises like the
    master's, the others carry the master's word as [expected]. *)
Theorem diff_aligns_both_texts (splitWhitespace : string -> list string)
        (userText masterText : string) :
  let masterWords := nonEmptyWords (splitWhitespace masterText) in
  let userWords := nonEmptyWords (splitWhitespace userText) in
  let ts := fst (getDictationDiff normalize splitWhitespace
                                  userText masterText) in
  omap userPart ts = userWords
  /\ Forall2 (explains normalize) (List.filter usesMaster ts) masterWords.
Proof.
  intros mw uw ts.
  destruct (diffWords_spec mw uw (nonEmptyWords_spec _) (nonEmptyWords_spec _))
    as (_ & _ & Huser & Hmaster).
  split; [exact Huser | exact Hmaster].
Qed.

(** X18.  The score is the rounded percentage of correct tokens among the
    words of the master text; the correct tokens are never more than those
    words, so the score lies between 0 and 100. *)
Theorem diff_score_bounds (splitWhitespace : string -> list string)
        (userText masterText : string) :
  let masterWords := nonEmptyWords (splitWhitespace masterText) in
  let result := getDictationDiff normalize splitWhitespace
                                 userText masterText in
  snd result = scoreOf (count isCorrect (fst result)) (length masterWords)
  /\ (count isCorrect (fst result) <= length masterWords)%nat
  /\ (0 <= snd result <= 100)%Z.
Proof.
  intros mw result.
  set (uw := nonEmptyWords (splitWhitespace userText)).
  destruct (diffWords_spec mw uw (nonEmptyWords_spec _) (nonEmptyWords_spec _))
    as (_ & Hc & _ & Hmaster).
  change (snd result)
    with (scoreOf (correctCount (diffWords normalize mw uw)) (length mw)).
  change (fst result) with (tokens (diffWords normalize mw uw)).
  set (final := diffWords normalize mw uw) in *.
  assert (Hle : (count isCorrect (tokens final) <= length mw)%nat).
  { rewrite <- (explained_count _ _ Hmaster). unfold count.
    clear. induction (tokens final) as [| t ts IH]; [cbn; lia |].
    cbn [List.filter]. unfold isCorrect at 1, usesMaster at 1.
    destruct (status t); cbn [length]; lia. }
  rewrite Hc. split; [reflexivity | split; [exact Hle |]].
  apply round_percent. exact Hle.
Qed.

(** X19.  When the words of the two texts agree pairwise after
    normalisation, every token is correct and shows the user's spelling;
    the score is 100, or 0 when the master text has no word. *)
Theorem matching_words_score_100 (splitWhitespace : string -> list string)
        (userText masterText : string) :
  Forall2 (fun m u => sameWord m u = true)
          (nonEmptyWords (splitWhitespace masterText))
          (nonEmptyWords (splitWhitespace userText)) ->
  getDictationDiff normalize splitWhitespace userText masterText
  = (map correctToken (nonEmptyWords (splitWhitespace userText)),
     match nonEmptyWords (splitWhitespace masterText) with
     | [] => 0%Z
     | _ :: _ => 100%Z
     end).
Proof.
  unfold getDictationDiff, diffWords, start.
  set (mw := nonEmptyWords (splitWhitespace masterText)).
  set (uw := nonEmptyWords (splitWhitespace userText)).
  intros Hsame.
  rewrite (run_correct mw uw (nonEmptyWords_spec _) (nonEmptyWords_spec _)
                       mw uw Hsame (length uw) [] 0 0 0 [] []);
    [| cbn; rewrite app_nil_r; reflexivity
     | cbn; rewrite app_nil_r; reflexivity].
  rewrite loop_stop.
  - cbn [tokens correctCount app Nat.add]. f_equal.
    destruct mw as [| m mw']; [apply scoreOf_none |].
    apply scoreOf_full. cbn. lia.
  - apply running_done; apply drop_ge; cbn; lia.
Qed.

(** X20.  With no word from the user, every word of the master text is
    reported missing, in order, and the score is 0. *)
Theorem empty_answer_all_missing (splitWhitespace : string -> list string)
        (userText masterText : string) :
  nonEmptyWords (splitWhitespace userText) = [] ->
  getDictationDiff normalize splitWhitespace userText masterText
  = (map missingToken (nonEmptyWords (splitWhitespace masterText)), 0%Z).
Proof.
  unfold getDictationDiff, diffWords, start.
  set (mw := nonEmptyWords (splitWhitespace masterText)).
  intros ->. cbn [length].
  rewrite (run_missing_tail mw [] (nonEmptyWords_spec _) mw 0 [] 0 0 0);
    [| reflexivity | reflexivity].
  rewrite loop_stop.
  - cbn [tokens correctCount app]. rewrite scoreOf_none. reflexivity.
  - apply running_done; [apply drop_ge; cbn; lia | reflexivity].
Qed.

(** X21.  With no word in the master text, every word of the user is
    reported extra, in order, and the score is 0. *)
Theorem empty_master_all_extra (splitWhitespace : string -> list string)
        (userText masterText : string) :
  nonEmptyWords (splitWhitespace masterText) = [] ->
  getDictationDiff normalize splitWhitespace userText masterText
  = (map extraToken (nonEmptyWords (splitWhitespace userText)), 0%Z).
Proof.
  unfold getDictationDiff, diffWords, start.
  set (uw := nonEmptyWords (splitWhitespace userText)).
  intros ->. cbn [length Nat.add].
  replace (length uw) with (length uw + 0)%nat by lia.
  rewrite (run_extra_tail [] uw (nonEmptyWords_spec _) uw 0 [] 0 0 0);
    [| reflexivity | reflexivity].
  rewrite loop_stop.
  - reflexivity.
  - apply running_done; [reflexivity | apply drop_ge; cbn; lia].
Qed.

(** X22.  One word too many is skipped without cost: if the user's text is
    the master text with one word [x] put before a word that [x] does not
    normalise like, then [x] is reported extra, every other token is
    correct, and the score is 100. *)
Theorem extra_word_is_skipped (splitWhitespace : string -> list string)
        (userText masterText : string)
        (ms1 ms2 us1 us2 : list string) (m x u : string) :
  nonEmptyWords (splitWhitespace masterText) = ms1 ++ m :: ms2 ->
  nonEmptyWords (splitWhitespace userText) = us1 ++ x :: u :: us2 ->
  Forall2 (fun m u => sameWord m u = true) ms1 us1 ->
  sameWord m x = false ->
  sameWord m u = true ->
  Forall2 (fun m u => sameWord m u = true) ms2 us2 ->
  getDictationDiff normalize splitWhitespace userText masterText
  = (map correctToken us1
       ++ extraToken x :: correctToken u :: map correctToken us2,
     100%Z).
Proof.
  unfold getDictationDiff, diffWords, start.
  pose proof (nonEmptyWords_spec (splitWhitespace masterText)) as Hm.
  pose proof (nonEmptyWords_spec (splitWhitespace userText)) as Hu.
  set (mw := nonEmptyWords (splitWhitespace masterText)) in *.
  set (uw := nonEmptyWords (splitWhitespace userText)) in *.
  intros Hmw Huw H1 Hx Hsame H2.
  pose proof (Forall2_length _ _ _ H1) as Hl1.
  pose proof (Forall2_length _ _ _ H2) as Hl2.
  assert (Hi0 : drop 0 mw = ms1 ++ m :: ms2) by exact Hmw.
  assert (Hj0 : drop 0 uw = us1 ++ x :: u :: us2) by exact Huw.
  pose proof (drop_more _ _ _ _ Hi0) as Hi1.
  pose proof (drop_more _ _ _ _ Hj0) as Hj1.
  pose proof (drop_next _ _ _ _ Hj1) as Hj2.
  pose proof (drop_next _ _ _ _ Hi1) as Hi3.
  pose proof (drop_next _ _ _ _ Hj2) as Hj3.
  replace (length mw + length uw)%nat
    with (length ms1
          + S (S (length ms2 + (length us1 + length us2 + 1))))%nat
    by (rewrite Hmw, Huw, !length_app; cbn [length]; lia).
  rewrite (run_correct mw uw Hm Hu ms1 us1 H1 _ [] 0 0 0 _ _ Hi0 Hj0).
  rewrite (iteration_extra mw uw Hm Hu _ _ _ _ _ m x u _ _ Hi1 Hj1 Hx Hsame).
  rewrite (iteration_correct mw uw Hm Hu _ _ _ _ _ m u _ _ Hi1 Hj2 Hsame).
  rewrite (run_correct mw uw Hm Hu ms2 us2 H2 _ _ _ _ _ [] []);
    [| rewrite app_nil_r; exact Hi3 | rewrite app_nil_r; exact Hj3].
  rewrite loop_stop.
  - cbn [tokens correctCount]. f_equal.
    + cbn [app]. rewrite <- !app_assoc. reflexivity.
    + replace (length mw) with (S (0 + length ms1) + length ms2)%nat
        by (rewrite Hmw, length_app; cbn [length]; lia).
      apply scoreOf_full. lia.
  - apply running_done.
    + rewrite <- (app_nil_r ms2) in Hi3. exact (drop_more _ _ _ _ Hi3).
    + rewrite <- (app_nil_r us2) in Hj3. exact (drop_more _ _ _ _ Hj3).
Qed.

(** X23.  One word left out is found again: if the user's text is the
    master text without its word [m], the user's word at that place
    normalises like the master's next word and not like [m], and the
    user's word after it (if any) does not normalise like [m] either, then
    [m] is reported missing, every other token is correct, and the score is
    the rounded share of the remaining words. *)
Theorem missing_word_is_found (splitWhitespace : string -> list string)
        (userText masterText : string)
        (ms1 ms2 us1 us2 : list string) (m nm u : string) :
  nonEmptyWords (splitWhitespace masterText) = ms1 ++ m :: nm :: ms2 ->
  nonEmptyWords (splitWhitespace userText) = us1 ++ u :: us2 ->
  Forall2 (fun m u => sameWord m u = true) ms1 us1 ->
  sameWord m u = false ->
  sameWord nm u = true ->
  (forall nu, head us2 = Some nu -> sameWord m nu = false) ->
  Forall2 (fun m u => sameWord m u = true) ms2 us2 ->
  getDictationDiff normalize splitWhitespace userText masterText
  = (map correctToken us1
       ++ missingToken m :: correctToken u :: map correctToken us2,
     scoreOf (length ms1 + 1 + length ms2) (length ms1 + 2 + length ms2)).
Proof.
  unfold getDictationDiff, diffWords, start.
  pose proof (nonEmptyWords_spec (splitWhitespace masterText)) as Hm.
  pose proof (nonEmptyWords_spec (splitWhitespace userText)) as Hu.
  set (mw := nonEmptyWords (splitWhitespace masterText)) in *.
  set (uw := nonEmptyWords (splitWhitespace userText)) in *.
  intros Hmw Huw H1 Hdiff Hsame Hnext H2.
  pose proof (Forall2_length _ _ _ H1) as Hl1.
  pose proof (Forall2_length _ _ _ H2) as Hl2.
  assert (Hi0 : drop 0 mw = ms1 ++ m :: nm :: ms2) by exact Hmw.
  assert (Hj0 : drop 0 uw = us1 ++ u :: us2) by exact Huw.
  pose proof (drop_more _ _ _ _ Hi0) as Hi1.
  pose proof (drop_more _ _ _ _ Hj0) as Hj1.
  pose proof (drop_next _ _ _ _ Hi1) as Hi2.
  pose proof (drop_next _ _ _ _ Hi2) as Hi3.
  pose proof (drop_next _ _ _ _ Hj1) as Hj3.
  replace (length mw + length uw)%nat
    with (length ms1
          + S (S (length ms2 + (length us1 + length us2 + 1))))%nat
    by (rewrite Hmw, Huw, !length_app; cbn [length]; lia).
  rewrite (run_correct mw uw Hm Hu ms1 us1 H1 _ [] 0 0 0 _ _ Hi0 Hj0).
  rewrite (iteration_missing mw uw Hm Hu _ _ _ _ _ m nm u _ _
                             Hi1 Hj1 Hdiff Hsame Hnext).
  rewrite (iteration_correct mw uw Hm Hu _ _ _ _ _ nm u _ _ Hi2 Hj1 Hsame).
  rewrite (run_correct mw uw Hm Hu ms2 us2 H2 _ _ _ _ _ [] []);
    [| rewrite app_nil_r; exact Hi3 | rewrite app_nil_r; exact Hj3].
  rewrite loop_stop.
  - cbn [tokens correctCount]. f_equal.
    + cbn [app]. rewrite <- !app_assoc. reflexivity.
    + f_equal; [lia |].
      rewrite Hmw, length_app. cbn [length]. lia.
  - apply running_done.
    + rewrite <- (app_nil_r ms2) in Hi3. exact (drop_more _ _ _ _ Hi3).
    + rewrite <- (app_nil_r us2) in Hj3. exact (drop_more _ _ _ _ Hj3).
Qed.

End DiffFacts.

Lemma matching_words_witness :
  getDictationDiff (fun s => s) (splitSpaces "") "the cat sat" "the cat sat"
  = ([correctToken "the"; correctToken "cat"; correctToken "sat"], 100%Z).
Proof.
  apply (matching_words_score_100 (fun s => s) (splitSpaces "")
                                  "the cat sat" "the cat sat").
  vm_compute. repeat constructor.
Defined.

Lemma empty_answer_witness :
  getDictationDiff (fun s => s) (splitSpaces "") "" "the cat"
  = ([missingToken "the"; missingToken "cat"], 0%Z).
Proof.
  apply (empty_answer_all_missing (fun s => s) (splitSpaces "") "" "the cat").
  reflexivity.
Defined.

Lemma empty_master_witness :
  getDictationDiff (fun s => s) (splitSpaces "") "the cat" ""
  = ([extraToken "the"; extraToken "cat"], 0%Z).
Proof.
  apply (empty_master_all_extra (fun s => s) (splitSpaces "") "the cat" "").
  reflexivity.
Defined.

Lemma extra_word_witness :
  getDictationDiff (fun s => s) (splitSpaces "")
                   "the big cat sat" "the cat sat"
  = ([correctToken "the"; extraToken "big"; correctToken "cat";
      correctToken "sat"], 100%Z).
Proof.
  apply (extra_word_is_skipped (fun s => s) (splitSpaces "")
                               "the big cat sat" "the cat sat"
                               ["the"%string] ["sat"%string]
                               ["the"%string] ["sat"%string]
                               "cat" "big" "cat").
  - reflexivity.
  - reflexivity.
  - repeat constructor.
  - reflexivity.
  - reflexivity.
  - repeat constructor.
Defined.

Lemma missing_word_witness :
  getDictationDiff (fun s => s) (splitSpaces "") "the sat" "the cat sat"
  = ([correctToken "the"; missingToken "cat"; correctToken "sat"], 67%Z).
Proof.
  apply (missing_word_is_found (fun s => s) (splitSpaces "")
                               "the sat" "the cat sat"
                               ["the"%string] [] ["the"%string] []
                               "cat" "sat" "sat").
  - reflexivity.
  - reflexivity.
  - repeat constructor.
  - reflexivity.
  - reflexivity.
  - intros nu H. discriminate H.
  - constructor.
Defined.

End DictationFacts.
